(** * CellRank estimators: decomposition and partitioning

    A shallow embedding of [cellrank/tools/estimators/_decomposition.py]
    (classes [EigWritable], [Eigen], [Schur]) and of the [KernelHolder] and
    [Partitioner] classes of [cellrank/tools/estimators/_property.py].

    Floating point numbers are represented by exact rationals, complex
    numbers by pairs of rationals; where the comparison of two rounded
    differences decides a result ([find_nearest]), the rounding is an
    argument of the model.  The numerical solvers the code calls
    ([scipy.sparse.linalg.eigs], [numpy.linalg.eig], the sorted Schur solver)
    are arguments of the model; what is embedded is what the estimator does
    with their results.  The estimator object, the annotated data object it
    shares with its kernel and the logger are threaded through a state and
    exception monad.

    The second part embeds what the plotting methods of these classes check
    and select, the metaclass method [PropertyMeta.update_attributes], the
    utility functions of [cellrank/tools/kernels/_utils.py] over sparse
    matrices and the search for the nearest value of
    [cellrank/plotting/_heatmap.py]. *)

From Stdlib Require Import QArith Qabs Qround ZArith Lia Lqa.
From stdpp Require Import gmap strings pretty sorting.

(** ** Numbers and arrays *)

(** [EPS = np.finfo(np.float64).eps], that is [2 ** -52]. *)
Definition EPS : Q := 1 # (2 ^ 52).

Record complex := Cx { re : Q; im : Q }.

Definition cabs2 (z : complex) : Q := (re z * re z + im z * im z)%Q.

(** A numpy array of numbers carries its dtype. *)
Inductive ndarray :=
  | FloatArray (xs : list Q)
  | ComplexArray (zs : list complex).

Definition vec := list complex.
(** A dense matrix, as the list of its rows. *)
Definition matrix (A : Type) := list (list A).

Definition shape0 {A} (m : matrix A) : nat := length m.
Definition shape1 {A} (m : matrix A) : nat :=
  match m with [] => 0%nat | r :: _ => length r end.

Definition column {A} (j : nat) (m : matrix A) : option (list A) :=
  mapM (λ r : list A, r !! j) m.

(** [m.T] *)
Definition transpose {A} (m : matrix A) : matrix A :=
  omap (λ j, column j m) (seq 0 (shape1 m)).

#[global] Instance Qle_dec (x y : Q) : Decision (x <= y)%Q.
Proof.
  destruct (Qlt_le_dec y x) as [Hlt | Hle].
  - right. apply Qlt_not_le, Hlt.
  - left. exact Hle.
Defined.

#[global] Instance Qlt_dec (x y : Q) : Decision (x < y)%Q.
Proof.
  destruct (Qlt_le_dec x y) as [Hlt | Hle].
  - left. exact Hlt.
  - right. apply Qle_not_lt, Hle.
Defined.

(** The order [np.argsort] sorts the positions of [keys] by.  A position
    beyond the array compares as [0]; [np_argsort] never asks for one. *)
Definition key_at (keys : list Q) (i : nat) : Q := nth i keys 0%Q.
Definition key_le (keys : list Q) : relation nat :=
  λ i j, (key_at keys i <= key_at keys j)%Q.

#[global] Instance key_le_dec keys i j : Decision (key_le keys i j).
Proof. unfold key_le. apply _. Defined.

#[global] Instance key_le_total keys : Total (key_le keys).
Proof.
  intros i j. unfold key_le.
  destruct (Qlt_le_dec (key_at keys j) (key_at keys i)) as [H | H].
  - right. apply Qlt_le_weak, H.
  - left. exact H.
Qed.

#[global] Instance key_le_trans keys : Transitive (key_le keys).
Proof. intros i j k. unfold key_le. apply Qle_trans. Qed.

(** [np.argsort(keys)]: the positions of [keys] in ascending order of their
    value.  numpy leaves the order of equal keys to the sorting algorithm;
    the model sorts with a merge sort. *)
Definition np_argsort (keys : list Q) : list nat :=
  merge_sort (key_le keys) (seq 0 (length keys)).

(** [np.flip] on a one-dimensional array. *)
Definition np_flip {A} (l : list A) : list A := reverse l.

(** [a[p]] for an integer array [p]: [None] stands for numpy's IndexError. *)
Definition fancy_index {A} (a : list A) (p : list nat) : option (list A) :=
  mapM (λ i, a !! i) p.

(** [m[:, p]] *)
Definition take_columns {A} (m : matrix A) (p : list nat) : option (matrix A) :=
  mapM (λ r : list A, fancy_index r p) m.

(** [a[:k]] for a Python integer [k]: a negative [k] counts from the end. *)
Definition slice_to {A} (a : list A) (k : Z) : list A :=
  if (0 <=? k)%Z then firstn (Z.to_nat k) a
  else firstn (length a - Z.to_nat (- k)) a.

(** [D.real] *)
Definition real (D : list complex) : list Q := re <$> D.

Definition Qsum (xs : list Q) : Q := foldr Qplus 0%Q xs.

(** ** Orderings of a spectrum *)

Inductive Which := LR | LM.

#[global] Instance Which_eq_dec : EqDecision Which.
Proof. solve_decision. Defined.

Definition descending (xs : list Q) : Prop :=
  StronglySorted (λ x y, (y <= x)%Q) xs.

(** Descending by real part for [LR], by magnitude for [LM] (magnitudes are
    compared through their squares). *)
Definition sorted_under (which : Which) (D : list complex) : Prop :=
  match which with
  | LR => descending (re <$> D)
  | LM => descending (cabs2 <$> D)
  end.

#[global] Instance descending_dec xs : Decision (descending xs).
Proof.
  unfold descending. induction xs as [| x xs IH].
  - left. constructor.
  - destruct IH as [IH | IH].
    + destruct (decide (Forall (λ y, (y <= x)%Q) xs)) as [H | H].
      * left. constructor; assumption.
      * right. intros Hs. apply H. inversion Hs; assumption.
    + right. intros Hs. apply IH. inversion Hs; assumption.
Defined.

(** ** Exceptions, state and the monad *)

Inductive exn :=
  | ValueError (msg : string)
  | IndexError
  | TypeError
  | NumericalError (msg : string).

Inductive res (A : Type) :=
  | Ok (a : A)
  | Raise (e : exn).
Arguments Ok {A} a.
Arguments Raise {A} e.

(** The dictionary [params] stored with a decomposition. *)
Record Params := { p_which : Which; p_k : Z; p_alpha : Q }.

(** The mapping written by [_write_eig_to_adata].  The keys ["D"],
    ["eigengap"] and ["params"] are always there; ["stationary_dist"],
    ["V_l"] and ["V_r"] are there or not. *)
Record eig_dict := {
  eig_D : list complex;
  eig_stationary_dist : option (list Q);
  eig_V_l : option (matrix complex);
  eig_V_r : option (matrix complex);
  eig_eigengap : nat;
  eig_params : Params;
}.

Record TransitionMatrix := {
  is_sparse : bool;
  entries : matrix Q;
}.

Inductive Direction := FORWARD | BACKWARD.
Inductive Method := krylov | brandts.

(** The categorical series made by [_make_cat]: a category per state. *)
Definition Series := list (option nat).

(** Modelled from the spec: the vendored [GPCCA] class
    ([cellrank/_vendor/msmtools]) is not among the sources.  Its object
    holds the arguments it was made with and, once a Schur decomposition was
    computed, the Schur vectors [X], the Schur matrix [R] and the
    eigenvalues of the retained subspace. *)
Record GPCCA := {
  gp_P : TransitionMatrix;
  gp_eta : option (list Q);
  gp_z : Which;
  gp_method : Method;
  gp_X : option (matrix Q);
  gp_R : option (matrix Q);
  gp_eigenvalues : option (list complex);
}.

(** The kernel an estimator holds. *)
Record KernelExpression := {
  transition_matrix : TransitionMatrix;
  backward : bool;
  kernel_repr : string;
}.

(** The estimator object [self]: its class name, its kernel and the
    attributes the three classes set.  The names of the attributes behind
    the constants [A.EIG], [A.SCHUR] and [A.SCHUR_MAT] are not among the
    sources; they are taken to be [_eig], [_schur] and [_schur_mat]. *)
Record Estimator := {
  class_name : string;
  kernel : KernelExpression;
  _eig : option eig_dict;
  _gpcca : option GPCCA;
  _schur : option (matrix Q);
  _schur_mat : option (matrix Q);
  _is_irreducible : option bool;
  _rec_classes : option Series;
  _trans_classes : option Series;
}.

(** The annotated data object [self.adata], shared with the kernel and with
    every other holder of it. *)
Record AnnData := {
  obs_names : list string;
  uns : gmap string eig_dict;
}.

Inductive level := DEBUG | INFO | WARNING.

Record World := {
  self : Estimator;
  adata : AnnData;
  logged : list (level * string);
}.

Definition M (A : Type) : Type := World → res A * World.

#[global] Instance M_ret : MRet M := λ A a w, (Ok a, w).
#[global] Instance M_bind : MBind M := λ A B f m w,
  match m w with
  | (Ok a, w') => f a w'
  | (Raise e, w') => (Raise e, w')
  end.

Definition raise {A} (e : exn) : M A := λ w, (Raise e, w).
Definition get_self : M Estimator := λ w, (Ok (self w), w).
Definition get_adata : M AnnData := λ w, (Ok (adata w), w).
(** The world after an attribute of [self] was set. *)
Definition with_self (f : Estimator → Estimator) (w : World) : World :=
  {| self := f (self w); adata := adata w; logged := logged w |}.
Definition set_self (f : Estimator → Estimator) : M unit :=
  λ w, (Ok (), with_self f w).
Definition set_adata (f : AnnData → AnnData) : M unit :=
  λ w, (Ok (), {| self := self w; adata := f (adata w); logged := logged w |}).
(** The world after a message was logged. *)
Definition log_to (l : level) (msg : string) (w : World) : World :=
  {| self := self w; adata := adata w; logged := logged w ++ [(l, msg)] |}.
Definition logg (l : level) (msg : string) : M unit :=
  λ w, (Ok (), log_to l msg w).

(** [try: body except ValueError: handler] *)
Definition try_except_ValueError {A} (body handler : M A) : M A := λ w,
  match body w with
  | (Raise (ValueError _), w') => handler w'
  | r => r
  end.

(** A result of a solver, or of an indexing, passed on to the caller. *)
Definition lift_res {A} (r : res A) : M A := λ w, (r, w).
Definition lift_index {A} (o : option A) : M A :=
  match o with Some a => mret a | None => raise IndexError end.

(** ** [KernelHolder] *)

(** [KernelHolder._direction]: a method of the class. *)
Definition _direction (s : Estimator) : Direction :=
  if backward (kernel s) then BACKWARD else FORWARD.

Definition issparse (s : Estimator) : bool :=
  is_sparse (transition_matrix (kernel s)).

(** [KernelHolder.__len__] *)
Definition len (s : Estimator) : nat :=
  shape0 (entries (transition_matrix (kernel s))).

(** [KernelHolder.__repr__] *)
Definition repr (s : Estimator) : string :=
  class_name s +:+ "[n=" +:+ pretty (len s) +:+ ", kernel="
    +:+ kernel_repr (kernel s) +:+ "]".

(** The values an f-string of the embedded code interpolates. *)
Inductive pyvalue :=
  | PyStr (s : string)
  | PyInt (z : Z)
  | PyBoundMethod (qualname : string) (receiver : Estimator).

(** [format(v, "")], as an f-string field [{v}] is rendered.  A bound
    method has no [__format__] or [__str__] of its own and is rendered by
    its [repr], which names the method and shows the [repr] of the object
    it is bound to. *)
Definition format (v : pyvalue) : string :=
  match v with
  | PyStr s => s
  | PyInt z => pretty z
  | PyBoundMethod q s => "<bound method " +:+ q +:+ " of " +:+ repr s +:+ ">"
  end.

(** ** [EigWritable] *)

Definition set_eig (e : eig_dict) (s : Estimator) : Estimator :=
  {| class_name := class_name s; kernel := kernel s; _eig := Some e;
     _gpcca := _gpcca s; _schur := _schur s; _schur_mat := _schur_mat s;
     _is_irreducible := _is_irreducible s; _rec_classes := _rec_classes s;
     _trans_classes := _trans_classes s |}.

Definition set_uns (key : string) (e : eig_dict) (a : AnnData) : AnnData :=
  {| obs_names := obs_names a; uns := <[key := e]> (uns a) |}.

(** The key [f"eig_{self._direction}"].  The source names the method
    without calling it, so the field interpolates the bound method. *)
Definition eig_key (s : Estimator) : string :=
  "eig_" +:+ format (PyBoundMethod "KernelHolder._direction" s).

(** The debug message of [_write_eig_to_adata].  The value of the constant
    [P.EIG] is not among the sources; the message keeps its name. *)
Definition msg_adding (s : Estimator) : string :=
  "Adding `.{P.EIG}`       `adata.uns['" +:+ eig_key s +:+ "']`".

Definition _write_eig_to_adata (eig : eig_dict) : M unit :=
  set_self (set_eig eig);;
  s ← get_self;
  set_adata (set_uns (eig_key s) eig);;
  s ← get_self;
  logg DEBUG (msg_adding s).

(** The world [_write_eig_to_adata] leaves. *)
Definition after_write (eig : eig_dict) (w : World) : World :=
  {| self := set_eig eig (self w);
     adata := set_uns (eig_key (self w)) eig (adata w);
     logged := logged w ++ [(DEBUG, msg_adding (self w))] |}.

(** ** [Eigen] *)

Definition mk_params (which : Which) (k : Z) (alpha : Q) : Params :=
  {| p_which := which; p_k := k; p_alpha := alpha |}.

(** [pi = np.abs(v.real); pi /= np.sum(pi)].  Where the sum is zero numpy
    fills the array with nan; the rationals give zeros there, and nothing is
    proved about that case. *)
Definition normalized_abs (v : list complex) : list Q :=
  let pi := Qabs <$> real v in
  (λ x, (x / Qsum pi)%Q) <$> pi.

(** What a solver returns: the eigenvalues and the matrix whose columns are
    the eigenvectors. *)
Definition eigensystem : Type := list complex * matrix complex.

Definition msg_computing : string :=
  "Computing eigendecomposition of the transition matrix".
Definition msg_top (k : Z) : string :=
  "Computing top `" +:+ format (PyInt k) +:+ "` eigenvalues for sparse matrix".
Definition msg_not_sparse : string :=
  "This transition matrix is not sparse, computing full eigendecomposition".
Definition msg_sorting : string := "Sorting eigenvalues by their real part".

Module Eigen.
Section WithSolvers.
(** [cellrank.tools._utils._eigengap], which is not among the sources. *)
Variable _eigengap : ndarray → Q → nat.
(** [scipy.sparse.linalg.eigs(A, k=k, which=which, ncv=ncv)] *)
Variable eigs : matrix Q → Z → Which → option Z → res eigensystem.
(** [np.linalg.eig(A)] *)
Variable np_linalg_eig : matrix Q → res eigensystem.

(** The local function [get_top_k_evals] of [Eigen._compute]. *)
Definition get_top_k_evals (D : list complex) (k : Z) : M (list complex) :=
  sorted ← lift_index (fancy_index D (np_flip (np_argsort (real D))));
  mret (slice_to sorted k).

(** The dictionary written on the [only_evals] paths. *)
Definition evals_dict (D : list complex) (e_gap : nat) (p : Params) : eig_dict :=
  {| eig_D := D; eig_stationary_dist := None; eig_V_l := None;
     eig_V_r := None; eig_eigengap := e_gap; eig_params := p |}.

(** The end of [Eigen._compute], from the comment "Sort the eigenvalues
    and eigenvectors and take the real part" on. *)
Definition sort_and_write (D : list complex) (V_l V_r : matrix complex)
    (which : Which) (k : Z) (alpha : Q) : M unit :=
  logg DEBUG msg_sorting;;
  let p := np_flip (np_argsort (real D)) in
  D ← lift_index (fancy_index D p);
  V_l ← lift_index (take_columns V_l p);
  V_r ← lift_index (take_columns V_r p);
  let e_gap := _eigengap (FloatArray (real D)) alpha in
  v ← lift_index (column 0 V_l);
  let pi := normalized_abs v in
  _write_eig_to_adata
    {| eig_D := D; eig_stationary_dist := Some pi; eig_V_l := Some V_l;
       eig_V_r := Some V_r; eig_eigengap := e_gap;
       eig_params := mk_params which k alpha |}.

(** [Eigen._compute(k, which, alpha, only_evals, ncv)] *)
Definition _compute (k : Z) (which : Which) (alpha : Q)
    (only_evals : bool) (ncv : option Z) : M unit :=
  logg INFO msg_computing;;
  s ← get_self;
  let T := entries (transition_matrix (kernel s)) in
  if issparse s then
    logg DEBUG (msg_top k);;
    '(D, V_l) ← lift_res (eigs (transpose T) k which ncv);
    if only_evals then
      top ← get_top_k_evals D k;
      top' ← get_top_k_evals D k;
      _write_eig_to_adata
        (evals_dict top (_eigengap (FloatArray (real top')) alpha)
           (mk_params which k alpha))
    else
      '(_, V_r) ← lift_res (eigs T k which ncv);
      sort_and_write D V_l V_r which k alpha
  else
    logg WARNING msg_not_sparse;;
    '(D, V_l) ← lift_res (np_linalg_eig (transpose T));
    if only_evals then
      top ← get_top_k_evals D k;
      _write_eig_to_adata
        (evals_dict top (_eigengap (FloatArray (real D)) alpha)
           (mk_params which k alpha))
    else
      '(_, V_r) ← lift_res (np_linalg_eig T);
      sort_and_write D V_l V_r which k alpha.

(** The solver [Eigen._compute] calls on the matrix [A], by the kind of
    the transition matrix. *)
Definition solve (s : Estimator) (A : matrix Q) (k : Z) (which : Which)
    (ncv : option Z) : res eigensystem :=
  if issparse s then eigs A k which ncv else np_linalg_eig A.

(** The world after the messages [Eigen._compute] starts with. *)
Definition started (k : Z) (w : World) : World :=
  if issparse (self w) then log_to DEBUG (msg_top k) (log_to INFO msg_computing w)
  else log_to WARNING msg_not_sparse (log_to INFO msg_computing w).
End WithSolvers.
End Eigen.
Import Eigen.

Definition the_matrix (w : World) : matrix Q :=
  entries (transition_matrix (kernel (self w))).

(** ** [Schur] *)

(** The sorted real Schur form the solver of the vendored GPCCA computes:
    Schur vectors, quasi-upper-triangular Schur matrix and eigenvalues, in
    the order of the chosen criterion. *)
Record schur_form := {
  sf_X : matrix Q;
  sf_R : matrix Q;
  sf_eigenvalues : list complex;
}.

Definition entry (R : matrix Q) (i j : nat) : Q :=
  default 0%Q (R !! i ≫= λ r : list Q, r !! j).

(** Cutting [R] after its first [m] rows and columns splits a block of two
    complex conjugate eigenvalues when the entry below the diagonal that
    joins positions [m - 1] and [m] is not zero. *)
Definition splits (R : matrix Q) (m : nat) : bool :=
  match m with
  | O => false
  | S m' => bool_decide (m < shape0 R)%nat && negb (Qeq_bool (entry R m m') 0)
  end.

(** [R[:m, :m]] *)
Definition leading (m : nat) (R : matrix Q) : matrix Q :=
  firstn m (firstn m <$> R).

Definition set_gpcca (g : GPCCA) (s : Estimator) : Estimator :=
  {| class_name := class_name s; kernel := kernel s; _eig := _eig s;
     _gpcca := Some g; _schur := _schur s; _schur_mat := _schur_mat s;
     _is_irreducible := _is_irreducible s; _rec_classes := _rec_classes s;
     _trans_classes := _trans_classes s |}.

Definition set_schur (X R : option (matrix Q)) (s : Estimator) : Estimator :=
  {| class_name := class_name s; kernel := kernel s; _eig := _eig s;
     _gpcca := _gpcca s; _schur := X; _schur_mat := R;
     _is_irreducible := _is_irreducible s; _rec_classes := _rec_classes s;
     _trans_classes := _trans_classes s |}.

(** An attribute that is [None] where a value is needed. *)
Definition lift_some {A} (o : option A) : M A :=
  match o with Some a => mret a | None => raise TypeError end.

Definition msg_n_components (n_components : Z) : string :=
  "Number of components must be `>=2`, found `" +:+ format (PyInt n_components) +:+ "`.".

Definition msg_split : string :=
  "Clustering would split a block of complex conjugate eigenvalues".

Definition msg_increase (n_components : Z) : string :=
  "Using `" +:+ format (PyInt n_components)
    +:+ "` components would split a block of complex conjugates. "
    +:+ "Increasing `n_components` to `" +:+ format (PyInt (n_components + 1)) +:+ "`".

Module Schur.
Section WithSolver.
(** [cellrank.tools._utils._eigengap], which is not among the sources. *)
Variable _eigengap : ndarray → Q → nat.
(** The sorted Schur solver behind the vendored GPCCA: the matrix, the
    initial distribution, the criterion and the method give the sorted
    real Schur form, or the solver does not converge. *)
Variable sorted_schur :
  matrix Q → option (list Q) → Which → Method → string + schur_form.

(** Modelled from the spec: the constructor [_GPCCA(P, eta=, z=, method=)]
    of the vendored class, which computes nothing yet. *)
Definition new_GPCCA (P : TransitionMatrix) (eta : option (list Q))
    (z : Which) (method : Method) : GPCCA :=
  {| gp_P := P; gp_eta := eta; gp_z := z; gp_method := method;
     gp_X := None; gp_R := None; gp_eigenvalues := None |}.

(** Modelled from the spec: [GPCCA._do_schur_helper(m)] of the vendored
    class.  It takes the top [m] components of the sorted Schur form:
    the first [m] Schur vectors, the leading [m] by [m] block of [R] and
    the first [m] eigenvalues.  A cut that would split a block of complex
    conjugate eigenvalues is refused with a ValueError; a solver that does
    not converge is a numerical error. *)
Definition do_schur_helper (g : GPCCA) (m : Z) : res GPCCA :=
  match sorted_schur (entries (gp_P g)) (gp_eta g) (gp_z g) (gp_method g) with
  | inl msg => Raise (NumericalError msg)
  | inr sf =>
      let m := Z.to_nat m in
      if splits (sf_R sf) m then
        Raise (ValueError msg_split)
      else
        Ok {| gp_P := gp_P g; gp_eta := gp_eta g; gp_z := gp_z g;
              gp_method := gp_method g;
              gp_X := Some (firstn m <$> sf_X sf);
              gp_R := Some (leading m (sf_R sf));
              gp_eigenvalues := Some (firstn m (sf_eigenvalues sf)) |}
  end.

(** The GPCCA object [Schur._compute] makes. *)
Definition made_gpcca (w : World) (eta : option (list Q)) (which : Which)
    (method : Method) : GPCCA :=
  new_GPCCA (transition_matrix (kernel (self w))) eta which method.

(** The dictionary [Schur._compute] writes for the eigenvalues [evals]
    of the GPCCA object. *)
Definition schur_dict (evals : list complex) (which : Which) (alpha : Q) : eig_dict :=
  {| eig_D := evals; eig_stationary_dist := None; eig_V_l := None;
     eig_V_r := None;
     eig_eigengap := _eigengap (ComplexArray evals) alpha;
     eig_params := mk_params which (Z.of_nat (length evals)) alpha |}.

(** [self._gpcca._do_schur_helper(m)]: the object is updated in place. *)
Definition _do_schur_helper (m : Z) : M unit :=
  s ← get_self;
  g ← lift_some (_gpcca s);
  g' ← lift_res (do_schur_helper g m);
  set_self (set_gpcca g').

(** [Schur._compute(n_components, initial_distribution, method, which, alpha)] *)
Definition _compute (n_components : Z)
    (initial_distribution : option (list Q)) (method : Method)
    (which : Which) (alpha : Q) : M unit :=
  if (n_components <? 2)%Z then
    raise (ValueError (msg_n_components n_components))
  else
    s ← get_self;
    set_self (set_gpcca
      (new_GPCCA (transition_matrix (kernel s)) initial_distribution which method));;
    try_except_ValueError
      (_do_schur_helper n_components)
      (logg WARNING (msg_increase n_components);;
       _do_schur_helper (n_components + 1));;
    s ← get_self;
    g ← lift_some (_gpcca s);
    set_self (set_schur (gp_X g) (gp_R g));;
    evals ← lift_some (gp_eigenvalues g);
    _write_eig_to_adata (schur_dict evals which alpha).
End WithSolver.
End Schur.
Import Schur.

(** ** [Partitioner] *)

Definition set_is_irreducible (b : bool) (s : Estimator) : Estimator :=
  {| class_name := class_name s; kernel := kernel s; _eig := _eig s;
     _gpcca := _gpcca s; _schur := _schur s; _schur_mat := _schur_mat s;
     _is_irreducible := Some b; _rec_classes := _rec_classes s;
     _trans_classes := _trans_classes s |}.

Definition set_trans_classes (c : Series) (s : Estimator) : Estimator :=
  {| class_name := class_name s; kernel := kernel s; _eig := _eig s;
     _gpcca := _gpcca s; _schur := _schur s; _schur_mat := _schur_mat s;
     _is_irreducible := _is_irreducible s; _rec_classes := _rec_classes s;
     _trans_classes := Some c |}.

Definition set_rec_classes (c : Series) (s : Estimator) : Estimator :=
  {| class_name := class_name s; kernel := kernel s; _eig := _eig s;
     _gpcca := _gpcca s; _schur := _schur s; _schur_mat := _schur_mat s;
     _is_irreducible := _is_irreducible s; _rec_classes := Some c;
     _trans_classes := _trans_classes s |}.

(** The newline of the log messages. *)
Definition nl : string := String (Ascii.ascii_of_nat 10) "".

Definition msg_found (n_rec n_trans : nat) : string :=
  "Found `" +:+ format (PyInt (Z.of_nat n_rec)) +:+ "` recurrent and `"
    +:+ format (PyInt (Z.of_nat n_trans)) +:+ "` transient classes" +:+ nl
    +:+ "Adding `.recurrent_classes`" +:+ nl
    +:+ "       `.transient_classes`" +:+ nl
    +:+ "       `.irreducible`" +:+ nl
    +:+ "    Finish".

Definition msg_communication : string := "Computing communication classes".

Definition msg_irreducible : string :=
  "The transition matrix is irreducible - cannot further partition it" +:+ nl
    +:+ "    Finish".

(** The properties [is_irreducible], [recurrent_classes] and
    [transient_classes]. *)
Definition is_irreducible (s : Estimator) : option bool := _is_irreducible s.
Definition recurrent_classes (s : Estimator) : option Series := _rec_classes s.
Definition transient_classes (s : Estimator) : option Series := _trans_classes s.

Section Partitioner.
(** [cellrank.tools._utils.partition], which is not among the sources: the
    recurrent and the transient communication classes of a chain. *)
Variable partition : TransitionMatrix → list (list nat) * list (list nat).
(** [cellrank.tools._utils._make_cat], which is not among the sources. *)
Variable _make_cat : list (list nat) → nat → list string → Series.

(** [Partitioner.compute_partition()] *)
Definition compute_partition : M unit :=
  logg INFO msg_communication;;
  s ← get_self;
  let n_states := len s in
  let '(rec_classes, trans_classes) := partition (transition_matrix (kernel s)) in
  let irreducible :=
    bool_decide (length rec_classes = 1%nat)
      && bool_decide (length trans_classes = 0%nat) in
  set_self (set_is_irreducible irreducible);;
  if negb irreducible then
    a ← get_adata;
    set_self (set_trans_classes (_make_cat trans_classes n_states (obs_names a)));;
    a ← get_adata;
    set_self (set_rec_classes (_make_cat rec_classes n_states (obs_names a)));;
    logg INFO (msg_found (length rec_classes) (length trans_classes))
  else
    logg WARNING msg_irreducible.
End Partitioner.

(** ** The helpers that are not among the sources, after the specification *)

(** [np.argmax]: the first position of the largest value. *)
Fixpoint argmax_from (best : nat) (best_val : Q) (i : nat) (xs : list Q) : nat :=
  match xs with
  | [] => best
  | x :: xs' =>
      if decide (best_val < x)%Q then argmax_from i x (S i) xs'
      else argmax_from best best_val (S i) xs'
  end.

Definition argmax (xs : list Q) : nat :=
  match xs with
  | [] => 0%nat
  | x :: xs' => argmax_from 0 x 1 xs'
  end.

(** Modelled from the spec: [_eigengap(evals, alpha)] of
    [cellrank/tools/_utils.py], which is not among the sources.  With [r_i]
    the real parts of the eigenvalues it is given, the gaps are
    [g_i = r_i - r_{i+1}], the scores [g_i - alpha * i], and the eigengap is
    the position of the largest score. *)
Definition eigengap_real_parts (evals : ndarray) : list Q :=
  match evals with
  | FloatArray r => r
  | ComplexArray zs => real zs
  end.

Definition eigengap_scores (r : list Q) (alpha : Q) : list Q :=
  imap (λ i g, (g - alpha * inject_Z (Z.of_nat i))%Q)
       (zip_with Qminus r (tail r)).

Definition eigengap_spec (evals : ndarray) (alpha : Q) : nat :=
  argmax (eigengap_scores (eigengap_real_parts evals) alpha).

(** Modelled from the spec: [partition(transition_matrix)] of
    [cellrank/tools/_utils.py], which is not among the sources.  The graph
    has an edge from [i] to [j] when the entry [(i, j)] is positive; its
    strongly connected components are the communication classes; a class
    with no edge to another class is recurrent, the others are transient. *)
Definition edge (T : matrix Q) (i j : nat) : bool :=
  bool_decide (0 < entry T i j)%Q.

Fixpoint reach (fuel : nat) (T : matrix Q) (n i j : nat) : bool :=
  bool_decide (i = j) ||
  match fuel with
  | O => false
  | S fuel' => existsb (λ m, edge T i m && reach fuel' T n m j) (seq 0 n)
  end.

Definition communicates (T : matrix Q) (n i j : nat) : bool :=
  reach n T n i j && reach n T n j i.

(** A state joins the first class whose first state it communicates with,
    or opens a class of its own. *)
Fixpoint insert_class (comm : nat → nat → bool) (i : nat)
    (cs : list (list nat)) : list (list nat) :=
  match cs with
  | [] => [[i]]
  | c :: cs' =>
      if match c with r :: _ => comm r i | [] => false end
      then (c ++ [i]) :: cs'
      else c :: insert_class comm i cs'
  end.

Definition classes (comm : nat → nat → bool) (n : nat) : list (list nat) :=
  foldl (λ cs i, insert_class comm i cs) [] (seq 0 n).

Definition is_closed (T : matrix Q) (n : nat) (c : list nat) : bool :=
  forallb (λ i, forallb (λ j, negb (edge T i j) || bool_decide (j ∈ c)) (seq 0 n)) c.

Definition partition_spec (T : TransitionMatrix) : list (list nat) * list (list nat) :=
  let n := shape0 (entries T) in
  let cs := classes (communicates (entries T) n) n in
  (filter (λ c, is_closed (entries T) n c = true) cs,
   filter (λ c, is_closed (entries T) n c = false) cs).

(** A stand-in for [_make_cat] on the chains of the examples: the category
    of each state is the position of the class it is in.  The names of the
    states index the series and carry no category. *)
Definition make_cat_model (cs : list (list nat)) (n_states : nat)
    (names : list string) : Series :=
  (λ i, fst <$> list_find (λ c : list nat, i ∈ c) cs) <$> seq 0 n_states.

(** A partition of the states [0 .. n-1] into classes: no class is empty and
    every state is in exactly one class. *)
Definition valid_partition (n : nat) (cs : list (list nat)) : Prop :=
  Forall (λ c, c ≠ []) cs ∧ concat cs ≡ₚ seq 0 n.

Definition row_stochastic (T : matrix Q) : Prop :=
  Forall (λ r, length r = length T ∧ Forall (λ x, (0 <= x)%Q) r ∧ (Qsum r == 1)%Q) T.

Definition fully_connected (T : matrix Q) : Prop :=
  Forall (λ r, length r = length T ∧ Forall (λ x, (0 < x)%Q) r) T.

(** ** Checks on what a solver returns, and the chains of the examples *)

#[global] Instance Q_eq_dec : EqDecision Q.
Proof. solve_decision. Defined.

Definition cadd (a b : complex) : complex :=
  Cx (re a + re b) (im a + im b).
Definition cmul (a b : complex) : complex :=
  Cx (re a * re b - im a * im b) (re a * im b + im a * re b).
Definition of_real (x : Q) : complex := Cx x 0.
Definition ceqb (a b : complex) : bool :=
  Qeq_bool (re a) (re b) && Qeq_bool (im a) (im b).

Definition mat_vec (A : matrix Q) (v : list complex) : list complex :=
  (λ r : list Q, foldr cadd (of_real 0) (zip_with (λ a z, cmul (of_real a) z) r v)) <$> A.

Definition vec_eqb (u v : list complex) : bool :=
  bool_decide (length u = length v) && forallb (λ p, ceqb p.1 p.2) (zip u v).

(** [A v = lam v] for a vector [v] that is not zero. *)
Definition is_eigenpair (A : matrix Q) (lam : complex) (v : list complex) : bool :=
  vec_eqb (mat_vec A v) (cmul lam <$> v)
    && negb (forallb (λ z, ceqb z (of_real 0)) v).

(** Every column of [V] is an eigenvector of [A] for the eigenvalue of [D]
    at its position. *)
Definition is_eigensystem (A : matrix Q) (es : eigensystem) : bool :=
  let '(D, V) := es in
  forallb (λ r : list complex, bool_decide (length r = length D)) V
    && bool_decide (length V = length A)
    && forallb (λ j, match D !! j, column j V with
                     | Some lam, Some v => is_eigenpair A lam v
                     | _, _ => false
                     end) (seq 0 (length D)).

Definition row_stochasticb (T : matrix Q) : bool :=
  forallb (λ r : list Q, bool_decide (length r = length T)
             && forallb (λ x, bool_decide (0 <= x)%Q) r
             && Qeq_bool (Qsum r) 1) T.

(** [np.isclose(z, 1, rtol=1e2 * EPS, atol=1e2 * EPS)], the test for an
    eigenvalue at one of [plot_eigendecomposition]: the distance from one is
    at most [atol + rtol * 1]. *)
Definition isclose_one (z : complex) : bool :=
  let tol := (200 * EPS)%Q in
  bool_decide (cabs2 (cadd z (of_real (-1))) <= tol * tol)%Q.

Definition reals : list Q → list complex := fmap of_real.

(** A chain with two states that swap with probability 19/20 and a third
    state that feeds them: its eigenvalues are 1, -9/10 and 1/2. *)
Definition T_swap : matrix Q :=
  [[1#20; 19#20; 0]; [19#20; 1#20; 0]; [1#4; 1#4; 1#2]]%Q.
Definition T_swap_left : eigensystem :=
  (reals [1; -9#10; 1#2],
   reals <$> [[1; 1; 1]; [1; -1; 1]; [0; 0; -2]])%Q.
Definition T_swap_right : eigensystem :=
  (reals [1; -9#10; 1#2],
   reals <$> [[1; 1; 0]; [1; -1; 0]; [1; 0; 1]])%Q.

(** The spectrum of [T_swap] in descending order of magnitude, and in the
    order [Eigen._compute] stores it. *)
Definition swap_by_magnitude : list complex := reals [1; -9#10; 1#2]%Q.
Definition swap_by_real_part : list complex := reals [1; 1#2; -9#10]%Q.

(** A chain whose matrix is triangular: its eigenvalues 1, 9/10 and 1/10
    are on the diagonal. *)
Definition T_tri : matrix Q :=
  [[1; 0; 0]; [1#10; 9#10; 0]; [2#5; 1#2; 1#10]]%Q.
Definition T_tri_left : eigensystem :=
  (reals [1; 9#10; 1#10],
   reals <$> [[1; 1; -3]; [0; -1; -5]; [0; 0; 8]])%Q.
Definition T_tri_right : eigensystem :=
  (reals [1; 9#10; 1#10],
   reals <$> [[1; 0; 0]; [1; 8; 0]; [1; 5; 1]])%Q.

(** The cycle on four states: its eigenvalues are 1, i, -1 and -i, all of
    magnitude one. *)
Definition T_cycle : matrix Q :=
  [[0; 1; 0; 0]; [0; 0; 1; 0]; [0; 0; 0; 1]; [1; 0; 0; 0]]%Q.
Definition ci : complex := Cx 0 1.
Definition cmi : complex := Cx 0 (-1).
Definition T_cycle_left_pair : eigensystem :=
  ([ci; cmi],
   [[of_real 1; of_real 1]; [cmi; ci]; [of_real (-1); of_real (-1)]; [ci; cmi]]).
Definition T_cycle_right_pair : eigensystem :=
  ([ci; cmi],
   [[of_real 1; of_real 1]; [ci; cmi]; [of_real (-1); of_real (-1)]; [cmi; ci]]).

(** A symmetric chain on four states with the eigenvalues 1, 9/10, 1/10
    and 0, whose eigenvectors are orthogonal with entries 1 and -1; its two
    largest eigenvalues are those of [T_tri]. *)
Definition T_gap : matrix Q :=
  [[1#2; 9#20; 0; 1#20]; [9#20; 1#2; 1#20; 0];
   [0; 1#20; 1#2; 9#20]; [1#20; 0; 9#20; 1#2]]%Q.
Definition T_gap_top2 : eigensystem :=
  (reals [1; 9#10],
   reals <$> [[1; 1]; [1; 1]; [1; -1]; [1; -1]])%Q.

(** A chain in which every state reaches every state in one step. *)
Definition T_full : matrix Q := [[1#2; 1#2]; [1#2; 1#2]]%Q.

(** A dense solver that knows the chains above. *)
Definition table_eig (A : matrix Q) : res eigensystem :=
  if decide (A = transpose T_swap) then Ok T_swap_left
  else if decide (A = T_swap) then Ok T_swap_right
  else if decide (A = transpose T_tri) then Ok T_tri_left
  else if decide (A = T_tri) then Ok T_tri_right
  else Raise (NumericalError "Eigenvalues did not converge").

(** A sparse solver that knows the two chains on four states.  As
    [scipy.sparse.linalg.eigs] does, it refuses with a TypeError to compute
    [N - 1] or more eigenvalues of a matrix with [N] rows.  Of the four
    eigenvalues of magnitude one of the cycle it returns the pair [i], [-i]
    when asked for two by magnitude; of the symmetric chain, which is its
    own transpose, it returns the two largest eigenvalues. *)
Definition table_eigs (A : matrix Q) (k : Z) (which : Which) (ncv : option Z)
    : res eigensystem :=
  if decide (Z.of_nat (length A) - 1 ≤ k)%Z then Raise TypeError
  else if decide (A = transpose T_cycle ∧ k = 2%Z ∧ which = LM) then Ok T_cycle_left_pair
  else if decide (A = T_cycle ∧ k = 2%Z ∧ which = LM) then Ok T_cycle_right_pair
  else if decide (A = T_gap ∧ k = 2%Z) then Ok T_gap_top2
  else Raise (NumericalError "ARPACK error -1: No convergence").

(** The sorted real Schur form of the cycle, [T_cycle X = X R] with the
    columns of [X] orthonormal: the eigenvalue 1, the block of the pair
    [i], [-i] and the eigenvalue -1. *)
Definition cycle_schur_form : schur_form :=
  {| sf_X := [[1#2; 1#2; 1#2; 1#2]; [1#2; 1#2; -1#2; -1#2];
              [1#2; -1#2; -1#2; 1#2]; [1#2; -1#2; 1#2; -1#2]]%Q;
     sf_R := [[1; 0; 0; 0]; [0; 0; -1; 0]; [0; 1; 0; 0]; [0; 0; 0; -1]]%Q;
     sf_eigenvalues := [of_real 1; ci; cmi; of_real (-1)] |}.

(** The sorted Schur form of the symmetric chain: [R] is diagonal. *)
Definition gap_schur_form : schur_form :=
  {| sf_X := [[1#2; 1#2; 1#2; 1#2]; [1#2; 1#2; -1#2; -1#2];
              [1#2; -1#2; -1#2; 1#2]; [1#2; -1#2; 1#2; -1#2]]%Q;
     sf_R := [[1; 0; 0; 0]; [0; 9#10; 0; 0]; [0; 0; 1#10; 0]; [0; 0; 0; 0]]%Q;
     sf_eigenvalues := reals [1; 9#10; 1#10; 0]%Q |}.

Definition table_schur (A : matrix Q) (eta : option (list Q)) (z : Which)
    (method : Method) : string + schur_form :=
  if decide (A = T_cycle) then inr cycle_schur_form
  else if decide (A = T_gap) then inr gap_schur_form
  else inl "The Schur solver did not converge".

(** A kernel over a matrix and a newly made estimator over it. *)
Definition kernel_of (sparse : bool) (T : matrix Q) : KernelExpression :=
  {| transition_matrix := {| is_sparse := sparse; entries := T |};
     backward := false; kernel_repr := "<Precomputed>" |}.

Definition new_estimator (cls : string) (k : KernelExpression) : Estimator :=
  {| class_name := cls; kernel := k; _eig := None; _gpcca := None;
     _schur := None; _schur_mat := None; _is_irreducible := None;
     _rec_classes := None; _trans_classes := None |}.

Definition new_world (cls : string) (k : KernelExpression) : World :=
  {| self := new_estimator cls k;
     adata := {| obs_names := []; uns := ∅ |};
     logged := [] |}.

(** ** The shape of a sorted real Schur form *)

(** The entry below the diagonal that joins positions [i] and [i + 1]. *)
Definition subdiag (R : matrix Q) (i : nat) : Q := entry R (S i) i.

(** [R] is quasi-upper-triangular: zero below the first subdiagonal, and
    the blocks of two on its diagonal do not overlap. *)
Definition quasi_upper_triangular (R : matrix Q) : bool :=
  let n := shape0 R in
  forallb (λ i, forallb (λ j, bool_decide (i ≤ S j)%nat || Qeq_bool (entry R i j) 0)
                        (seq 0 n)) (seq 0 n)
  && forallb (λ i, Qeq_bool (subdiag R i) 0 || Qeq_bool (subdiag R (S i)) 0) (seq 0 n).

(** The eigenvalues [E] are those of the diagonal blocks of [R].  At a
    position that opens no block of two, the eigenvalue is the diagonal
    entry.  A block of two at [i] and [i + 1] has a pair of complex
    conjugates, whose sum is the trace of the block and whose squared
    magnitude is its determinant. *)
Definition block_of_one (R : matrix Q) (E : list complex) (i : nat) : bool :=
  match E !! i with
  | Some z => Qeq_bool (re z) (entry R i i) && Qeq_bool (im z) 0
  | None => false
  end.

Definition block_of_two (R : matrix Q) (E : list complex) (i : nat) : bool :=
  match E !! i, E !! S i with
  | Some z, Some z' =>
      Qeq_bool (re z') (re z) && Qeq_bool (im z') (- im z)
      && Qeq_bool (2 * re z) (entry R i i + entry R (S i) (S i))
      && Qeq_bool (cabs2 z)
           (entry R i i * entry R (S i) (S i) - entry R i (S i) * entry R (S i) i)
  | _, _ => false
  end.

Definition block_at (R : matrix Q) (E : list complex) (i : nat) : bool :=
  if Qeq_bool (subdiag R i) 0 then
    match i with
    | O => block_of_one R E i
    | S i' => if Qeq_bool (subdiag R i') 0 then block_of_one R E i else true
    end
  else block_of_two R E i.

Definition eigenvalues_of_blocks (R : matrix Q) (E : list complex) : bool :=
  bool_decide (length E = shape0 R) && forallb (block_at R E) (seq 0 (shape0 R)).

(** The three parts of a Schur form over [n] states have matching sizes. *)
Definition schur_form_shape (n : nat) (sf : schur_form) : bool :=
  bool_decide (length (sf_X sf) = n)
  && forallb (λ r : list Q, bool_decide (length r = n)) (sf_X sf)
  && bool_decide (length (sf_R sf) = n)
  && forallb (λ r : list Q, bool_decide (length r = n)) (sf_R sf)
  && bool_decide (length (sf_eigenvalues sf) = n).

Definition mat_mul (A B : matrix Q) : matrix Q :=
  (λ r : list Q, (λ c : list Q, Qsum (zip_with Qmult r c)) <$> transpose B) <$> A.

Definition mat_eqb (A B : matrix Q) : bool :=
  bool_decide (length A = length B)
  && forallb (λ p : list Q * list Q,
       bool_decide (length p.1 = length p.2)
       && forallb (λ q : Q * Q, Qeq_bool q.1 q.2) (zip p.1 p.2)) (zip A B).

Definition identity (n : nat) : matrix Q :=
  (λ i, (λ j, if decide (i = j) then 1%Q else 0%Q) <$> seq 0 n) <$> seq 0 n.

(** [A X = X R] with the columns of [X] orthonormal. *)
Definition is_schur_form (A : matrix Q) (sf : schur_form) : bool :=
  mat_eqb (mat_mul A (sf_X sf)) (mat_mul (sf_X sf) (sf_R sf))
  && mat_eqb (mat_mul (transpose (sf_X sf)) (sf_X sf)) (identity (length A)).

(** The number of components a GPCCA object retains. *)
Definition retained (g : GPCCA) : option nat := length <$> gp_eigenvalues g.

(** ** The utility functions of the kernels

    [cellrank/tools/kernels/_utils.py] *)

(** The plotting methods and the utility functions raise, besides the
    exceptions above, a RuntimeError where something was not computed yet
    and an AssertionError where an [assert] fails.  The texts of these
    interpolate constants that are not among the sources; they are left
    out. *)
Inductive error :=
  | RuntimeError
  | AssertionError
  | Builtin (e : exn).

Inductive outcome (A : Type) :=
  | Returns (a : A)
  | Fails (e : error).
Arguments Returns {A} a.
Arguments Fails {A} e.

(** [np.cumsum] on a one-dimensional array of integers.  The entries of
    the arrays of integers are modelled without the bound of their dtype. *)
Fixpoint cumsum_from (acc : Z) (xs : list Z) : list Z :=
  match xs with
  | [] => []
  | x :: xs' => (acc + x)%Z :: cumsum_from (acc + x) xs'
  end.

Definition np_cumsum (xs : list Z) : list Z := cumsum_from 0 xs.

(** [_calculate_starts(indptr, ixs)] for an array [ixs] of row numbers.
    Where a row number is beyond [indptr] numpy raises an IndexError; the
    function compiled by numba reads unchecked there, and nothing is proved
    about that case. *)
Definition _calculate_starts (indptr : list Z) (ixs : list nat) : outcome (list Z) :=
  match fancy_index indptr (S <$> ixs), fancy_index indptr ixs with
  | Some hi, Some lo =>
      let starts := np_cumsum (zip_with Z.sub hi lo) in
      Returns (0%Z :: starts)
  | _, _ => Fails (Builtin IndexError)
  end.

(** [np.ones(size)], [np.zeros(size)]: an array of [size] copies. *)
Definition np_full (size : Z) (x : Q) : res (list Q) :=
  if (size <? 0)%Z then Raise (ValueError "negative dimensions are not allowed")
  else Ok (replicate (Z.to_nat size) x).

(** [_get_probs_for_zero_vec(size)] *)
Definition _get_probs_for_zero_vec (size : Z) : res (list Q * list Q) :=
  match np_full size 1%Q, np_full size 0%Q with
  | Ok ones, Ok zeros => Ok ((λ x, (x / inject_Z size)%Q) <$> ones, zeros)
  | Raise e, _ | _, Raise e => Raise e
  end.

(** [_filter_kwargs(fn, **kwargs)]: [sig] are the names of the parameters
    of [fn], the dictionary [kwargs] is the list of its items in the order
    they were given. *)
Definition _filter_kwargs {V} (sig : list string) (kwargs : list (string * V))
    : list (string * V) :=
  filter (λ kv, kv.1 ∈ sig) kwargs.

(** A [scipy.sparse.csr_matrix]: the stored values, the column of each of
    them, the index pointer that cuts both into rows, and the number of
    columns. *)
Record csr_matrix := {
  csr_data : list Q;
  csr_indices : list nat;
  csr_indptr : list nat;
  csr_ncols : nat;
}.

(** [mat.shape[0]] and [mat.nnz], the last entry of the index pointer. *)
Definition csr_shape0 (m : csr_matrix) : nat := length (csr_indptr m) - 1.
Definition csr_nnz (m : csr_matrix) : nat := default 0%nat (last (csr_indptr m)).

(** The number of stored entries of each row, and the rows that the index
    pointer cuts an array into. *)
Definition row_nnz (indptr : list nat) : list nat :=
  zip_with (λ s e, e - s)%nat indptr (tail indptr).
Definition csr_rows {A} (indptr : list nat) (xs : list A) : list (list A) :=
  zip_with (λ s e, take (e - s) (drop s xs)) indptr (tail indptr).

(** The running sums of the lengths of rows. *)
Fixpoint offsets_from (acc : nat) (lens : list nat) : list nat :=
  match lens with
  | [] => []
  | n :: lens' => (acc + n)%nat :: offsets_from (acc + n) lens'
  end.

(** A matrix whose rows are laid out one after the other. *)
Definition laid_out (ri : list (list nat)) (d : list Q) (ncols : nat) : csr_matrix :=
  {| csr_data := d; csr_indices := concat ri;
     csr_indptr := 0%nat :: offsets_from 0 (length <$> ri); csr_ncols := ncols |}.

(** [mat[ixs]] for an array [ixs] of row numbers: the rows of [mat] in that
    order, laid out one after the other.  [None] stands for scipy's
    IndexError. *)
Definition csr_getrows (m : csr_matrix) (ixs : list nat) : option csr_matrix :=
  lens ← fancy_index (row_nnz (csr_indptr m)) ixs;
  ri ← fancy_index (csr_rows (csr_indptr m) (csr_indices m)) ixs;
  rd ← fancy_index (csr_rows (csr_indptr m) (csr_data m)) ixs;
  Some {| csr_data := concat rd; csr_indices := concat ri;
          csr_indptr := 0%nat :: offsets_from 0 lens;
          csr_ncols := csr_ncols m |}.

(** [csr_matrix((data, indices, indptr))].  Without a shape scipy takes the
    number of columns to be one more than the largest column stored, and
    cannot infer it where nothing is stored; it checks that the index
    pointer starts at 0, that there are as many values as columns and that
    the index pointer does not run beyond them, and prunes what lies beyond
    it. *)
Definition new_csr (data : list Q) (indices indptr : list nat) : res csr_matrix :=
  match indices with
  | [] => Raise (ValueError "unable to infer matrix dimensions")
  | _ :: _ =>
      let nnz := default 0%nat (last indptr) in
      if negb (bool_decide (head indptr = Some 0%nat)) then
        Raise (ValueError "index pointer should start with 0")
      else if negb (bool_decide (length indices = length data)) then
        Raise (ValueError "indices and data should have the same size")
      else if negb (bool_decide (nnz ≤ length indices)%nat) then
        Raise (ValueError
          "Last value of index pointer should be less than the size of index and data arrays")
      else
        Ok {| csr_data := take nnz data; csr_indices := take nnz indices;
              csr_indptr := indptr;
              csr_ncols := S (max_list indices) |}
  end.

(** [np.argsort] on an array of row numbers. *)
Definition np_argsort_int (ixs : list nat) : list nat :=
  np_argsort ((λ i, inject_Z (Z.of_nat i)) <$> ixs).

(** The array [data] that [_reconstruct_matrices] takes, by its number of
    dimensions: a matrix, a stack of matrices with its shape, or an array
    of another number of dimensions. *)
Inductive data_array :=
  | Data2 (d : matrix Q)
  | Data3 (shape : nat * nat * nat) (ds : list (matrix Q))
  | DataOther.

(** What [_reconstruct_matrices] returns: the two matrices, or what
    [zip] makes of the pairs of them. *)
Inductive reconstructed :=
  | Pair (probs cors : csr_matrix)
  | Zipped (tuples : list (list csr_matrix)).

Section Reconstruct.
(** [m[None]], which the sources do not determine. *)
Variable getitem_None : csr_matrix → outcome csr_matrix.

Definition getitem (m : csr_matrix) (ixs : option (list nat)) : outcome csr_matrix :=
  match ixs with
  | None => getitem_None m
  | Some p =>
      match csr_getrows m p with
      | Some m' => Returns m'
      | None => Fails (Builtin IndexError)
      end
  end.

(** [data.shape == (2, mat.nnz)] for a two-dimensional [data] *)
Definition data_shape_ok (data : matrix Q) (mat : csr_matrix) : bool :=
  bool_decide (length data = 2%nat)
  && forallb (λ r : list Q, bool_decide (length r = csr_nnz mat)) data.

(** [_reconstruct(data, mat, ixs, aixs)] for a two-dimensional [data] *)
Definition _reconstruct (data : matrix Q) (mat : csr_matrix)
    (ixs aixs : option (list nat)) : outcome (csr_matrix * csr_matrix) :=
  if negb (data_shape_ok data mat) then Fails AssertionError
  else
    let sorted :=
      match ixs with
      | None => Returns mat
      | Some p =>
          if negb (bool_decide (length p = csr_shape0 mat)) then Fails AssertionError
          else getitem mat (Some p)
      end in
    match sorted with
    | Fails e => Fails e
    | Returns mat =>
        match new_csr (default [] (data !! 0%nat)) (csr_indices mat) (csr_indptr mat),
              new_csr (default [] (data !! 1%nat)) (csr_indices mat) (csr_indptr mat) with
        | Raise e, _ => Fails (Builtin e)
        | Ok _, Raise e => Fails (Builtin e)
        | Ok probs, Ok cors =>
            match ixs with
            | None => Returns (probs, cors)
            | Some p =>
                if negb (bool_decide (length p = csr_shape0 probs)) then
                  Fails AssertionError
                else
                  match getitem probs aixs with
                  | Fails e => Fails e
                  | Returns probs' =>
                      match getitem cors aixs with
                      | Fails e => Fails e
                      | Returns cors' => Returns (probs', cors')
                      end
                  end
            end
        end
    end.

(** The pairs a generator of outcomes yields, up to the first failure. *)
Fixpoint collect {A} (xs : list (outcome A)) : outcome (list A) :=
  match xs with
  | [] => Returns []
  | Fails e :: _ => Fails e
  | Returns a :: xs' =>
      match collect xs' with
      | Returns l => Returns (a :: l)
      | Fails e => Fails e
      end
  end.

(** [zip] over the unpacked pairs: the tuple of the first and the tuple
    of the second components, or nothing where there is no pair. *)
Definition zip_star (pairs : list (csr_matrix * csr_matrix)) : list (list csr_matrix) :=
  match pairs with
  | [] => []
  | _ => [fst <$> pairs; snd <$> pairs]
  end.

(** [_reconstruct_matrices(data, mat, ixs)] *)
Definition _reconstruct_matrices (data : data_array) (mat : csr_matrix)
    (ixs : option (list nat)) : outcome reconstructed :=
  match data with
  | DataOther => Fails AssertionError
  | Data2 d =>
      let aixs := np_argsort_int <$> ixs in
      match _reconstruct d mat ixs aixs with
      | Returns (probs, cors) => Returns (Pair probs cors)
      | Fails e => Fails e
      end
  | Data3 shape ds =>
      let aixs := np_argsort_int <$> ixs in
      if negb (bool_decide (shape.1.2 = 2%nat)) then Fails AssertionError
      else
        match collect ((λ d, _reconstruct d mat ixs aixs) <$> ds) with
        | Returns pairs => Returns (Zipped (zip_star pairs))
        | Fails e => Fails e
        end
  end.
End Reconstruct.

(** A sparse matrix in the format scipy keeps it in: the index pointer
    starts at 0, does not decrease and ends at the number of stored
    entries, each of which has a value and a column. *)
Definition csr_wf (m : csr_matrix) : Prop :=
  head (csr_indptr m) = Some 0%nat ∧
  Sorted le (csr_indptr m) ∧
  last (csr_indptr m) = Some (length (csr_indices m)) ∧
  length (csr_data m) = length (csr_indices m).

(** Matrices for the examples: three rows with five stored entries in the
    first three of four columns, and three rows with no stored entry. *)
Definition csr_example : csr_matrix :=
  {| csr_data := [1#2; 1#2; 1; 1#4; 3#4]%Q;
     csr_indices := [0; 2; 1; 0; 1]%nat;
     csr_indptr := [0; 2; 3; 5]%nat;
     csr_ncols := 4 |}.

Definition csr_no_entries : csr_matrix :=
  {| csr_data := []; csr_indices := []; csr_indptr := [0; 0; 0; 0]%nat;
     csr_ncols := 3 |}.

(** An indexing by [None] that fails. *)
Definition getitem_None_fails (m : csr_matrix) : outcome csr_matrix :=
  Fails (Builtin IndexError).

(** ** What the plotting methods check and select

    [VectorPlottable._plot_vectors] and [Plottable._plot_continuous] of
    [_property.py], and the plotting methods of [Eigen] and [Schur].  The
    drawing itself is done by matplotlib, seaborn and scvelo; what is
    embedded is what a method checks and what it hands over to them. *)

(** [np.min] and [np.max] of an array of floats. *)
Definition qmin (x y : Q) : Q := if decide (x <= y)%Q then x else y.
Definition qmax (x y : Q) : Q := if decide (x <= y)%Q then y else x.

Definition msg_zero_size (op : string) : string :=
  "zero-size array to reduction operation " +:+ op +:+ " which has no identity".

Definition np_min (xs : list Q) : res Q :=
  match xs with
  | [] => Raise (ValueError (msg_zero_size "minimum"))
  | x :: xs' => Ok (foldr qmin x xs')
  end.

Definition np_max (xs : list Q) : res Q :=
  match xs with
  | [] => Raise (ValueError (msg_zero_size "maximum"))
  | x :: xs' => Ok (foldr qmax x xs')
  end.

(** The kinds of vectors [_plot_vectors] is asked for.  The constants
    [P.EIG] and [P.SCHUR] are not among the sources; the forms [.s] and
    [.v] of each are taken to be one string. *)
Inductive vector_kind :=
  | KindEig
  | KindSchur
  | KindOther (prop : string).

(** The argument [use]: nothing, an integer, a tuple, list or range of
    items that are integers or not, or something else. *)
Inductive py_item :=
  | ItemInt (z : Z)
  | ItemOther.

Inductive use_arg :=
  | UseNone
  | UseInt (n : Z)
  | UseSeq (items : list py_item)
  | UseOther.

(** [list(range(a, b))] *)
Definition py_range (a b : Z) : list Z :=
  (λ i, (a + Z.of_nat i)%Z) <$> seq 0 (Z.to_nat (b - a)).

(** The position a Python integer indexes in an axis of [n] entries: a
    negative one counts from the end. *)
Definition np_index (n : nat) (i : Z) : option nat :=
  if decide (0 ≤ i < Z.of_nat n)%Z then Some (Z.to_nat i)
  else if decide (- Z.of_nat n ≤ i < 0)%Z then Some (Z.to_nat (i + Z.of_nat n))
  else None.

(** [vectors[:, use]].  A matrix without rows has no columns in the
    model. *)
Definition index_columns {A} (V : matrix A) (use : list Z) : option (matrix A) :=
  cols ← mapM (np_index (shape1 V)) use;
  take_columns V cols.

Definition items_ints (items : list py_item) : option (list Z) :=
  mapM (λ u, match u with ItemInt z => Some z | ItemOther => None end) items.

Definition msg_invalid_kind (prop : string) : string :=
  "Invalid kind `'" +:+ prop +:+ "'`. Valid options are `{P.EIG!r}`, `{P.SCHUR!r}``.".

Definition msg_n_cells (n_obs n_rows : nat) : string :=
  "Number of cells (" +:+ pretty n_obs
    +:+ ") is inconsistent with the 1.dimensions of vectors ("
    +:+ pretty n_rows +:+ ").".

Definition msg_nothing : string := "Nothing to plot.".

Definition msg_maximum (vec : string) (muse : Z) (n_cols : nat) : string :=
  "Maximum specified " +:+ vec +:+ "vector (" +:+ pretty muse
    +:+ ") is larger than the number of computed " +:+ vec +:+ "vectors ("
    +:+ pretty n_cols +:+ ").".

(** [_plot_vectors(vectors, prop, use)] up to [V_ = vectors[:, use]]: the
    checks of the arguments, and the positions and the vectors that are
    selected for plotting. *)
Definition _plot_vectors {A} (a : AnnData) (vectors : option (matrix A))
    (prop : vector_kind) (use : use_arg) : outcome (list Z * matrix A) :=
  match prop, vectors with
  | KindOther p, _ => Fails (Builtin (ValueError (msg_invalid_kind p)))
  | _, None => Fails RuntimeError
  | _, Some V =>
      let is_schur := match prop with KindSchur => true | _ => false end in
      let vec := if is_schur then "Schur " else "eigen" in
      let s := if is_schur then 1%Z else 0%Z in
      if negb (bool_decide (length (obs_names a) = shape0 V)) then
        Fails (Builtin (ValueError (msg_n_cells (length (obs_names a)) (shape0 V))))
      else
        let resolved :=
          match use with
          | UseNone => Some (py_range s (Z.of_nat (shape1 V) + s - 1))
          | UseInt n => Some (py_range s (n + s))
          | UseSeq items => items_ints items
          | UseOther => None
          end in
        match resolved with
        | None => Fails (Builtin TypeError)
        | Some [] => Fails (Builtin (ValueError msg_nothing))
        | Some (u :: use') =>
            let muse := foldr Z.max u use' in
            if bool_decide (Z.of_nat (shape1 V) ≤ muse)%Z then
              Fails (Builtin (ValueError (msg_maximum vec muse (shape1 V))))
            else
              match index_columns V (u :: use') with
              | Some V_ => Returns (u :: use', V_)
              | None => Fails (Builtin IndexError)
              end
        end
  end.

(** [V[:, 0] = 1.0] *)
Definition set_first_column (V : matrix complex) : option (matrix complex) :=
  mapM (λ r : list complex, match r with [] => None | _ :: r' => Some (of_real 1 :: r') end) V.

(** [plot_eigendecomposition(left, use)] up to the selection of the
    eigenvectors that are plotted.  The assignment [V[:, 0] = 1.0] writes
    into the array that the estimator stores; the model gives the vectors
    that are plotted and does not follow the stored ones. *)
Definition plot_eigendecomposition (s : Estimator) (a : AnnData) (left : bool)
    (use : use_arg) : outcome (list Z * matrix complex) :=
  match _eig s with
  | None =>
      match _plot_vectors a (@None (matrix complex)) KindEig UseNone with
      | Fails e => Fails e
      | Returns _ => Fails (Builtin TypeError)
      end
  | Some eig =>
      let D := eig_D eig in
      match (if left then eig_V_l eig else eig_V_r eig) with
      | None => Fails RuntimeError
      | Some V =>
          let irreducible :=
            negb left && bool_decide (length (filter (λ z, isclose_one z = true) D) = 1%nat) in
          match (if irreducible then set_first_column V else Some V) with
          | None => Fails (Builtin IndexError)
          | Some V =>
              let use :=
                match use with
                | UseNone => UseInt (Z.of_nat (eig_eigengap eig) + 1)
                | _ => use
                end in
              _plot_vectors a (Some V) KindEig use
          end
      end
  end.

(** The local function [adapt_range] of [_plot_complex_spectrum]. *)
Definition adapt_range (min_ max_ range_ : Q) : Q * Q :=
  (min_ + (max_ - min_) / 2 - range_ / 2,
   min_ + (max_ - min_) / 2 + range_ / 2)%Q.

Definition spectrum_key (p : Params) : string :=
  match p_which p with LR => "real part" | LM => "magnitude" end.

(** What [_plot_complex_spectrum] hands over: the points, the limits of
    the two axes and the title.  The constant [0.05] is the rational
    [1/20]. *)
Record complex_spectrum := {
  cs_points : list (Q * Q);
  cs_xlim : Q * Q;
  cs_ylim : Q * Q;
  cs_title : string;
}.

Definition _plot_complex_spectrum (eig : eig_dict) (title : option string)
    : res complex_spectrum :=
  let D := eig_D eig in
  let lam_x := re <$> D in
  let lam_y := im <$> D in
  match np_min lam_x, np_max lam_x, np_min lam_y, np_max lam_y with
  | Ok x_min, Ok x_max, Ok y_min, Ok y_max =>
      let x_range := (x_max - x_min)%Q in
      let y_range := (y_max - y_min)%Q in
      let final_range := (qmax x_range y_range + (1 # 20))%Q in
      Ok {| cs_points := zip lam_x lam_y;
            cs_xlim := adapt_range x_min x_max final_range;
            cs_ylim := adapt_range y_min y_max final_range;
            cs_title :=
              default ("top " +:+ format (PyInt (p_k (eig_params eig)))
                       +:+ " eigenvalues according to their "
                       +:+ spectrum_key (eig_params eig)) title |}
  | Raise e, _, _, _ | _, Raise e, _, _ | _, _, Raise e, _ | _, _, _, Raise e => Raise e
  end.

(** What [_plot_real_spectrum] hands over: the positions and real parts of
    the eigenvalues that are real and of those that are not, the position
    of the line of the eigengap, the ticks and the title. *)
Record real_spectrum := {
  rs_real : list (nat * Q);
  rs_complex : list (nat * Q);
  rs_eigengap : nat;
  rs_xticks : list nat;
  rs_title : string;
}.

Definition _plot_real_spectrum (eig : eig_dict) (title : option string) : real_spectrum :=
  let D := eig_D eig in
  let points := imap (λ i z, (i, z)) D in
  let real_at := λ iz : nat * complex, (iz.1, re iz.2) in
  {| rs_real := real_at <$> filter (λ iz, Qeq_bool (im iz.2) 0 = true) points;
     rs_complex := real_at <$> filter (λ iz, Qeq_bool (im iz.2) 0 = false) points;
     rs_eigengap := eig_eigengap eig;
     rs_xticks := seq 0 (length D);
     rs_title :=
       default ("real part of top " +:+ format (PyInt (p_k (eig_params eig)))
                +:+ " eigenvalues according to their "
                +:+ spectrum_key (eig_params eig)) title |}.

Inductive spectrum :=
  | RealSpectrum (fig : real_spectrum)
  | ComplexSpectrum (fig : complex_spectrum).

(** [plot_spectrum(real_only, title=title)]: the figure that is shown. *)
Definition plot_spectrum (s : Estimator) (real_only : bool) (title : option string)
    : outcome spectrum :=
  match _eig s with
  | None => Fails RuntimeError
  | Some eig =>
      if real_only then Returns (RealSpectrum (_plot_real_spectrum eig title))
      else
        match _plot_complex_spectrum eig title with
        | Ok fig => Returns (ComplexSpectrum fig)
        | Raise e => Fails (Builtin e)
        end
  end.

(** [np.isclose(x, 0.0)] with the default tolerances: the magnitude is at
    most [atol = 1e-8]. *)
Definition isclose_zero (x : Q) : bool :=
  bool_decide (Qabs x <= 1 # 100000000)%Q.

(** The mask of [plot_schur_matrix]: the entries below the diagonal that
    are close to zero. *)
Definition schur_mask (R : matrix Q) : matrix bool :=
  imap (λ i r, imap (λ j x, bool_decide (j < i)%nat && isclose_zero x) r) R.

(** [schur_matrix[~mask]] *)
Definition unmasked (R : matrix Q) (mask : matrix bool) : list Q :=
  concat (zip_with (λ r m, fst <$> filter (λ xb : Q * bool, xb.2 = false) (zip r m)) R mask).

(** What [plot_schur_matrix] hands over to the heatmap: the Schur matrix,
    the mask and the limits [vmin], [vmax] of the colours. *)
Record schur_heatmap := {
  sh_matrix : matrix Q;
  sh_mask : matrix bool;
  sh_vmin : Q;
  sh_vmax : Q;
}.

Definition plot_schur_matrix (s : Estimator) : outcome schur_heatmap :=
  match _schur_mat s with
  | None => Fails RuntimeError
  | Some schur_matrix =>
      let mask := schur_mask schur_matrix in
      match np_min (unmasked schur_matrix mask), np_max (unmasked schur_matrix mask) with
      | Ok vmin, Ok vmax =>
          Returns {| sh_matrix := schur_matrix; sh_mask := mask;
                     sh_vmin := vmin; sh_vmax := vmax |}
      | Raise e, _ | _, Raise e => Fails (Builtin e)
      end
  end.

(** The loop of [_plot_continuous] over the columns of the probabilities:
    where a column has entries other than 1, its entries that are 1 are set
    to the largest of the others. *)
Definition cap_ones (col : list Q) : list Q :=
  match np_max (filter (λ x, Qeq_bool x 1 = false) col) with
  | Ok max_not_one => (λ x, if Qeq_bool x 1 then max_not_one else x) <$> col
  | Raise _ => col
  end.

(** ** Runs of the decompositions *)

Section Decomposed.
Variable _eigengap : ndarray → Q → nat.
Variable sorted_schur :
  matrix Q → option (list Q) → Which → Method → string + schur_form.
Variable eigs : matrix Q → Z → Which → option Z → res eigensystem.
Variable np_linalg_eig : matrix Q → res eigensystem.

(** A call of [Eigen._compute] or of [Schur._compute] that returned. *)
Definition decomposed (w w' : World) : Prop :=
  (∃ k which alpha only_evals ncv,
     Eigen._compute _eigengap eigs np_linalg_eig k which alpha only_evals ncv w = (Ok (), w')) ∨
  (∃ n eta method which alpha,
     Schur._compute _eigengap sorted_schur n eta method which alpha w = (Ok (), w')).
End Decomposed.

(** ** The nearest value of the heatmap

    [cellrank/plotting/_heatmap.py] *)

(** [np.searchsorted(array, value, side="left")] on an array in ascending
    order, as [find_indices] sorts it: the number of entries below
    [value]. *)
Definition np_searchsorted_left (array : list Q) (value : Q) : nat :=
  length (filter (λ x, (x < value)%Q) array).

Section FindNearest.
(** The rounding of float64 arithmetic: the float that stands for the
    exact result of an operation on two floats. *)
Variable fl : Q → Q.

(** [x - y] on floats: the exact difference, rounded. *)
Definition float_sub (x y : Q) : Q := fl (x - y).

(** The local function [find_nearest] of [find_indices].  The entries of
    the array and the value are floats; [fabs] and the comparisons are
    exact on floats, the two subtractions are rounded. *)
Definition find_nearest (array : list Q) (value : Q) : nat :=
  let ix := np_searchsorted_left array value in
  if bool_decide (0 < ix)%nat
     && (bool_decide (ix = length array)
         || bool_decide (Qabs (float_sub value (nth (ix - 1) array 0))
                           < Qabs (float_sub value (nth ix array 0)))%Q)
  then (ix - 1)%nat
  else ix.
End FindNearest.

(** A rounding is monotone and odd, as rounding to the nearest float is. *)
Definition rounding (fl : Q → Q) : Prop :=
  (∀ x y, (x <= y)%Q → (fl x <= fl y)%Q) ∧ (∀ x, fl (- x) == - fl x)%Q.

(** A coarse rounding for the examples: to the nearest integer, halves
    away from zero. *)
Definition round_to_integer (x : Q) : Q :=
  if Qle_bool 0 x then inject_Z (Qfloor (x + (1#2)))
  else (- inject_Z (Qfloor (- x + (1#2))))%Q.

(** ** [PropertyMeta.update_attributes] *)

(** The character [_]. *)
Definition underscore : Ascii.ascii := Ascii.ascii_of_nat 95.

(** [s.startswith("_")] and [s.lstrip("_")] *)
Definition startswith_underscore (s : string) : bool :=
  match s with
  | String c _ => bool_decide (c = underscore)
  | EmptyString => false
  end.

Fixpoint lstrip_underscore (s : string) : string :=
  match s with
  | String c s' => if bool_decide (c = underscore) then lstrip_underscore s' else s
  | EmptyString => EmptyString
  end.

Section PropertyMeta.
(** The class [Metadata] and the constants [A] and [P] are not among the
    sources.  The values of the fields [attr] and [prop] of a metadata
    object are of types of their own here, with what the method asks of
    them: whether [attr] is a string or a constant of [A] and the string
    [str(attr)], whether [prop] is [P.NO_PROPERTY] or [P.EMPTY], a string or
    a constant of [P], and the string [str(prop)]. *)
Variables attr_value prop_value value doc_value type_value : Type.
Variable is_str_or_A : attr_value → bool.
Variable str_attr : attr_value → string.
Variable is_NO_PROPERTY is_EMPTY is_str_or_P : prop_value → bool.
Variable str_prop : prop_value → string.
(** [_create_property(attr, doc=, return_type=)], of
    [cellrank/tools/estimators/_utils.py]. *)
Variable _create_property : string → doc_value → type_value → value.

Record Metadata := {
  md_attr : attr_value;
  md_prop : prop_value;
  md_default : value;
  md_doc : doc_value;
  md_dtype : type_value;
}.

Definition msg_attr_underscore : string := "Attribute `{md.attr!r}` must start with `'_'`.".
Definition msg_prop_empty : string := "Property name for attribute `{md.attr}` is empty.".
Definition msg_prop_underscore : string :=
  "Property musn't start with an underscore: `{prop_name!r}`.".

(** [update_attributes(md, attributedict)]: what is returned or raised, and
    the dictionary as the call leaves it.  [md] is [None] where the object
    given is not a [Metadata]. *)
Definition update_attributes (md : option Metadata) (attributedict : gmap string value)
    : res (option string) * gmap string value :=
  match md with
  | None => (Raise TypeError, attributedict)
  | Some md =>
      if negb (is_str_or_A (md_attr md)) then (Raise TypeError, attributedict)
      else if negb (startswith_underscore (str_attr (md_attr md))) then
        (Raise (ValueError msg_attr_underscore), attributedict)
      else
        let attributedict := <[str_attr (md_attr md) := md_default md]> attributedict in
        if is_NO_PROPERTY (md_prop md) then (Ok None, attributedict)
        else if negb (is_str_or_P (md_prop md)) then (Raise TypeError, attributedict)
        else
          let prop_name :=
            if is_EMPTY (md_prop md) then lstrip_underscore (str_attr (md_attr md))
            else str_prop (md_prop md) in
          if bool_decide (String.length prop_name = 0%nat) then
            (Raise (ValueError msg_prop_empty), attributedict)
          else if startswith_underscore prop_name then
            (Raise (ValueError msg_prop_underscore), attributedict)
          else
            (Ok (Some prop_name),
             <[prop_name := _create_property (str_attr (md_attr md)) (md_doc md) (md_dtype md)]>
               attributedict)
  end.
End PropertyMeta.

Arguments md_attr {_ _ _ _ _} _.
Arguments md_prop {_ _ _ _ _} _.
Arguments md_default {_ _ _ _ _} _.
Arguments md_doc {_ _ _ _ _} _.
Arguments md_dtype {_ _ _ _ _} _.
Arguments update_attributes {_ _ _ _ _} _ _ _ _ _ _ _ _ _.
(** * Facts and theorems *)

(** ** Sorting and indexing *)

Lemma StronglySorted_reverse {A} (R : relation A) (l : list A) :
  StronglySorted R l → StronglySorted (flip R) (reverse l).
Proof.
  induction 1 as [| x l Hl IH Hx].
  - rewrite reverse_nil. constructor.
  - rewrite reverse_cons. apply StronglySorted_app_2.
    + intros y z Hy Hz. apply list_elem_of_singleton in Hz. subst z.
      rewrite elem_of_reverse in Hy. unfold flip.
      rewrite Forall_forall in Hx. apply Hx, Hy.
    + exact IH.
    + repeat constructor.
Qed.

Lemma np_argsort_perm keys : np_argsort keys ≡ₚ seq 0 (length keys).
Proof. unfold np_argsort. apply merge_sort_Permutation. Qed.

Lemma np_argsort_sorted keys : StronglySorted (key_le keys) (np_argsort keys).
Proof. unfold np_argsort. apply StronglySorted_merge_sort; apply _. Qed.

(** The order of the positions [np.flip(np.argsort(keys))]. *)
Lemma flip_argsort_perm keys :
  np_flip (np_argsort keys) ≡ₚ seq 0 (length keys).
Proof. unfold np_flip. rewrite reverse_Permutation. apply np_argsort_perm. Qed.

Lemma flip_argsort_descending keys :
  descending (key_at keys <$> np_flip (np_argsort keys)).
Proof.
  unfold descending, np_flip.
  apply StronglySorted_fmap with (R1 := flip (key_le keys)).
  - intros i j Hij. exact Hij.
  - apply StronglySorted_reverse, np_argsort_sorted.
Qed.

Lemma perm_seq_in_range (p : list nat) n :
  p ≡ₚ seq 0 n → Forall (λ i, i < n)%nat p.
Proof.
  intros Hp. rewrite Hp. apply Forall_forall. intros i Hi.
  apply elem_of_seq in Hi. lia.
Qed.

Lemma fancy_index_in_range {A} (a : list A) (p : list nat) :
  Forall (λ i, i < length a)%nat p →
  ∃ b, fancy_index a p = Some b ∧ Forall2 (λ i x, a !! i = Some x) p b.
Proof.
  intros Hp. unfold fancy_index.
  induction Hp as [| i p Hi Hp IH].
  - exists []. split; [reflexivity | constructor].
  - destruct IH as (b & Hb & Hall).
    destruct (lookup_lt_is_Some_2 a i Hi) as [x Hx].
    exists (x :: b). split.
    + apply mapM_Some. constructor; [exact Hx |]. apply mapM_Some, Hb.
    + constructor; assumption.
Qed.

Lemma fancy_index_spec {A} (a b : list A) (p : list nat) :
  fancy_index a p = Some b ↔ Forall2 (λ i x, a !! i = Some x) p b.
Proof. unfold fancy_index. apply mapM_Some. Qed.

Lemma fancy_index_lookup {A} (a b : list A) (p : list nat) i j :
  fancy_index a p = Some b → p !! i = Some j → b !! i = a !! j.
Proof.
  rewrite fancy_index_spec. intros Hall Hi.
  destruct (Forall2_lookup_l _ _ _ _ _ Hall Hi) as (x & Hx & Hax).
  congruence.
Qed.

Lemma omap_lookup_seq_from {A} (pre a : list A) :
  omap ((pre ++ a) !!.) (seq (length pre) (length a)) = a.
Proof.
  revert pre. induction a as [| x a IH]; intros pre; [reflexivity |].
  cbn [length seq omap list_omap].
  rewrite lookup_app_r by lia. rewrite Nat.sub_diag. cbn.
  f_equal. specialize (IH (pre ++ [x])).
  rewrite length_app, Nat.add_comm in IH. cbn in IH.
  rewrite <- (assoc_L (++)) in IH. exact IH.
Qed.

Lemma omap_lookup_seq {A} (a : list A) :
  omap (a !!.) (seq 0 (length a)) = a.
Proof. apply (omap_lookup_seq_from [] a). Qed.

Lemma fancy_index_omap {A} (a b : list A) (p : list nat) :
  fancy_index a p = Some b → omap (a !!.) p = b.
Proof.
  rewrite fancy_index_spec. induction 1 as [| i x p b Hix _ IH]; [reflexivity |].
  cbn. rewrite Hix. cbn. f_equal. exact IH.
Qed.

Lemma fancy_index_perm {A} (a b : list A) (p : list nat) :
  p ≡ₚ seq 0 (length a) → fancy_index a p = Some b → b ≡ₚ a.
Proof.
  intros Hp Hb. apply fancy_index_omap in Hb. subst b.
  rewrite Hp. rewrite omap_lookup_seq. reflexivity.
Qed.

Lemma fancy_index_real (D D' : list complex) (p : list nat) :
  fancy_index D p = Some D' → real D' = key_at (real D) <$> p.
Proof.
  rewrite fancy_index_spec. induction 1 as [| i z p D' Hiz _ IH]; [reflexivity |].
  cbn. f_equal; [| exact IH].
  unfold key_at, real. symmetry. apply nth_lookup_Some.
  rewrite list_lookup_fmap, Hiz. reflexivity.
Qed.

Lemma sorted_indexing_descending (D D' : list complex) :
  fancy_index D (np_flip (np_argsort (real D))) = Some D' →
  sorted_under LR D'.
Proof.
  intros H. unfold sorted_under. fold (real D').
  rewrite (fancy_index_real _ _ _ H). apply flip_argsort_descending.
Qed.

Lemma take_columns_spec {A} (V V' : matrix A) (p : list nat) :
  take_columns V p = Some V' ↔ Forall2 (λ r r', fancy_index r p = Some r') V V'.
Proof. unfold take_columns. apply mapM_Some. Qed.

Lemma take_columns_in_range {A} (V : matrix A) (p : list nat) n :
  Forall (λ r, length r = n) V → Forall (λ i, i < n)%nat p →
  ∃ V', take_columns V p = Some V'.
Proof.
  intros HV Hp. induction HV as [| r V Hr HV IH].
  - exists []. reflexivity.
  - destruct IH as [V' HV'].
    destruct (fancy_index_in_range r p) as (r' & Hr' & _).
    { rewrite Hr. exact Hp. }
    exists (r' :: V'). apply take_columns_spec. constructor; [exact Hr' |].
    apply take_columns_spec, HV'.
Qed.

Lemma column_take_columns {A} (V V' : matrix A) (p : list nat) i j :
  take_columns V p = Some V' → p !! i = Some j → column i V' = column j V.
Proof.
  rewrite take_columns_spec. intros HV Hij. unfold column.
  apply Forall2_mapM_ext.
  induction HV as [| r r' V V' Hr _ IH]; constructor; [| exact IH].
  eapply fancy_index_lookup; eassumption.
Qed.

Lemma column_in_range {A} (V : matrix A) j n :
  Forall (λ r, length r = n) V → (j < n)%nat → ∃ v, column j V = Some v.
Proof.
  intros HV Hj. unfold column. induction HV as [| r V Hr HV IH].
  - exists []. reflexivity.
  - destruct IH as [v Hv].
    destruct (lookup_lt_is_Some_2 r j) as [x Hx]; [lia |].
    exists (x :: v). apply mapM_Some. constructor; [exact Hx |].
    apply mapM_Some, Hv.
Qed.

(** ** Running the monad *)

Lemma bind_run {A B} (m : M A) (f : A → M B) (w : World) :
  (m ≫= f) w = match m w with
               | (Ok a, w') => f a w'
               | (Raise e, w') => (Raise e, w')
               end.
Proof. reflexivity. Qed.

Lemma write_eig_run (e : eig_dict) (w : World) :
  _write_eig_to_adata e w = (Ok (), after_write e w).
Proof. reflexivity. Qed.

(** ** Runs of [Eigen._compute] *)

Section EigenFacts.
Variable _eigengap : ndarray → Q → nat.
Variable eigs : matrix Q → Z → Which → option Z → res eigensystem.
Variable np_linalg_eig : matrix Q → res eigensystem.

Lemma lift_index_run {A} (o : option A) w :
  lift_index o w = match o with Some a => (Ok a, w) | None => (Raise IndexError, w) end.
Proof. destruct o; reflexivity. Qed.

Lemma sort_and_write_run D V_l V_r which k alpha w :
  D ≠ [] →
  Forall (λ r, length r = length D) V_l →
  Forall (λ r, length r = length D) V_r →
  let p := np_flip (np_argsort (real D)) in
  ∃ D' Vl' Vr' j v,
    fancy_index D p = Some D' ∧ take_columns V_l p = Some Vl' ∧
    take_columns V_r p = Some Vr' ∧ p !! 0%nat = Some j ∧
    column j V_l = Some v ∧
    sort_and_write _eigengap D V_l V_r which k alpha w =
      (Ok (), after_write
         {| eig_D := D'; eig_stationary_dist := Some (normalized_abs v);
            eig_V_l := Some Vl'; eig_V_r := Some Vr';
            eig_eigengap := _eigengap (FloatArray (real D')) alpha;
            eig_params := mk_params which k alpha |}
         (log_to DEBUG msg_sorting w)).
Proof.
  intros HD HVl HVr p.
  assert (Hp : p ≡ₚ seq 0 (length D)).
  { subst p. rewrite <- (length_fmap re D). apply flip_argsort_perm. }
  pose proof (perm_seq_in_range _ _ Hp) as Hrange.
  destruct (fancy_index_in_range D p Hrange) as (D' & HD' & _).
  destruct (take_columns_in_range V_l p _ HVl Hrange) as (Vl' & HVl').
  destruct (take_columns_in_range V_r p _ HVr Hrange) as (Vr' & HVr').
  destruct p as [| j p'] eqn:Ep.
  { apply Permutation_length in Hp. rewrite length_seq in Hp.
    destruct D; [congruence | discriminate]. }
  assert (Hj : (j < length D)%nat) by (inversion Hrange; assumption).
  destruct (column_in_range V_l j _ HVl Hj) as (v & Hv).
  exists D', Vl', Vr', j, v. repeat split; try assumption.
  unfold sort_and_write. fold p. rewrite Ep.
  rewrite bind_run. cbn [logg]. rewrite bind_run, lift_index_run, HD'.
  rewrite bind_run, lift_index_run, HVl'.
  rewrite bind_run, lift_index_run, HVr'.
  rewrite bind_run, lift_index_run.
  rewrite (column_take_columns V_l Vl' (j :: p') 0 j HVl' eq_refl), Hv.
  apply write_eig_run.
Qed.
End EigenFacts.

Section EigenRuns.
Variable _eigengap : ndarray → Q → nat.
Variable eigs : matrix Q → Z → Which → option Z → res eigensystem.
Variable np_linalg_eig : matrix Q → res eigensystem.

Lemma get_top_k_evals_run D k w :
  ∃ D', fancy_index D (np_flip (np_argsort (real D))) = Some D' ∧
        get_top_k_evals D k w = (Ok (slice_to D' k), w).
Proof.
  set (p := np_flip (np_argsort (real D))).
  assert (Hp : p ≡ₚ seq 0 (length D)).
  { subst p. rewrite <- (length_fmap re D). apply flip_argsort_perm. }
  destruct (fancy_index_in_range D p (perm_seq_in_range _ _ Hp)) as (D' & HD' & _).
  exists D'. split; [exact HD' |].
  unfold get_top_k_evals. fold p.
  rewrite bind_run, lift_index_run, HD'. reflexivity.
Qed.

Lemma Eigen_compute_evals_run k which alpha ncv w D V_l :
  solve eigs np_linalg_eig (self w) (transpose (the_matrix w)) k which ncv = Ok (D, V_l) →
  ∃ D', fancy_index D (np_flip (np_argsort (real D))) = Some D' ∧
    Eigen._compute _eigengap eigs np_linalg_eig k which alpha true ncv w =
      (Ok (), after_write
         (evals_dict (slice_to D' k)
            (_eigengap (FloatArray (real (if issparse (self w)
                                          then slice_to D' k else D))) alpha)
            (mk_params which k alpha))
         (started k w)).
Proof.
  intros Hsolve.
  destruct (get_top_k_evals_run D k (started k w)) as (D' & HD' & Hrun).
  exists D'. split; [exact HD' |].
  unfold Eigen._compute, solve, started, the_matrix in *.
  rewrite bind_run. cbn [logg]. rewrite bind_run. cbn [get_self log_to self].
  destruct (issparse (self w)) eqn:Hsp.
  - rewrite bind_run. cbn [logg]. rewrite bind_run. unfold lift_res.
    cbn [log_to self]. rewrite Hsolve. cbn beta iota.
    rewrite bind_run, Hrun, bind_run, Hrun. apply write_eig_run.
  - rewrite bind_run. cbn [logg]. rewrite bind_run. unfold lift_res.
    cbn [log_to self]. rewrite Hsolve. cbn beta iota.
    rewrite bind_run, Hrun. apply write_eig_run.
Qed.

Lemma Eigen_compute_full_run k which alpha ncv w D V_l D_r V_r :
  solve eigs np_linalg_eig (self w) (transpose (the_matrix w)) k which ncv = Ok (D, V_l) →
  solve eigs np_linalg_eig (self w) (the_matrix w) k which ncv = Ok (D_r, V_r) →
  D ≠ [] →
  Forall (λ r, length r = length D) V_l →
  Forall (λ r, length r = length D) V_r →
  let p := np_flip (np_argsort (real D)) in
  ∃ D' Vl' Vr' j v,
    fancy_index D p = Some D' ∧ take_columns V_l p = Some Vl' ∧
    take_columns V_r p = Some Vr' ∧ p !! 0%nat = Some j ∧
    column j V_l = Some v ∧
    Eigen._compute _eigengap eigs np_linalg_eig k which alpha false ncv w =
      (Ok (), after_write
         {| eig_D := D'; eig_stationary_dist := Some (normalized_abs v);
            eig_V_l := Some Vl'; eig_V_r := Some Vr';
            eig_eigengap := _eigengap (FloatArray (real D')) alpha;
            eig_params := mk_params which k alpha |}
         (log_to DEBUG msg_sorting (started k w))).
Proof.
  intros Hl Hr HD HVl HVr p.
  destruct (sort_and_write_run _eigengap D V_l V_r which k alpha (started k w)
              HD HVl HVr) as (D' & Vl' & Vr' & j & v & H1 & H2 & H3 & H4 & H5 & Hrun).
  exists D', Vl', Vr', j, v. repeat split; try assumption.
  unfold Eigen._compute, solve, started, the_matrix in *.
  rewrite bind_run. cbn [logg]. rewrite bind_run. cbn [get_self log_to self].
  destruct (issparse (self w)) eqn:Hsp.
  - rewrite bind_run. cbn [logg]. rewrite bind_run. unfold lift_res.
    cbn [log_to self]. rewrite Hl. cbn beta iota.
    rewrite bind_run, Hr. cbn beta iota. exact Hrun.
  - rewrite bind_run. cbn [logg]. rewrite bind_run. unfold lift_res.
    cbn [log_to self]. rewrite Hl. cbn beta iota.
    rewrite bind_run, Hr. cbn beta iota. exact Hrun.
Qed.
End EigenRuns.

Section EigenInv.
Variable _eigengap : ndarray → Q → nat.
Variable eigs : matrix Q → Z → Which → option Z → res eigensystem.
Variable np_linalg_eig : matrix Q → res eigensystem.

Lemma sort_and_write_inv D V_l V_r which k alpha w w' :
  sort_and_write _eigengap D V_l V_r which k alpha w = (Ok (), w') →
  ∃ e, w' = after_write e (log_to DEBUG msg_sorting w) ∧
       eig_eigengap e = _eigengap (FloatArray (real (eig_D e))) alpha ∧
       eig_params e = mk_params which k alpha.
Proof.
  unfold sort_and_write. intros H.
  rewrite bind_run in H. cbn [logg] in H.
  rewrite bind_run, lift_index_run in H.
  destruct (fancy_index D _) as [D' |]; [| discriminate].
  rewrite bind_run, lift_index_run in H.
  destruct (take_columns V_l _) as [Vl' |]; [| discriminate].
  rewrite bind_run, lift_index_run in H.
  destruct (take_columns V_r _) as [Vr' |]; [| discriminate].
  rewrite bind_run, lift_index_run in H.
  destruct (column 0 Vl') as [v |]; [| discriminate].
  rewrite write_eig_run in H. injection H as <-.
  eexists. split; [reflexivity |]. split; reflexivity.
Qed.

Lemma Eigen_compute_inv k which alpha only_evals ncv w w' :
  Eigen._compute _eigengap eigs np_linalg_eig k which alpha only_evals ncv w = (Ok (), w') →
  ∃ e w1, w' = after_write e w1 ∧ self w1 = self w ∧ adata w1 = adata w ∧
    eig_params e = mk_params which k alpha ∧
    (only_evals = false ∨ issparse (self w) = true →
     eig_eigengap e = _eigengap (FloatArray (real (eig_D e))) alpha).
Proof.
  unfold Eigen._compute. intros H.
  rewrite bind_run in H. cbn [logg] in H. rewrite bind_run in H.
  cbn [get_self log_to self] in H.
  destruct (issparse (self w)) eqn:Hsp.
  - rewrite bind_run in H. cbn [logg] in H. rewrite bind_run in H.
    unfold lift_res in H.
    destruct (eigs _ k which ncv) as [[D V_l] | ?]; [| discriminate].
    cbn beta iota in H. destruct only_evals.
    + rewrite bind_run in H.
      destruct (get_top_k_evals_run D k
                  (log_to DEBUG (msg_top k) (log_to INFO msg_computing w)))
        as (D' & _ & Hrun).
      rewrite Hrun in H. rewrite bind_run, Hrun in H.
      rewrite write_eig_run in H. injection H as <-.
      eexists _, _. split; [reflexivity |]. repeat split.
    + rewrite bind_run in H.
      destruct (eigs _ k which ncv) as [[D_r V_r] | ?]; [| discriminate].
      cbn beta iota in H. apply sort_and_write_inv in H as (e & -> & Hgap & Hpar).
      eexists _, _. split; [reflexivity |]. repeat split; auto.
  - rewrite bind_run in H. cbn [logg] in H. rewrite bind_run in H.
    unfold lift_res in H.
    destruct (np_linalg_eig _) as [[D V_l] | ?]; [| discriminate].
    cbn beta iota in H. destruct only_evals.
    + rewrite bind_run in H.
      destruct (get_top_k_evals_run D k
                  (log_to WARNING msg_not_sparse (log_to INFO msg_computing w)))
        as (D' & _ & Hrun).
      rewrite Hrun in H. rewrite write_eig_run in H. injection H as <-.
      eexists _, _. split; [reflexivity |]. repeat split.
      intros [? | ?]; discriminate.
    + rewrite bind_run in H.
      destruct (np_linalg_eig _) as [[D_r V_r] | ?]; [| discriminate].
      cbn beta iota in H. apply sort_and_write_inv in H as (e & -> & Hgap & Hpar).
      eexists _, _. split; [reflexivity |]. repeat split; auto.
Qed.
End EigenInv.

(** ** The normalized absolute value *)

Lemma Qsum_nonneg (xs : list Q) :
  Forall (λ x, (0 <= x)%Q) xs → (0 <= Qsum xs)%Q.
Proof.
  induction 1 as [| x xs Hx _ IH]; cbn.
  - apply Qle_refl.
  - replace 0%Q with (0 + 0)%Q by reflexivity. apply Qplus_le_compat; assumption.
Qed.

Lemma Qsum_div (xs : list Q) (s : Q) :
  (Qsum ((λ x, x / s) <$> xs) == Qsum xs / s)%Q.
Proof.
  induction xs as [| x xs IH]; cbn.
  - unfold Qdiv. rewrite Qmult_0_l. reflexivity.
  - rewrite IH. unfold Qdiv. rewrite Qmult_plus_distr_l. reflexivity.
Qed.

Lemma abs_all_nonneg (xs : list Q) : Forall (λ x, (0 <= x)%Q) (Qabs <$> xs).
Proof. apply Forall_fmap, Forall_forall. intros x _. apply Qabs_nonneg. Qed.

Lemma normalized_abs_nonneg (v : list complex) :
  Forall (λ x, (0 <= x)%Q) (normalized_abs v).
Proof.
  unfold normalized_abs. apply Forall_fmap.
  eapply Forall_impl; [apply abs_all_nonneg |]. intros x Hx. cbn.
  pose proof (Qsum_nonneg _ (abs_all_nonneg (real v))) as Hs.
  destruct (Qeq_dec (Qsum (Qabs <$> real v)) 0) as [Hz | Hnz].
  - unfold Qdiv. rewrite Hz. cbn. rewrite Qmult_0_r. apply Qle_refl.
  - apply Qle_shift_div_l.
    + apply Qle_lteq in Hs as [Hs | Hs]; [exact Hs |]. symmetry in Hs. contradiction.
    + rewrite Qmult_0_l. exact Hx.
Qed.

Lemma normalized_abs_sum (v : list complex) :
  ¬ (Qsum (Qabs <$> real v) == 0)%Q → (Qsum (normalized_abs v) == 1)%Q.
Proof.
  intros Hnz. unfold normalized_abs. rewrite Qsum_div.
  unfold Qdiv. apply Qmult_inv_r, Hnz.
Qed.

Lemma flip_argsort_head_largest (keys : list Q) j :
  np_flip (np_argsort keys) !! 0%nat = Some j →
  ∀ i, (i < length keys)%nat → (key_at keys i <= key_at keys j)%Q.
Proof.
  intros Hj i Hi.
  pose proof (flip_argsort_descending keys) as Hsorted.
  pose proof (flip_argsort_perm keys) as Hperm.
  destruct (np_flip (np_argsort keys)) as [| j' p'] eqn:Ep; [discriminate |].
  injection Hj as ->.
  assert (Hin : i ∈ j :: p').
  { rewrite Hperm. apply elem_of_seq. lia. }
  unfold descending in Hsorted. cbn in Hsorted.
  apply StronglySorted_cons in Hsorted as [Hall _].
  apply elem_of_cons in Hin as [-> | Hin]; [apply Qle_refl |].
  rewrite Forall_fmap, Forall_forall in Hall. apply Hall, Hin.
Qed.

Section EigenTheorems.
Variable _eigengap : ndarray → Q → nat.
Variable eigs : matrix Q → Z → Which → option Z → res eigensystem.
Variable np_linalg_eig : matrix Q → res eigensystem.

(** C1 (amended): for every transition matrix and every [which], when the
    solver returns the eigenvalues [D] with the left and right eigenvectors,
    [Eigen._compute] stores them jointly re-sorted in descending order of
    the real part of the eigenvalues, whatever [which] is: one permutation
    [p] of the positions gives the stored [D[p]], [V_l[:, p]] and
    [V_r[:, p]], and the real parts of the stored eigenvalues descend. *)
Theorem eigen_sorted_by_real_part k which alpha ncv w D V_l D_r V_r :
  solve eigs np_linalg_eig (self w) (transpose (the_matrix w)) k which ncv = Ok (D, V_l) →
  solve eigs np_linalg_eig (self w) (the_matrix w) k which ncv = Ok (D_r, V_r) →
  (0 < length D)%nat →
  Forall (λ r, length r = length D) V_l →
  Forall (λ r, length r = length D) V_r →
  ∃ w' e p Vl' Vr',
    Eigen._compute _eigengap eigs np_linalg_eig k which alpha false ncv w = (Ok (), w') ∧
    _eig (self w') = Some e ∧
    p ≡ₚ seq 0 (length D) ∧
    fancy_index D p = Some (eig_D e) ∧
    take_columns V_l p = Some Vl' ∧ eig_V_l e = Some Vl' ∧
    take_columns V_r p = Some Vr' ∧ eig_V_r e = Some Vr' ∧
    eig_D e ≡ₚ D ∧
    sorted_under LR (eig_D e).
Proof.
  intros Hl Hr HD HVl HVr.
  assert (HD' : D ≠ []) by (destruct D; [cbn in HD; lia | discriminate]).
  destruct (Eigen_compute_full_run _eigengap eigs np_linalg_eig k which alpha ncv
              w D V_l D_r V_r Hl Hr HD' HVl HVr)
    as (D' & Vl' & Vr' & j & v & H1 & H2 & H3 & H4 & H5 & Hrun).
  assert (Hp : np_flip (np_argsort (real D)) ≡ₚ seq 0 (length D)).
  { rewrite <- (length_fmap re D). apply flip_argsort_perm. }
  eexists _, _, (np_flip (np_argsort (real D))), Vl', Vr'.
  split; [exact Hrun |]. cbn.
  repeat split; try assumption.
  - eapply fancy_index_perm; eassumption.
  - eapply sorted_indexing_descending; eassumption.
Qed.

(** C3 (amended): [Eigen._compute] stores a stationary distribution exactly
    when [only_evals] is false, and makes no test for an eigenvalue close to
    one.  The distribution is the absolute value of the real part of the
    left eigenvector of the eigenvalue with the largest real part (the first
    one after sorting), divided by its sum; when that sum is not zero its
    entries are non-negative and sum to one. *)
Theorem stationary_dist_of_largest_real_part k which alpha only_evals ncv w D V_l D_r V_r :
  solve eigs np_linalg_eig (self w) (transpose (the_matrix w)) k which ncv = Ok (D, V_l) →
  (only_evals = false →
   solve eigs np_linalg_eig (self w) (the_matrix w) k which ncv = Ok (D_r, V_r) ∧
   (0 < length D)%nat ∧
   Forall (λ r, length r = length D) V_l ∧
   Forall (λ r, length r = length D) V_r) →
  ∃ w' e,
    Eigen._compute _eigengap eigs np_linalg_eig k which alpha only_evals ncv w = (Ok (), w') ∧
    _eig (self w') = Some e ∧
    if only_evals then eig_stationary_dist e = None
    else
      ∃ j lam v,
        D !! j = Some lam ∧ eig_D e !! 0%nat = Some lam ∧
        (∀ z, z ∈ D → (re z <= re lam)%Q) ∧
        column j V_l = Some v ∧
        eig_stationary_dist e = Some (normalized_abs v) ∧
        (¬ (Qsum (Qabs <$> real v) == 0)%Q →
         Forall (λ x, (0 <= x)%Q) (normalized_abs v) ∧
         (Qsum (normalized_abs v) == 1)%Q).
Proof.
  intros Hl Hfull. destruct only_evals.
  - destruct (Eigen_compute_evals_run _eigengap eigs np_linalg_eig k which alpha ncv
                w D V_l Hl) as (D' & _ & Hrun).
    eexists _, _. split; [exact Hrun |]. split; reflexivity.
  - destruct (Hfull eq_refl) as (Hr & HD & HVl & HVr).
    assert (HD' : D ≠ []) by (destruct D; [cbn in HD; lia | discriminate]).
    destruct (Eigen_compute_full_run _eigengap eigs np_linalg_eig k which alpha ncv
                w D V_l D_r V_r Hl Hr HD' HVl HVr)
      as (D' & Vl' & Vr' & j & v & H1 & H2 & H3 & H4 & H5 & Hrun).
    eexists _, _. split; [exact Hrun |]. split; [reflexivity |]. cbn.
    assert (Hj : (j < length D)%nat).
    { assert (Hin : j ∈ np_flip (np_argsort (real D))).
      { eapply list_elem_of_lookup_2, H4. }
      rewrite flip_argsort_perm in Hin. apply elem_of_seq in Hin.
      unfold real in Hin. rewrite length_fmap in Hin. lia. }
    destruct (lookup_lt_is_Some_2 D j Hj) as [lam Hlam].
    assert (Hkey : key_at (real D) j = re lam).
    { unfold key_at, real. apply nth_lookup_Some.
      rewrite list_lookup_fmap, Hlam. reflexivity. }
    exists j, lam, v. repeat split.
    + exact Hlam.
    + rewrite (fancy_index_lookup D D' _ 0 j H1 H4). exact Hlam.
    + intros z Hz. apply list_elem_of_lookup in Hz as [i Hi].
      rewrite <- Hkey.
      assert (Hzi : key_at (real D) i = re z).
      { unfold key_at, real. apply nth_lookup_Some.
        rewrite list_lookup_fmap, Hi. reflexivity. }
      rewrite <- Hzi. apply flip_argsort_head_largest; [exact H4 |].
      unfold real. rewrite length_fmap. eapply lookup_lt_Some, Hi.
    + exact H5.
    + apply normalized_abs_nonneg.
    + apply normalized_abs_sum. assumption.
Qed.
End EigenTheorems.

(** ** Runs of [Schur._compute] *)

Lemma lift_some_run {A} (o : option A) w :
  lift_some o w = match o with Some a => (Ok a, w) | None => (Raise TypeError, w) end.
Proof. destruct o; reflexivity. Qed.

Lemma eig_key_congr s s' :
  class_name s = class_name s' → kernel s = kernel s' → eig_key s = eig_key s'.
Proof.
  intros Hc Hk. unfold eig_key, format, repr, len. rewrite Hc, Hk. reflexivity.
Qed.

Section SchurRuns.
Variable _eigengap : ndarray → Q → nat.
Variable sorted_schur :
  matrix Q → option (list Q) → Which → Method → string + schur_form.

Lemma _do_schur_helper_run g m w :
  _gpcca (self w) = Some g →
  _do_schur_helper sorted_schur m w =
    match do_schur_helper sorted_schur g m with
    | Ok g' => (Ok (), with_self (set_gpcca g') w)
    | Raise e => (Raise e, w)
    end.
Proof.
  intros Hg. unfold _do_schur_helper.
  rewrite bind_run. cbn [get_self]. rewrite bind_run, lift_some_run, Hg.
  rewrite bind_run. unfold lift_res.
  destruct (do_schur_helper sorted_schur g m); reflexivity.
Qed.

Lemma Schur_compute_reject n eta method which alpha w :
  (n < 2)%Z →
  Schur._compute _eigengap sorted_schur n eta method which alpha w =
    (Raise (ValueError (msg_n_components n)), w).
Proof.
  intros Hn. unfold Schur._compute.
  destruct (Z.ltb_spec n 2); [reflexivity | lia].
Qed.

Lemma Schur_compute_unfold n eta method which alpha w :
  (2 <= n)%Z →
  Schur._compute _eigengap sorted_schur n eta method which alpha w =
  let w0 := with_self (set_gpcca (made_gpcca w eta which method)) w in
  match do_schur_helper sorted_schur (made_gpcca w eta which method) n with
  | Ok g =>
      match gp_eigenvalues g with
      | Some evals =>
          (Ok (), after_write (schur_dict _eigengap evals which alpha)
                    (with_self (set_schur (gp_X g) (gp_R g))
                       (with_self (set_gpcca g) w0)))
      | None => (Raise TypeError,
                 with_self (set_schur (gp_X g) (gp_R g)) (with_self (set_gpcca g) w0))
      end
  | Raise (ValueError _) =>
      let w1 := log_to WARNING (msg_increase n) w0 in
      match do_schur_helper sorted_schur (made_gpcca w eta which method) (n + 1) with
      | Ok g =>
          match gp_eigenvalues g with
          | Some evals =>
              (Ok (), after_write (schur_dict _eigengap evals which alpha)
                        (with_self (set_schur (gp_X g) (gp_R g))
                           (with_self (set_gpcca g) w1)))
          | None => (Raise TypeError,
                     with_self (set_schur (gp_X g) (gp_R g)) (with_self (set_gpcca g) w1))
          end
      | Raise e => (Raise e, w1)
      end
  | Raise e => (Raise e, w0)
  end.
Proof.
  intros Hn. unfold Schur._compute.
  destruct (Z.ltb_spec n 2); [lia |].
  rewrite bind_run. cbn [get_self]. rewrite bind_run. cbn [set_self].
  rewrite bind_run. unfold try_except_ValueError. fold (made_gpcca w eta which method).
  set (w0 := with_self (set_gpcca (made_gpcca w eta which method)) w).
  rewrite (_do_schur_helper_run (made_gpcca w eta which method) n w0) by reflexivity.
  destruct (do_schur_helper sorted_schur (made_gpcca w eta which method) n) as [g | e].
  - rewrite bind_run. cbn [get_self]. cbn [with_self self set_gpcca _gpcca].
    rewrite bind_run, lift_some_run. rewrite bind_run. cbn [set_self].
    rewrite bind_run, lift_some_run.
    destruct (gp_eigenvalues g); [apply write_eig_run | reflexivity].
  - destruct e; try reflexivity.
    rewrite bind_run. cbn [logg].
    rewrite (_do_schur_helper_run (made_gpcca w eta which method) (n + 1)) by reflexivity.
    destruct (do_schur_helper sorted_schur (made_gpcca w eta which method) (n + 1)) as [g | e];
      [| reflexivity].
    rewrite bind_run. cbn [get_self]. cbn [with_self self set_gpcca _gpcca].
    rewrite bind_run, lift_some_run. rewrite bind_run. cbn [set_self].
    rewrite bind_run, lift_some_run.
    destruct (gp_eigenvalues g); [apply write_eig_run | reflexivity].
Qed.
End SchurRuns.

Lemma splits_next (R : matrix Q) (m : nat) :
  quasi_upper_triangular R = true → splits R m = true → splits R (S m) = false.
Proof.
  intros Hq Hs. destruct m as [| m']; [discriminate |].
  cbn [splits] in *.
  apply andb_true_iff in Hs as [Hlt Hne].
  apply bool_decide_eq_true in Hlt.
  unfold quasi_upper_triangular in Hq.
  apply andb_true_iff in Hq as [_ Hq].
  rewrite forallb_forall in Hq.
  specialize (Hq m'). rewrite <- list_elem_of_In, elem_of_seq in Hq.
  assert (Hm : (0 ≤ m' < 0 + shape0 R)%nat) by (unfold shape0 in *; lia).
  specialize (Hq Hm). fold (subdiag R m') in Hne. fold (subdiag R (S m')).
  destruct (Qeq_bool (subdiag R m') 0); [discriminate |].
  cbn in Hq. rewrite Hq. apply andb_false_r.
Qed.

Section SchurHelper.
Variable sorted_schur :
  matrix Q → option (list Q) → Which → Method → string + schur_form.

Lemma do_schur_helper_eq g m sf :
  sorted_schur (entries (gp_P g)) (gp_eta g) (gp_z g) (gp_method g) = inr sf →
  do_schur_helper sorted_schur g m =
    if splits (sf_R sf) (Z.to_nat m) then Raise (ValueError msg_split)
    else Ok {| gp_P := gp_P g; gp_eta := gp_eta g; gp_z := gp_z g;
               gp_method := gp_method g;
               gp_X := Some (firstn (Z.to_nat m) <$> sf_X sf);
               gp_R := Some (leading (Z.to_nat m) (sf_R sf));
               gp_eigenvalues := Some (firstn (Z.to_nat m) (sf_eigenvalues sf)) |}.
Proof. intros H. unfold do_schur_helper. rewrite H. reflexivity. Qed.

Lemma do_schur_helper_raises g m e :
  do_schur_helper sorted_schur g m = Raise e →
  e = ValueError msg_split ∨ ∃ msg, e = NumericalError msg.
Proof.
  unfold do_schur_helper.
  destruct (sorted_schur _ _ _ _) as [msg | sf].
  - intros [= <-]. right. eauto.
  - destruct (splits _ _); [| discriminate]. intros [= <-]. left. reflexivity.
Qed.

End SchurHelper.

Section SchurTheorems.
Variable _eigengap : ndarray → Q → nat.
Variable sorted_schur :
  matrix Q → option (list Q) → Which → Method → string + schur_form.

(** C4: for a requested number of components [m >= 2] within the number of
    states, [Schur._compute] succeeds.  When cutting the sorted Schur form
    after [m] components would split a block of complex conjugate
    eigenvalues, the refusal of the GPCCA object is caught, a warning is
    logged and the decomposition is taken again with [m + 1] components,
    never with fewer; otherwise it is taken with [m].  The number of
    retained components [m'] is [m] or [m + 1], and the cut after [m'] splits
    no block of [R]. *)
Theorem schur_retries_with_one_more m eta method which alpha w sf :
  (2 <= m)%Z →
  (Z.to_nat m ≤ length (the_matrix w))%nat →
  sorted_schur (the_matrix w) eta which method = inr sf →
  schur_form_shape (length (the_matrix w)) sf = true →
  quasi_upper_triangular (sf_R sf) = true →
  let split := splits (sf_R sf) (Z.to_nat m) in
  let m' := if split then (m + 1)%Z else m in
  ∃ w' g X' R' e,
    Schur._compute _eigengap sorted_schur m eta method which alpha w = (Ok (), w') ∧
    do_schur_helper sorted_schur (made_gpcca w eta which method) m' = Ok g ∧
    _gpcca (self w') = Some g ∧
    retained g = Some (Z.to_nat m') ∧
    gp_X g = Some X' ∧ _schur (self w') = Some X' ∧
    Forall (λ r, length r = Z.to_nat m') X' ∧
    gp_R g = Some R' ∧ _schur_mat (self w') = Some R' ∧
    shape0 R' = Z.to_nat m' ∧
    splits (sf_R sf) (Z.to_nat m') = false ∧
    _eig (self w') = Some e ∧
    eig_D e = firstn (Z.to_nat m') (sf_eigenvalues sf) ∧
    logged w' = logged w
                  ++ (if split then [(WARNING, msg_increase m)] else [])
                  ++ [(DEBUG, msg_adding (self w))].
Proof.
  intros Hm Hle Hsf Hshape Hq split m'.
  unfold schur_form_shape in Hshape.
  repeat (apply andb_true_iff in Hshape as [Hshape ?]).
  repeat match goal with
         | H : bool_decide _ = true |- _ => apply bool_decide_eq_true in H
         | H : forallb _ _ = true |- _ => rewrite forallb_forall in H
         end.
  assert (Hsolver : sorted_schur (entries (gp_P (made_gpcca w eta which method)))
            (gp_eta (made_gpcca w eta which method))
            (gp_z (made_gpcca w eta which method))
            (gp_method (made_gpcca w eta which method)) = inr sf) by exact Hsf.
  assert (Hm'n : (Z.to_nat m' ≤ length (the_matrix w))%nat).
  { subst m' split. destruct (splits (sf_R sf) (Z.to_nat m)) eqn:Hs; [| exact Hle].
    destruct (Z.to_nat m) as [| k] eqn:Ek; [discriminate |]. cbn [splits] in Hs.
    apply andb_true_iff in Hs as [Hlt _]. apply bool_decide_eq_true in Hlt.
    unfold shape0 in Hlt. lia. }
  assert (Hnosplit : splits (sf_R sf) (Z.to_nat m') = false).
  { subst m' split. destruct (splits (sf_R sf) (Z.to_nat m)) eqn:Hs; [| exact Hs].
    replace (Z.to_nat (m + 1)) with (S (Z.to_nat m)) by lia.
    apply splits_next; assumption. }
  assert (Hhelper := do_schur_helper_eq sorted_schur _ m' sf Hsolver).
  rewrite Hnosplit in Hhelper.
  rewrite (Schur_compute_unfold _eigengap sorted_schur m eta method which alpha w Hm).
  cbn zeta.
  assert (HX : Forall (λ r : list Q, length r = Z.to_nat m')
                 (firstn (Z.to_nat m') <$> sf_X sf)).
  { apply Forall_fmap, Forall_forall. intros r Hr. cbn.
    rewrite length_take. apply list_elem_of_In in Hr.
    match goal with H : ∀ x, In x (sf_X sf) → _ |- _ =>
      specialize (H r Hr); apply bool_decide_eq_true in H end. lia. }
  assert (HR : shape0 (leading (Z.to_nat m') (sf_R sf))
               = Z.to_nat m').
  { unfold shape0, leading. rewrite length_take, length_fmap. lia. }
  subst m' split.
  destruct (splits (sf_R sf) (Z.to_nat m)) eqn:Hs.
  - rewrite (do_schur_helper_eq sorted_schur _ m sf Hsolver), Hs.
    rewrite Hhelper. cbn [gp_eigenvalues].
    eexists _, _, _, _, _. split; [reflexivity |].
    split; [reflexivity |]. cbn.
    repeat split; try assumption.
    + f_equal. rewrite length_take. lia.
    + rewrite <- !(assoc_L (++)). reflexivity.
  - rewrite Hhelper. cbn [gp_eigenvalues].
    eexists _, _, _, _, _. split; [reflexivity |].
    split; [reflexivity |]. cbn.
    repeat split; try assumption.
    f_equal. rewrite length_take. lia.
Qed.
End SchurTheorems.

Lemma msg_split_not_n_components n : msg_split ≠ msg_n_components n.
Proof. unfold msg_split, msg_n_components. cbn. discriminate. Qed.

Lemma eig_key_not_direction (s : Estimator) (d : string) :
  d ∈ ["forward"; "backward"; "fwd"; "bwd"] → eig_key s ≠ "eig_" +:+ d.
Proof.
  intros Hd. unfold eig_key, format. cbn.
  repeat (apply elem_of_cons in Hd as [-> | Hd]; [cbn; discriminate |]).
  apply elem_of_nil in Hd. contradiction.
Qed.

Section SchurInv.
Variable _eigengap : ndarray → Q → nat.
Variable sorted_schur :
  matrix Q → option (list Q) → Which → Method → string + schur_form.

Lemma Schur_compute_inv n eta method which alpha w w' :
  Schur._compute _eigengap sorted_schur n eta method which alpha w = (Ok (), w') →
  ∃ g evals w1,
    w' = after_write (schur_dict _eigengap evals which alpha) w1 ∧
    adata w1 = adata w ∧ class_name (self w1) = class_name (self w) ∧
    kernel (self w1) = kernel (self w) ∧
    _gpcca (self w1) = Some g ∧ gp_eigenvalues g = Some evals ∧
    _schur (self w1) = gp_X g ∧ _schur_mat (self w1) = gp_R g.
Proof.
  intros H. destruct (Z.lt_ge_cases n 2) as [Hn | Hn].
  { rewrite Schur_compute_reject in H by exact Hn. discriminate. }
  rewrite Schur_compute_unfold in H by exact Hn. cbn zeta in H.
  destruct (do_schur_helper sorted_schur _ n) as [g | e].
  - destruct (gp_eigenvalues g) as [evals |] eqn:He; [| discriminate].
    injection H as <-. exists g, evals. eexists. split; [reflexivity |].
    cbn. repeat split; assumption.
  - destruct e; try discriminate.
    destruct (do_schur_helper sorted_schur _ (n + 1)) as [g | e]; [| discriminate].
    destruct (gp_eigenvalues g) as [evals |] eqn:He; [| discriminate].
    injection H as <-. exists g, evals. eexists. split; [reflexivity |].
    cbn. repeat split; assumption.
Qed.

Lemma Schur_compute_inv_solver n eta method which alpha w w' sf :
  sorted_schur (the_matrix w) eta which method = inr sf →
  Schur._compute _eigengap sorted_schur n eta method which alpha w = (Ok (), w') →
  ∃ m', splits (sf_R sf) m' = false ∧
        _schur_mat (self w') = Some (leading m' (sf_R sf)) ∧
        _eig (self w') = Some (schur_dict _eigengap (firstn m' (sf_eigenvalues sf))
                                 which alpha).
Proof.
  intros Hsf H. destruct (Z.lt_ge_cases n 2) as [Hn | Hn].
  { rewrite Schur_compute_reject in H by exact Hn. discriminate. }
  rewrite Schur_compute_unfold in H by exact Hn. cbn zeta in H.
  assert (Hhelper : ∀ m, do_schur_helper sorted_schur (made_gpcca w eta which method) m = _)
    by (intros m; apply (do_schur_helper_eq sorted_schur _ m sf); exact Hsf).
  rewrite (Hhelper n) in H.
  destruct (splits (sf_R sf) (Z.to_nat n)) eqn:Hs1.
  - rewrite (Hhelper (n + 1)%Z) in H.
    destruct (splits (sf_R sf) (Z.to_nat (n + 1))) eqn:Hs2; [discriminate |].
    cbn [gp_eigenvalues gp_X gp_R] in H. injection H as <-.
    exists (Z.to_nat (n + 1)). repeat split. exact Hs2.
  - cbn [gp_eigenvalues gp_X gp_R] in H. injection H as <-.
    exists (Z.to_nat n). repeat split. exact Hs1.
Qed.

(** C7: [Schur._compute] with [n_components < 2] raises the ValueError of
    the contract at once: the world is as it was, no GPCCA object was made,
    nothing was logged or written.  With [n_components >= 2] the call never
    ends in that error, whatever its argument. *)
Theorem schur_rejects_fewer_than_two n eta method which alpha w :
  ((n < 2)%Z →
   Schur._compute _eigengap sorted_schur n eta method which alpha w =
     (Raise (ValueError (msg_n_components n)), w)) ∧
  ((2 <= n)%Z →
   ∀ n' w', Schur._compute _eigengap sorted_schur n eta method which alpha w ≠
              (Raise (ValueError (msg_n_components n')), w')).
Proof.
  split.
  - apply Schur_compute_reject.
  - intros Hn n' w' H.
    rewrite Schur_compute_unfold in H by exact Hn. cbn zeta in H.
    destruct (do_schur_helper sorted_schur _ n) as [g | e] eqn:H1.
    + destruct (gp_eigenvalues g); discriminate.
    + destruct e; try discriminate.
      destruct (do_schur_helper sorted_schur _ (n + 1)) as [g | e] eqn:H2.
      * destruct (gp_eigenvalues g); discriminate.
      * apply do_schur_helper_raises in H2 as [-> | [msg' ->]]; [| discriminate].
        apply (f_equal (λ r : res () * World,
                 match r.1 with Raise (ValueError m) => m | _ => "" end)) in H.
        exact (msg_split_not_n_components n' H).
Qed.
End SchurInv.

(** ** The eigenvalues of the retained blocks *)

Lemma entry_leading (R : matrix Q) m i j :
  (i < m)%nat → (j < m)%nat → entry (leading m R) i j = entry R i j.
Proof.
  intros Hi Hj. unfold entry, leading, matrix in *.
  rewrite lookup_take_lt by exact Hi. rewrite list_lookup_fmap.
  destruct (R !! i) as [r |]; [| reflexivity]. cbn.
  rewrite lookup_take_lt by exact Hj. reflexivity.
Qed.

Lemma entry_leading_beyond (R : matrix Q) m i j :
  (m ≤ i)%nat → entry (leading m R) i j = 0%Q.
Proof.
  intros Hi. unfold entry, leading, matrix in *.
  rewrite lookup_take_ge by exact Hi. reflexivity.
Qed.

Lemma entry_beyond (R : matrix Q) i j :
  (shape0 R ≤ i)%nat → entry R i j = 0%Q.
Proof.
  intros Hi. unfold entry, shape0, matrix in *.
  rewrite lookup_ge_None_2 by exact Hi. reflexivity.
Qed.

Lemma subdiag_leading (R : matrix Q) m i :
  splits R m = false → (i < m)%nat →
  Qeq_bool (subdiag (leading m R) i) 0 = Qeq_bool (subdiag R i) 0.
Proof.
  intros Hs Hi. unfold subdiag.
  destruct (decide (S i < m)%nat) as [Hlt | Hge].
  - rewrite entry_leading by lia. reflexivity.
  - assert (m = S i) by lia. subst m.
    rewrite entry_leading_beyond by lia. cbn [splits] in Hs.
    apply andb_false_iff in Hs as [Hs | Hs].
    + apply bool_decide_eq_false in Hs. rewrite (entry_beyond R) by lia. reflexivity.
    + apply negb_false_iff in Hs. rewrite Hs. reflexivity.
Qed.

Lemma subdiag_leading_open (R : matrix Q) m i :
  splits R m = false → (i < m)%nat → Qeq_bool (subdiag R i) 0 = false → (S i < m)%nat.
Proof.
  intros Hs Hi Hopen.
  destruct (decide (S i < m)%nat) as [Hlt | Hge]; [exact Hlt |].
  assert (m = S i) by lia. subst m. cbn [splits] in Hs.
  apply andb_false_iff in Hs as [Hs | Hs].
  - apply bool_decide_eq_false in Hs. unfold subdiag in Hopen.
    rewrite (entry_beyond R) in Hopen by lia. discriminate.
  - apply negb_false_iff in Hs. unfold subdiag in Hopen. congruence.
Qed.

Lemma block_at_leading (R : matrix Q) (E : list complex) m i :
  splits R m = false → (i < m)%nat →
  block_at (leading m R) (firstn m E) i = block_at R E i.
Proof.
  intros Hs Hi. unfold block_at.
  rewrite (subdiag_leading R m i Hs Hi).
  destruct (Qeq_bool (subdiag R i) 0) eqn:Hopen.
  - assert (Hone : block_of_one (leading m R) (firstn m E) i = block_of_one R E i).
    { unfold block_of_one. rewrite lookup_take_lt by exact Hi.
      rewrite entry_leading by lia. reflexivity. }
    destruct i as [| i']; [exact Hone |].
    rewrite (subdiag_leading R m i' Hs) by lia.
    destruct (Qeq_bool (subdiag R i') 0); [exact Hone | reflexivity].
  - pose proof (subdiag_leading_open R m i Hs Hi Hopen) as Hlt.
    unfold block_of_two. rewrite !lookup_take_lt by lia.
    rewrite !entry_leading by lia. reflexivity.
Qed.

Lemma eigenvalues_of_blocks_leading (R : matrix Q) (E : list complex) m :
  eigenvalues_of_blocks R E = true → splits R m = false →
  eigenvalues_of_blocks (leading m R) (firstn m E) = true.
Proof.
  unfold eigenvalues_of_blocks. intros H Hs.
  apply andb_true_iff in H as [Hlen Hall].
  apply bool_decide_eq_true in Hlen. rewrite forallb_forall in Hall.
  assert (Hshape : shape0 (leading m R) = (m `min` shape0 R)%nat).
  { unfold shape0, leading. rewrite length_take, length_fmap. reflexivity. }
  apply andb_true_iff. split.
  - apply bool_decide_eq_true. rewrite length_take, Hshape, Hlen. reflexivity.
  - apply forallb_forall. intros i Hin.
    apply list_elem_of_In, elem_of_seq in Hin. rewrite Hshape in Hin.
    rewrite block_at_leading by (assumption || lia).
    apply Hall, list_elem_of_In, elem_of_seq. lia.
Qed.

Section Both.
Variable _eigengap : ndarray → Q → nat.
Variable sorted_schur :
  matrix Q → option (list Q) → Which → Method → string + schur_form.
Variable eigs : matrix Q → Z → Which → option Z → res eigensystem.
Variable np_linalg_eig : matrix Q → res eigensystem.

(** Apart from the dense path with [only_evals], the two computations
    treat their eigenvalues alike.  [Schur._compute] stores as [D] the
    eigenvalues of the retained components, which are those of the diagonal
    blocks of the retained [R] when the solver's eigenvalues are those of
    the diagonal blocks of its Schur matrix, and stores the eigengap
    [_eigengap] gives for these eigenvalues and [alpha].  On its full paths
    and on the sparse path with [only_evals], [Eigen._compute] stores the
    eigengap [_eigengap] gives for the real parts of the eigenvalues it
    stores and [alpha].  So for an [_eigengap] that reads the real parts of
    complex eigenvalues, equal real parts of the two stored spectra give
    equal eigengaps. *)
Lemma eigengap_of_stored_eigenvalues n eta method which_s alpha wS wS' sf
    k which_e only_evals ncv wE wE' :
  sorted_schur (the_matrix wS) eta which_s method = inr sf →
  eigenvalues_of_blocks (sf_R sf) (sf_eigenvalues sf) = true →
  Schur._compute _eigengap sorted_schur n eta method which_s alpha wS = (Ok (), wS') →
  Eigen._compute _eigengap eigs np_linalg_eig k which_e alpha only_evals ncv wE = (Ok (), wE') →
  only_evals = false ∨ issparse (self wE) = true →
  ∃ R' eS eE,
    _schur_mat (self wS') = Some R' ∧ _eig (self wS') = Some eS ∧
    eigenvalues_of_blocks R' (eig_D eS) = true ∧
    eig_eigengap eS = _eigengap (ComplexArray (eig_D eS)) alpha ∧
    _eig (self wE') = Some eE ∧
    eig_eigengap eE = _eigengap (FloatArray (real (eig_D eE))) alpha ∧
    p_alpha (eig_params eS) = p_alpha (eig_params eE) ∧
    ((∀ zs a, _eigengap (ComplexArray zs) a = _eigengap (FloatArray (real zs)) a) →
     real (eig_D eS) = real (eig_D eE) → eig_eigengap eS = eig_eigengap eE).
Proof.
  intros Hsf Hblocks HS HE Hpath.
  apply (Schur_compute_inv_solver _eigengap sorted_schur _ _ _ _ _ _ _ sf Hsf) in HS
    as (m' & Hsplit & HR & HeS).
  apply Eigen_compute_inv in HE as (eE & w2 & -> & _ & _ & Hpar & Hgap).
  eexists _, _, eE. split; [exact HR |]. split; [exact HeS |]. cbn.
  split; [apply eigenvalues_of_blocks_leading; assumption |].
  split; [reflexivity |]. split; [reflexivity |].
  split; [exact (Hgap Hpath) |].
  split; [by rewrite Hpar |].
  intros Hreal Heq. rewrite (Hgap Hpath), Hreal. do 2 f_equal. exact Heq.
Qed.

(** C10: every successful [Eigen._compute] (on each of its four paths) and
    every successful [Schur._compute] sets [self._eig] and writes the same
    mapping into [adata.uns], leaving the rest of [adata] as it was.  The
    key is ["eig_"] followed by the rendering of the bound method
    [self._direction], which the f-string names without calling it: it is
    neither ["eig_forward"] nor ["eig_backward"]. *)
Theorem eig_written_under_method_key k which_e alpha only_evals ncv
    n eta method which_s w w' :
  Eigen._compute _eigengap eigs np_linalg_eig k which_e alpha only_evals ncv w = (Ok (), w')
  ∨ Schur._compute _eigengap sorted_schur n eta method which_s alpha w = (Ok (), w') →
  ∃ e, _eig (self w') = Some e ∧
       uns (adata w') = <[eig_key (self w) := e]> (uns (adata w)) ∧
       obs_names (adata w') = obs_names (adata w) ∧
       eig_key (self w) = "eig_<bound method KernelHolder._direction of "
                            +:+ repr (self w) +:+ ">" ∧
       eig_key (self w) ≠ "eig_forward" ∧ eig_key (self w) ≠ "eig_backward".
Proof.
  intros [H | H].
  - apply Eigen_compute_inv in H as (e & w1 & -> & Hs & Ha & _).
    exists e. cbn. rewrite Hs, Ha. repeat split.
    + apply (eig_key_not_direction _ "forward"). set_solver.
    + apply (eig_key_not_direction _ "backward"). set_solver.
  - apply Schur_compute_inv in H as (g & evals & w1 & -> & Ha & Hc & Hk & _).
    eexists. cbn. rewrite Ha, (eig_key_congr _ _ Hc Hk). repeat split.
    + apply (eig_key_not_direction _ "forward"). set_solver.
    + apply (eig_key_not_direction _ "backward"). set_solver.
Qed.
End Both.

(** ** The partition after the specification *)

Lemma insert_class_nonempty comm i cs :
  Forall (λ c, c ≠ []) cs → Forall (λ c, c ≠ []) (insert_class comm i cs).
Proof.
  induction 1 as [| c cs Hc Hcs IH]; cbn.
  - repeat constructor. discriminate.
  - destruct (match c with [] => false | r :: _ => comm r i end).
    + constructor; [| exact Hcs]. destruct c; discriminate.
    + constructor; assumption.
Qed.

Lemma insert_class_concat comm i cs :
  concat (insert_class comm i cs) ≡ₚ i :: concat cs.
Proof.
  induction cs as [| c cs IH]; cbn.
  - reflexivity.
  - destruct (match c with [] => false | r :: _ => comm r i end); cbn.
    + rewrite <- (assoc_L (++)). cbn. rewrite <- Permutation_middle. reflexivity.
    + rewrite IH. rewrite <- Permutation_middle. reflexivity.
Qed.

Lemma classes_S comm k :
  classes comm (S k) = insert_class comm k (classes comm k).
Proof. unfold classes. rewrite seq_S, foldl_app. reflexivity. Qed.

Lemma classes_valid comm k : valid_partition k (classes comm k).
Proof.
  induction k as [| k [IH1 IH2]].
  - split; [constructor | reflexivity].
  - rewrite classes_S. split.
    + apply insert_class_nonempty, IH1.
    + rewrite insert_class_concat, IH2, seq_S. cbn.
      rewrite Permutation_cons_append. reflexivity.
Qed.

Lemma filter_bool_split {A} (f : A → bool) (l : list A) :
  filter (λ x, f x = true) l ++ filter (λ x, f x = false) l ≡ₚ l.
Proof.
  induction l as [| x l IH]; [reflexivity |].
  rewrite !filter_cons. destruct (f x) eqn:E.
  - rewrite decide_True by reflexivity. rewrite decide_False by discriminate.
    cbn. rewrite IH. reflexivity.
  - rewrite decide_False by discriminate. rewrite decide_True by reflexivity.
    rewrite <- Permutation_middle, IH. reflexivity.
Qed.

Lemma partition_spec_valid (T : TransitionMatrix) :
  valid_partition (length (entries T)) ((partition_spec T).1 ++ (partition_spec T).2).
Proof.
  unfold partition_spec, shape0. cbn [fst snd].
  set (n := length (entries T)).
  destruct (classes_valid (communicates (entries T) n) n) as [H1 H2].
  split.
  - rewrite filter_bool_split. exact H1.
  - rewrite filter_bool_split. exact H2.
Qed.

Lemma fully_connected_edge (T : matrix Q) i j :
  fully_connected T → (i < length T)%nat → (j < length T)%nat → edge T i j = true.
Proof.
  intros HT Hi Hj. unfold edge, entry, matrix in *. apply bool_decide_eq_true.
  destruct (lookup_lt_is_Some_2 T i Hi) as [r Hr]. rewrite Hr. cbn.
  unfold fully_connected in HT. rewrite Forall_forall in HT.
  destruct (HT r) as [Hlen Hpos]; [eapply list_elem_of_lookup_2, Hr |].
  destruct (lookup_lt_is_Some_2 r j) as [x Hx]; [lia |]. rewrite Hx. cbn.
  rewrite Forall_forall in Hpos. apply Hpos. eapply list_elem_of_lookup_2, Hx.
Qed.

Lemma fully_connected_communicates (T : matrix Q) i j :
  fully_connected T → (i < length T)%nat → (j < length T)%nat →
  communicates T (length T) i j = true.
Proof.
  intros HT Hi Hj.
  assert (Hreach : ∀ a b, (a < length T)%nat → (b < length T)%nat →
                          reach (length T) T (length T) a b = true).
  { intros a b Ha Hb. destruct (length T) as [| f] eqn:En; [lia |].
    cbn [reach]. apply orb_true_iff. right. apply existsb_exists.
    exists b. split.
    - apply list_elem_of_In, elem_of_seq. lia.
    - rewrite <- En in Ha, Hb. rewrite (fully_connected_edge T a b HT Ha Hb).
      cbn. destruct f; cbn; rewrite bool_decide_eq_true_2; reflexivity. }
  unfold communicates. rewrite !Hreach by assumption. reflexivity.
Qed.

Lemma classes_all_communicate comm n k :
  (∀ i j, (i < n)%nat → (j < n)%nat → comm i j = true) →
  (1 ≤ k ≤ n)%nat → classes comm k = [seq 0 k].
Proof.
  intros Hcomm [Hk Hkn]. induction k as [| k IH]; [lia |].
  destruct k as [| k'].
  - reflexivity.
  - rewrite classes_S, IH by lia. rewrite (seq_S (S k')).
    change (seq 0 (S k')) with (0%nat :: seq 1 k'). cbn [insert_class].
    rewrite Hcomm by lia. reflexivity.
Qed.

Lemma is_closed_all (T : matrix Q) n : is_closed T n (seq 0 n) = true.
Proof.
  unfold is_closed. apply forallb_forall. intros i _.
  apply forallb_forall. intros j Hj. apply orb_true_iff. right.
  apply bool_decide_eq_true, list_elem_of_In, Hj.
Qed.

Lemma partition_spec_fully_connected (T : TransitionMatrix) :
  fully_connected (entries T) → (1 ≤ length (entries T))%nat →
  partition_spec T = ([seq 0 (length (entries T))], []).
Proof.
  intros HT Hn. unfold partition_spec, shape0.
  rewrite (classes_all_communicate _ (length (entries T))).
  - rewrite !filter_cons, !filter_nil, is_closed_all.
    rewrite decide_True by reflexivity. rewrite decide_False by discriminate.
    reflexivity.
  - intros i j Hi Hj. apply fully_connected_communicates; assumption.
  - lia.
Qed.

Section PartitionerTheorems.
Variable partition : TransitionMatrix → list (list nat) * list (list nat).
Variable _make_cat : list (list nat) → nat → list string → Series.

Lemma compute_partition_run w rec trans :
  partition (transition_matrix (kernel (self w))) = (rec, trans) →
  compute_partition partition _make_cat w =
    (Ok (),
     let w1 := log_to INFO msg_communication w in
     if bool_decide (length rec = 1%nat) && bool_decide (length trans = 0%nat)
     then log_to WARNING msg_irreducible (with_self (set_is_irreducible true) w1)
     else log_to INFO (msg_found (length rec) (length trans))
            (with_self (set_rec_classes (_make_cat rec (len (self w)) (obs_names (adata w))))
              (with_self (set_trans_classes (_make_cat trans (len (self w)) (obs_names (adata w))))
                (with_self (set_is_irreducible false) w1)))).
Proof.
  intros Hp. unfold compute_partition.
  rewrite bind_run. cbn [logg]. rewrite bind_run. cbn [get_self log_to self].
  rewrite Hp.
  destruct (bool_decide (length rec = 1%nat) && bool_decide (length trans = 0%nat));
    reflexivity.
Qed.

(** C8: [compute_partition] always succeeds and sets [is_irreducible]; for
    classes that are not empty, the flag is true if and only if the
    computed partition has exactly one recurrent class and no transient
    state. *)
Theorem irreducible_iff_one_recurrent_class w rec trans :
  partition (transition_matrix (kernel (self w))) = (rec, trans) →
  Forall (λ c, c ≠ []) trans →
  ∃ w' b,
    compute_partition partition _make_cat w = (Ok (), w') ∧
    is_irreducible (self w') = Some b ∧
    (b = true ↔ length rec = 1%nat ∧ concat trans = []).
Proof.
  intros Hp Hne. rewrite (compute_partition_run w rec trans Hp). cbn zeta.
  destruct (bool_decide (length rec = 1%nat) && bool_decide (length trans = 0%nat)) eqn:E.
  - eexists _, true. split; [reflexivity |]. split; [reflexivity |].
    apply andb_true_iff in E as [E1 E2].
    apply bool_decide_eq_true in E1, E2.
    split; [| reflexivity]. intros _. split; [exact E1 |].
    destruct trans; [reflexivity | discriminate].
  - eexists _, false. split; [reflexivity |]. split; [reflexivity |].
    split; [discriminate |]. intros [H1 H2]. exfalso.
    assert (Ht : trans = []).
    { destruct trans as [| c trans]; [reflexivity |].
      inversion Hne as [| ? ? Hc _]; subst. destruct c; [contradiction | discriminate]. }
    subst trans. rewrite H1 in E. cbn in E.
    rewrite !bool_decide_eq_true_2 in E by reflexivity. discriminate.
Qed.
End PartitionerTheorems.
(** What [compute_partition] does on every chain.  It never fails.  With
    the classes of [partition], which form a valid partition of the states,
    it sets [is_irreducible]; [recurrent_classes] and [transient_classes]
    are assigned when the chain is not irreducible.  In the irreducible
    case (a fully connected graph gives [is_irreducible = True] with one
    recurrent class that holds all the states) the two are left as they
    were, unset on a new estimator, and a warning is logged, although the
    docstring of the method lists all three among the fields it updates. *)
Lemma compute_partition_populates_unless_irreducible
    (_make_cat : list (list nat) → nat → list string → Series) (w : World) :
  let T := transition_matrix (kernel (self w)) in
  let n := length (entries T) in
  ∃ w' irr,
    compute_partition partition_spec _make_cat w = (Ok (), w') ∧
    valid_partition n ((partition_spec T).1 ++ (partition_spec T).2) ∧
    is_irreducible (self w') = Some irr ∧
    (irr = true ↔ length (partition_spec T).1 = 1%nat ∧ (partition_spec T).2 = []) ∧
    (irr = false →
       recurrent_classes (self w')
         = Some (_make_cat (partition_spec T).1 n (obs_names (adata w))) ∧
       transient_classes (self w')
         = Some (_make_cat (partition_spec T).2 n (obs_names (adata w)))) ∧
    (irr = true →
       recurrent_classes (self w') = recurrent_classes (self w) ∧
       transient_classes (self w') = transient_classes (self w) ∧
       logged w' = logged w ++ [(INFO, msg_communication); (WARNING, msg_irreducible)]) ∧
    (fully_connected (entries T) → (1 ≤ n)%nat →
       irr = true ∧ (partition_spec T).1 = [seq 0 n]).
Proof.
  intros T n.
  destruct (partition_spec T) as [rec trans] eqn:Hp.
  rewrite (compute_partition_run partition_spec _make_cat w rec trans Hp).
  cbn zeta. cbn [fst snd].
  pose proof (partition_spec_valid T) as Hvalid. rewrite Hp in Hvalid.
  destruct (bool_decide (length rec = 1%nat) && bool_decide (length trans = 0%nat)) eqn:E.
  - apply andb_true_iff in E as [E1 E2].
    apply bool_decide_eq_true in E1, E2.
    assert (Ht : trans = []) by (destruct trans; [reflexivity | discriminate]).
    eexists _, true. split; [reflexivity |]. split; [exact Hvalid |].
    split; [reflexivity |]. split; [tauto |]. split; [discriminate |].
    split.
    + intros _. cbn. rewrite <- (assoc_L (++)). repeat split.
    + intros Hfull Hn. split; [reflexivity |].
      pose proof (partition_spec_fully_connected T Hfull Hn) as Hspec.
      rewrite Hp in Hspec. injection Hspec as H1 _. exact H1.
  - eexists _, false. split; [reflexivity |]. split; [exact Hvalid |].
    split; [reflexivity |]. split.
    { split; [discriminate |]. intros [H1 H2]. subst trans. rewrite H1 in E.
      cbn in E. rewrite !bool_decide_eq_true_2 in E by reflexivity. discriminate. }
    split; [intros _; split; reflexivity |]. split; [discriminate |].
    intros Hfull Hn. exfalso.
    pose proof (partition_spec_fully_connected T Hfull Hn) as Hspec.
    rewrite Hp in Hspec. injection Hspec as -> ->.
    cbn in E. rewrite !bool_decide_eq_true_2 in E by reflexivity. discriminate.
Qed.

(** ** The claims on the chains of the examples *)

(** What the tables of the solvers hold are eigenvectors and Schur forms of
    row-stochastic matrices. *)
Lemma tables_are_sound :
  row_stochasticb T_swap = true ∧ row_stochasticb T_tri = true ∧
  row_stochasticb T_cycle = true ∧ row_stochasticb T_gap = true ∧
  row_stochasticb T_full = true ∧
  is_eigensystem (transpose T_swap) T_swap_left = true ∧
  is_eigensystem T_swap T_swap_right = true ∧
  is_eigensystem (transpose T_tri) T_tri_left = true ∧
  is_eigensystem T_tri T_tri_right = true ∧
  is_eigensystem (transpose T_cycle) T_cycle_left_pair = true ∧
  is_eigensystem T_cycle T_cycle_right_pair = true ∧
  is_eigensystem (transpose T_gap) T_gap_top2 = true ∧
  is_eigensystem T_gap T_gap_top2 = true ∧
  is_schur_form T_cycle cycle_schur_form = true ∧
  is_schur_form T_gap gap_schur_form = true ∧
  eigenvalues_of_blocks (sf_R cycle_schur_form) (sf_eigenvalues cycle_schur_form) = true ∧
  eigenvalues_of_blocks (sf_R gap_schur_form) (sf_eigenvalues gap_schur_form) = true ∧
  transpose T_gap = T_gap ∧
  (∀ A k which ncv, (Z.of_nat (length A) - 1 ≤ k)%Z →
     table_eigs A k which ncv = Raise TypeError).
Proof.
  repeat split; try (vm_compute; reflexivity).
  intros A k which ncv Hk. unfold table_eigs. by rewrite decide_True.
Qed.

(** C1, counterexample: on the dense chain [T_swap] with
    [which = "LM"] the stored eigenvalues are 1, 1/2, -9/10, which is not
    descending by magnitude. *)
Lemma eigen_LM_not_sorted_by_magnitude :
  let r := Eigen._compute eigengap_spec table_eigs table_eig 3 LM 1 false None
             (new_world "Eigen" (kernel_of false T_swap)) in
  r.1 = Ok () ∧
  eig_D <$> _eig (self r.2) = Some swap_by_real_part ∧
  sorted_under LM swap_by_magnitude ∧
  ¬ sorted_under LM swap_by_real_part.
Proof.
  cbv zeta. split; [vm_compute; reflexivity |].
  split; [vm_compute; reflexivity |]. split.
  - apply (bool_decide_unpack _). vm_compute. exact I.
  - apply (bool_decide_unpack _). vm_compute. exact I.
Qed.

(** The theorem of C1 on the dense chain [T_swap] with [which = "LM"]. *)
Lemma eigen_sorted_by_real_part_witness :
  ∃ w' e p Vl' Vr',
    Eigen._compute eigengap_spec table_eigs table_eig 3 LM 1 false None
      (new_world "Eigen" (kernel_of false T_swap)) = (Ok (), w') ∧
    _eig (self w') = Some e ∧
    p ≡ₚ seq 0 (length T_swap_left.1) ∧
    fancy_index T_swap_left.1 p = Some (eig_D e) ∧
    take_columns T_swap_left.2 p = Some Vl' ∧ eig_V_l e = Some Vl' ∧
    take_columns T_swap_right.2 p = Some Vr' ∧ eig_V_r e = Some Vr' ∧
    eig_D e ≡ₚ T_swap_left.1 ∧
    sorted_under LR (eig_D e).
Proof.
  apply (eigen_sorted_by_real_part eigengap_spec table_eigs table_eig 3 LM 1 None
           (new_world "Eigen" (kernel_of false T_swap))
           T_swap_left.1 T_swap_left.2 T_swap_right.1 T_swap_right.2).
  - vm_compute. reflexivity.
  - vm_compute. reflexivity.
  - simpl. lia.
  - repeat constructor.
  - repeat constructor.
Defined.

(** C2, the code at a failing input: on the dense chain [T_swap] with
    [k = 2], the full path stores all three eigenvalues and eigenvectors
    with three columns, while the path with [only_evals] stores the top
    two. *)
Theorem eigen_dense_returns_all_eigenvalues :
  let w := new_world "Eigen" (kernel_of false T_swap) in
  let full := Eigen._compute eigengap_spec table_eigs table_eig 2 LR 1 false None w in
  let evals := Eigen._compute eigengap_spec table_eigs table_eig 2 LR 1 true None w in
  full.1 = Ok () ∧
  eig_D <$> _eig (self full.2) = Some swap_by_real_part ∧
  shape1 <$> (_eig (self full.2) ≫= eig_V_l) = Some 3%nat ∧
  shape1 <$> (_eig (self full.2) ≫= eig_V_r) = Some 3%nat ∧
  p_k ∘ eig_params <$> _eig (self full.2) = Some 2%Z ∧
  evals.1 = Ok () ∧
  eig_D <$> _eig (self evals.2) = Some (reals [1; 1#2]%Q).
Proof. vm_compute. repeat split. Qed.

(** C3, counterexample: on the sparse cycle, asked for two eigenvalues by
    magnitude, the solver may return the pair [i], [-i].  No returned
    eigenvalue is close to one, and a stationary distribution is stored all
    the same. *)
Lemma stationary_dist_without_eigenvalue_at_one :
  let r := Eigen._compute eigengap_spec table_eigs table_eig 2 LM 1 false None
             (new_world "Eigen" (kernel_of true T_cycle)) in
  r.1 = Ok () ∧
  eig_D <$> _eig (self r.2) = Some [cmi; ci] ∧
  existsb isclose_one [cmi; ci] = false ∧
  _eig (self r.2) ≫= eig_stationary_dist = Some [1#2; 0#2; 1#2; 0#2]%Q.
Proof. vm_compute. repeat split. Qed.

(** The theorem of C3 on the dense chain [T_swap]. *)
Lemma stationary_dist_of_largest_real_part_witness :
  ∃ w' e,
    Eigen._compute eigengap_spec table_eigs table_eig 3 LR 1 false None
      (new_world "Eigen" (kernel_of false T_swap)) = (Ok (), w') ∧
    _eig (self w') = Some e ∧
    ∃ j lam v,
      T_swap_left.1 !! j = Some lam ∧ eig_D e !! 0%nat = Some lam ∧
      (∀ z, z ∈ T_swap_left.1 → (re z <= re lam)%Q) ∧
      column j T_swap_left.2 = Some v ∧
      eig_stationary_dist e = Some (normalized_abs v) ∧
      (¬ (Qsum (Qabs <$> real v) == 0)%Q →
       Forall (λ x, (0 <= x)%Q) (normalized_abs v) ∧
       (Qsum (normalized_abs v) == 1)%Q).
Proof.
  apply (stationary_dist_of_largest_real_part eigengap_spec table_eigs table_eig
           3 LR 1 false None (new_world "Eigen" (kernel_of false T_swap))
           T_swap_left.1 T_swap_left.2 T_swap_right.1 T_swap_right.2).
  - vm_compute. reflexivity.
  - intros _. split; [vm_compute; reflexivity |].
    split; [simpl; lia |]. split; repeat constructor.
Defined.

(** The theorem of C4 on the cycle, where two components would split the
    block of [i] and [-i]: three are retained. *)
Lemma schur_retries_with_one_more_witness :
  let w := new_world "Schur" (kernel_of true T_cycle) in
  ∃ w' g X' R' e,
    Schur._compute eigengap_spec table_schur 2 None krylov LM 1 w = (Ok (), w') ∧
    do_schur_helper table_schur (made_gpcca w None LM krylov) 3 = Ok g ∧
    _gpcca (self w') = Some g ∧
    retained g = Some 3%nat ∧
    gp_X g = Some X' ∧ _schur (self w') = Some X' ∧
    Forall (λ r, length r = 3%nat) X' ∧
    gp_R g = Some R' ∧ _schur_mat (self w') = Some R' ∧
    shape0 R' = 3%nat ∧
    splits (sf_R cycle_schur_form) 3 = false ∧
    _eig (self w') = Some e ∧
    eig_D e = [of_real 1; ci; cmi] ∧
    logged w' = [(WARNING, msg_increase 2); (DEBUG, msg_adding (self w))].
Proof.
  exact (schur_retries_with_one_more eigengap_spec table_schur 2 None krylov LM 1
           (new_world "Schur" (kernel_of true T_cycle)) cycle_schur_form
           ltac:(lia) ltac:(simpl; lia) ltac:(vm_compute; reflexivity)
           ltac:(vm_compute; reflexivity) ltac:(vm_compute; reflexivity)).
Defined.

(** C5, the code at a failing input: on the dense chain [T_tri] with
    [k = 2], [alpha = 0] and [only_evals], the stored eigenvalues are the top
    two, 1 and 9/10, whose only gap is at position 0; the stored eigengap is
    that of the whole spectrum 1, 9/10, 1/10 the solver returned, position
    1.  Whatever [_eigengap] is, the dense path gives it the three real
    parts.  On the sparse path, taken on the chain [T_gap] with four
    states, where the sparse solver accepts [k = 2], the same call stores
    the same two eigenvalues and the eigengap of these two. *)
Theorem eigen_dense_evals_eigengap_of_whole_spectrum :
  let dense := Eigen._compute eigengap_spec table_eigs table_eig 2 LR 0 true None
                 (new_world "Eigen" (kernel_of false T_tri)) in
  let sparse := Eigen._compute eigengap_spec table_eigs table_eig 2 LR 0 true None
                  (new_world "Eigen" (kernel_of true T_gap)) in
  dense.1 = Ok () ∧
  eig_D <$> _eig (self dense.2) = Some (reals [1; 9#10]%Q) ∧
  eig_eigengap <$> _eig (self dense.2) = Some 1%nat ∧
  eigengap_spec (FloatArray [1; 9#10; 1#10]%Q) 0 = 1%nat ∧
  eigengap_spec (FloatArray [1; 9#10]%Q) 0 = 0%nat ∧
  sparse.1 = Ok () ∧
  eig_D <$> _eig (self sparse.2) = Some (reals [1; 9#10]%Q) ∧
  eig_eigengap <$> _eig (self sparse.2) = Some 0%nat ∧
  ∀ _eigengap : ndarray → Q → nat,
    eig_eigengap <$> _eig (self (Eigen._compute _eigengap table_eigs table_eig 2 LR 0
                                   true None (new_world "Eigen" (kernel_of false T_tri))).2)
      = Some (_eigengap (FloatArray [1; 9#10; 1#10]%Q) 0%Q) ∧
    eig_eigengap <$> _eig (self (Eigen._compute _eigengap table_eigs table_eig 2 LR 0
                                   true None (new_world "Eigen" (kernel_of true T_gap))).2)
      = Some (_eigengap (FloatArray [1; 9#10]%Q) 0%Q).
Proof. vm_compute. repeat split. Qed.

(** C6, the code at a failing input: [Schur._compute] with two components
    and [alpha = 0] on the chain [T_gap] retains the leading block of [R]
    with the diagonal 1, 9/10, stores the eigenvalues 1, 9/10 of its
    diagonal blocks and the eigengap of these two, position 0.
    [Eigen._compute] with [k = 2], [alpha = 0] and [only_evals] on the
    dense chain [T_tri] stores the same eigenvalues 1, 9/10 and the
    eigengap 1, that of the whole spectrum 1, 9/10, 1/10 the solver
    returned.  On its sparse path, on the chain [T_gap], [Eigen._compute]
    stores the same eigenvalues and the eigengap [Schur._compute] stores.
    Whatever [_eigengap] is, [Schur._compute] gives it the stored
    eigenvalues, the sparse path the real parts of the stored eigenvalues
    and the dense path three real parts for two stored eigenvalues. *)
Theorem schur_eigengap_differs_from_dense_evals :
  let schur := Schur._compute eigengap_spec table_schur 2 None krylov LM 0
                 (new_world "Schur" (kernel_of true T_gap)) in
  let sparse := Eigen._compute eigengap_spec table_eigs table_eig 2 LR 0 true None
                  (new_world "Eigen" (kernel_of true T_gap)) in
  let dense := Eigen._compute eigengap_spec table_eigs table_eig 2 LR 0 true None
                 (new_world "Eigen" (kernel_of false T_tri)) in
  schur.1 = Ok () ∧
  _schur_mat (self schur.2) = Some [[1; 0]; [0; 9#10]]%Q ∧
  eig_D <$> _eig (self schur.2) = Some (reals [1; 9#10]%Q) ∧
  eigenvalues_of_blocks [[1; 0]; [0; 9#10]]%Q (reals [1; 9#10]%Q) = true ∧
  p_alpha ∘ eig_params <$> _eig (self schur.2) = Some 0%Q ∧
  eig_eigengap <$> _eig (self schur.2) = Some 0%nat ∧
  sparse.1 = Ok () ∧
  eig_D <$> _eig (self sparse.2) = Some (reals [1; 9#10]%Q) ∧
  p_alpha ∘ eig_params <$> _eig (self sparse.2) = Some 0%Q ∧
  eig_eigengap <$> _eig (self sparse.2) = Some 0%nat ∧
  dense.1 = Ok () ∧
  eig_D <$> _eig (self dense.2) = Some (reals [1; 9#10]%Q) ∧
  p_alpha ∘ eig_params <$> _eig (self dense.2) = Some 0%Q ∧
  eig_eigengap <$> _eig (self dense.2) = Some 1%nat ∧
  ∀ _eigengap : ndarray → Q → nat,
    eig_eigengap <$> _eig (self (Schur._compute _eigengap table_schur 2 None krylov LM 0
                                   (new_world "Schur" (kernel_of true T_gap))).2)
      = Some (_eigengap (ComplexArray (reals [1; 9#10]%Q)) 0%Q) ∧
    eig_eigengap <$> _eig (self (Eigen._compute _eigengap table_eigs table_eig 2 LR 0
                                   true None (new_world "Eigen" (kernel_of true T_gap))).2)
      = Some (_eigengap (FloatArray [1; 9#10]%Q) 0%Q) ∧
    eig_eigengap <$> _eig (self (Eigen._compute _eigengap table_eigs table_eig 2 LR 0
                                   true None (new_world "Eigen" (kernel_of false T_tri))).2)
      = Some (_eigengap (FloatArray [1; 9#10; 1#10]%Q) 0%Q).
Proof. vm_compute. repeat split. Qed.

(** The agreement of the eigengaps on the chain [T_gap], with two
    components and the full sparse path of [Eigen._compute] asked for two
    eigenvalues. *)
Lemma eigengap_of_stored_eigenvalues_example :
  let wS := Schur._compute eigengap_spec table_schur 2 None krylov LM 1
              (new_world "Schur" (kernel_of true T_gap)) in
  let wE := Eigen._compute eigengap_spec table_eigs table_eig 2 LM 1 false None
              (new_world "Eigen" (kernel_of true T_gap)) in
  ∃ R' eS eE,
    _schur_mat (self wS.2) = Some R' ∧ _eig (self wS.2) = Some eS ∧
    eigenvalues_of_blocks R' (eig_D eS) = true ∧
    _eig (self wE.2) = Some eE ∧
    eig_D eS = reals [1; 9#10]%Q ∧ eig_D eE = reals [1; 9#10]%Q ∧
    eig_eigengap eS = eig_eigengap eE.
Proof.
  intros wS wE.
  destruct (eigengap_of_stored_eigenvalues eigengap_spec table_schur table_eigs table_eig
              2 None krylov LM 1 (new_world "Schur" (kernel_of true T_gap)) wS.2
              gap_schur_form
              2 LM false None (new_world "Eigen" (kernel_of true T_gap)) wE.2)
    as (R' & eS & eE & HR & HS & Hblocks & _ & HE & _ & _ & Hgap).
  - vm_compute. reflexivity.
  - vm_compute. reflexivity.
  - vm_compute. reflexivity.
  - vm_compute. reflexivity.
  - left. reflexivity.
  - exists R', eS, eE.
    assert (HDS : eig_D eS = reals [1; 9#10]%Q).
    { vm_compute in HS. injection HS as <-. reflexivity. }
    assert (HDE : eig_D eE = reals [1; 9#10]%Q).
    { vm_compute in HE. injection HE as <-. reflexivity. }
    repeat split; try assumption.
    apply Hgap; [intros zs a; reflexivity |].
    unfold real. rewrite HDS, HDE. reflexivity.
Qed.

(** The theorem of C7 with one and with two components. *)
Lemma schur_rejects_fewer_than_two_witness :
  let w := new_world "Schur" (kernel_of true T_cycle) in
  Schur._compute eigengap_spec table_schur 1 None krylov LM 1 w
    = (Raise (ValueError (msg_n_components 1)), w) ∧
  ∀ n' w', Schur._compute eigengap_spec table_schur 2 None krylov LM 1 w
             ≠ (Raise (ValueError (msg_n_components n')), w').
Proof.
  intros w. split.
  - apply (proj1 (schur_rejects_fewer_than_two eigengap_spec table_schur 1 None
                    krylov LM 1 w)). lia.
  - apply (proj2 (schur_rejects_fewer_than_two eigengap_spec table_schur 2 None
                    krylov LM 1 w)). lia.
Defined.

(** The theorem of C8 on the chain [T_tri], with one recurrent and two
    transient classes. *)
Lemma irreducible_iff_one_recurrent_class_witness :
  let w := new_world "Partitioner" (kernel_of false T_tri) in
  ∃ w' b,
    compute_partition partition_spec make_cat_model w = (Ok (), w') ∧
    is_irreducible (self w') = Some b ∧
    (b = true ↔ length [[0%nat]] = 1%nat ∧ concat [[1%nat]; [2%nat]] = []).
Proof.
  intros w.
  apply (irreducible_iff_one_recurrent_class partition_spec make_cat_model w
           [[0%nat]] [[1%nat]; [2%nat]]).
  - vm_compute. reflexivity.
  - repeat constructor; discriminate.
Defined.

(** C9, the code at a failing input: on the fully connected chain
    [T_full] a new estimator is found irreducible, with the one recurrent
    class of both states.  The call returns, but its [recurrent_classes]
    and [transient_classes] stay unset, and the warning that the matrix
    cannot be partitioned further is logged.  The docstring of
    [compute_partition] lists [recurrent_classes], [transient_classes] and
    [irreducible] as the fields the call updates. *)
Theorem compute_partition_leaves_classes_unset :
  let w := new_world "Partitioner" (kernel_of false T_full) in
  let r := compute_partition partition_spec make_cat_model w in
  r.1 = Ok () ∧
  partition_spec (transition_matrix (kernel (self w))) = ([[0; 1]%nat], []) ∧
  is_irreducible (self r.2) = Some true ∧
  recurrent_classes (self r.2) = None ∧
  transient_classes (self r.2) = None ∧
  logged r.2 = [(INFO, msg_communication); (WARNING, msg_irreducible)].
Proof. vm_compute. repeat split. Qed.

(** On the chain [T_tri], which is not irreducible, both are assigned. *)
Lemma compute_partition_populates_on_T_tri :
  let w := new_world "Partitioner" (kernel_of false T_tri) in
  ∃ w',
    compute_partition partition_spec make_cat_model w = (Ok (), w') ∧
    is_irreducible (self w') = Some false ∧
    recurrent_classes (self w') = Some [Some 0%nat; None; None] ∧
    transient_classes (self w') = Some [None; Some 0%nat; Some 1%nat].
Proof.
  intros w.
  destruct (compute_partition_populates_unless_irreducible make_cat_model w)
    as (w' & irr & Hrun & _ & Hirr & _ & Hpop & _).
  exists w'. split; [exact Hrun |].
  assert (Hfalse : irr = false).
  { rewrite (compute_partition_run partition_spec make_cat_model w
               [[0%nat]] [[1%nat]; [2%nat]] ltac:(vm_compute; reflexivity)) in Hrun.
    injection Hrun as <-. vm_compute in Hirr. congruence. }
  subst irr. split; [exact Hirr |].
  destruct (Hpop eq_refl) as [Hrec Htrans]. split.
  - rewrite Hrec. vm_compute. reflexivity.
  - rewrite Htrans. vm_compute. reflexivity.
Qed.

(** The theorem of C10 on the dense chain [T_swap]. *)
Lemma eig_written_under_method_key_witness :
  let w := new_world "Eigen" (kernel_of false T_swap) in
  let w' := (Eigen._compute eigengap_spec table_eigs table_eig 3 LR 1 false None w).2 in
  ∃ e, _eig (self w') = Some e ∧
       uns (adata w') = <[eig_key (self w) := e]> (uns (adata w)) ∧
       obs_names (adata w') = obs_names (adata w) ∧
       eig_key (self w) = "eig_<bound method KernelHolder._direction of "
                            +:+ repr (self w) +:+ ">" ∧
       eig_key (self w) ≠ "eig_forward" ∧ eig_key (self w) ≠ "eig_backward".
Proof.
  intros w w'.
  apply (eig_written_under_method_key eigengap_spec table_schur table_eigs table_eig
           3 LR 1 false None 2 None krylov LM w w').
  left. vm_compute. reflexivity.
Defined.

(** ** [_calculate_starts] *)

Lemma cumsum_from_length acc xs : length (cumsum_from acc xs) = length xs.
Proof. revert acc. induction xs as [| x xs IH]; intros acc; simpl; [done | by rewrite IH]. Qed.

Lemma cumsum_from_step acc xs j d :
  xs !! j = Some d →
  ∃ s s', (acc :: cumsum_from acc xs) !! j = Some s ∧
          (acc :: cumsum_from acc xs) !! S j = Some s' ∧ (s' - s = d)%Z.
Proof.
  revert acc j. induction xs as [| x xs IH]; intros acc j Hj; [done |].
  destruct j as [| j]; simpl in *.
  - injection Hj as ->. exists acc, (acc + d)%Z. repeat split; lia.
  - apply (IH (acc + x)%Z) in Hj. exact Hj.
Qed.

Lemma cumsum_from_sorted acc xs :
  Forall (λ x, 0 ≤ x)%Z xs → Sorted Z.le (acc :: cumsum_from acc xs).
Proof.
  revert acc. induction xs as [| x xs IH]; intros acc Hxs; simpl.
  - repeat constructor.
  - inversion Hxs as [| ? ? Hx Hxs']; subst.
    constructor; [apply IH, Hxs' |]. constructor. lia.
Qed.

Lemma Sorted_le_lookup (l : list Z) i a b :
  Sorted Z.le l → l !! i = Some a → l !! S i = Some b → (a ≤ b)%Z.
Proof.
  intros Hs. revert i. induction Hs as [| x l Hs IH Hhd]; intros i Ha Hb; [done |].
  destruct i as [| i]; simpl in *.
  - injection Ha as ->. destruct l as [| y l]; [done |].
    simpl in Hb. injection Hb as ->. by inversion Hhd.
  - eapply IH; eassumption.
Qed.

(** X1.  The positions [_calculate_starts] returns lay the selected rows
    out one after the other: there is one position more than rows, the
    first is 0, and the positions of row [j] and of the row after it differ
    by the number of entries [indptr[r + 1] - indptr[r]] of the row [r]
    selected at [j].  Over an index pointer that does not decrease the
    positions do not decrease either. *)
Theorem calculate_starts_layout (indptr : list Z) (ixs : list nat) (starts : list Z) :
  _calculate_starts indptr ixs = Returns starts →
  length starts = S (length ixs) ∧
  starts !! 0%nat = Some 0%Z ∧
  (∀ j r, ixs !! j = Some r →
     ∃ a b s s', indptr !! r = Some a ∧ indptr !! S r = Some b ∧
       starts !! j = Some s ∧ starts !! S j = Some s' ∧ (s' - s = b - a)%Z) ∧
  (Sorted Z.le indptr → Sorted Z.le starts).
Proof.
  unfold _calculate_starts.
  destruct (fancy_index indptr (S <$> ixs)) as [hi |] eqn:Hhi; [| done].
  destruct (fancy_index indptr ixs) as [lo |] eqn:Hlo; [| done].
  intros [= <-].
  apply fancy_index_spec in Hhi, Hlo.
  assert (Hlen_hi : length hi = length ixs).
  { apply Forall2_length in Hhi. by rewrite length_fmap in Hhi. }
  assert (Hlen_lo : length lo = length ixs).
  { by apply Forall2_length in Hlo. }
  assert (Hrow : ∀ j r, ixs !! j = Some r →
            ∃ a b, indptr !! r = Some a ∧ indptr !! S r = Some b ∧
                   zip_with Z.sub hi lo !! j = Some (b - a)%Z).
  { intros j r Hj.
    destruct (Forall2_lookup_l _ _ _ _ _ Hlo Hj) as (a & Ha & Hra).
    assert (Hj' : (S <$> ixs) !! j = Some (S r)) by (by rewrite list_lookup_fmap, Hj).
    destruct (Forall2_lookup_l _ _ _ _ _ Hhi Hj') as (b & Hb & Hrb).
    exists a, b. repeat split; [done | done |].
    rewrite lookup_zip_with, Hb. simpl. by rewrite Ha. }
  split; [| split; [| split]].
  - simpl. unfold np_cumsum. rewrite cumsum_from_length, length_zip_with. lia.
  - done.
  - intros j r Hj. destruct (Hrow j r Hj) as (a & b & Ha & Hb & Hd).
    destruct (cumsum_from_step 0 _ _ _ Hd) as (s & s' & Hs & Hs' & Heq).
    exists a, b, s, s'. done.
  - intros Hsorted. apply cumsum_from_sorted.
    apply Forall_lookup_2. intros j d Hd.
    assert (Hjlt : (j < length ixs)%nat).
    { apply lookup_lt_Some in Hd. rewrite length_zip_with in Hd. lia. }
    destruct (lookup_lt_is_Some_2 ixs j Hjlt) as [r Hr].
    destruct (Hrow j r Hr) as (a & b & Ha & Hb & Hd').
    rewrite Hd in Hd'. injection Hd' as ->.
    pose proof (Sorted_le_lookup _ _ _ _ Hsorted Ha Hb). lia.
Qed.

(** The theorem of X1 on the index pointer [0, 2, 3, 5] and the rows 1
    and 2. *)
Lemma calculate_starts_layout_witness :
  length [0; 1; 3]%Z = S (length [1; 2]%nat) ∧
  [0; 1; 3]%Z !! 0%nat = Some 0%Z ∧
  (∀ j r, [1; 2]%nat !! j = Some r →
     ∃ a b s s', [0; 2; 3; 5]%Z !! r = Some a ∧ [0; 2; 3; 5]%Z !! S r = Some b ∧
       [0; 1; 3]%Z !! j = Some s ∧ [0; 1; 3]%Z !! S j = Some s' ∧ (s' - s = b - a)%Z) ∧
  (Sorted Z.le [0; 2; 3; 5]%Z → Sorted Z.le [0; 1; 3]%Z).
Proof.
  exact (calculate_starts_layout [0; 2; 3; 5]%Z [1; 2]%nat [0; 1; 3]%Z
           ltac:(vm_compute; reflexivity)).
Defined.

Lemma fancy_index_seq_from {A} (pre a : list A) :
  fancy_index (pre ++ a) (seq (length pre) (length a)) = Some a.
Proof.
  revert pre. induction a as [| x a IH]; intros pre; [done |].
  unfold fancy_index in *. simpl.
  rewrite lookup_app_r by lia. rewrite Nat.sub_diag. simpl.
  specialize (IH (pre ++ [x])).
  rewrite length_app in IH. simpl in IH. rewrite Nat.add_1_r in IH.
  rewrite <- (assoc_L (++)) in IH. simpl in IH. by rewrite IH.
Qed.

Lemma cumsum_from_diffs (x : Z) (rest : list Z) :
  cumsum_from x (zip_with Z.sub rest (x :: rest)) = rest.
Proof.
  revert x. induction rest as [| y rest IH]; intros x; [done |].
  simpl. replace (x + (y - x))%Z with y by lia. by rewrite IH.
Qed.

(** X2.  Taken over all the rows in their own order, the positions are the
    index pointer itself: for an index pointer that starts at 0, as that of
    a sparse matrix does, [_calculate_starts(indptr, arange(n))] returns
    [indptr]. *)
Theorem calculate_starts_all_rows (rest : list Z) :
  _calculate_starts (0%Z :: rest) (seq 0 (length rest)) = Returns (0%Z :: rest).
Proof.
  unfold _calculate_starts.
  rewrite fmap_S_seq.
  pose proof (fancy_index_seq_from [0%Z] rest) as Hhi. simpl in Hhi. rewrite Hhi.
  assert (Hlo : fancy_index (0%Z :: rest) (seq 0 (length rest))
                = Some (take (length rest) (0%Z :: rest))).
  { apply fancy_index_spec. apply Forall2_same_length_lookup. split.
    - rewrite length_seq, length_take. simpl. lia.
    - intros i j x Hj Hx. apply lookup_seq in Hj as [-> Hlt]. simpl.
      apply lookup_take_Some in Hx as [Hx _]. exact Hx. }
  rewrite Hlo. f_equal. f_equal. unfold np_cumsum.
  assert (Hzip : zip_with Z.sub rest (take (length rest) (0%Z :: rest))
                 = zip_with Z.sub rest (0%Z :: rest)).
  { apply zip_with_take_r. }
  rewrite Hzip. apply cumsum_from_diffs.
Qed.

(** ** [_get_probs_for_zero_vec] and [_filter_kwargs] *)

Lemma Qsum_replicate (n : nat) (c : Q) :
  (Qsum (replicate n c) == inject_Z (Z.of_nat n) * c)%Q.
Proof.
  induction n as [| n IH].
  - simpl. ring.
  - change (replicate (S n) c) with (c :: replicate n c).
    change (Qsum (c :: replicate n c)) with (c + Qsum (replicate n c))%Q.
    rewrite IH, Nat2Z.inj_succ. unfold Z.succ. rewrite inject_Z_plus. ring.
Qed.

(** X3.  For a positive [size], [_get_probs_for_zero_vec] returns a
    probability vector and a vector of zeros of that size: every
    probability is [1 / size], is positive, and they sum to one. *)
Theorem get_probs_for_zero_vec_uniform (size : Z) :
  (0 < size)%Z →
  ∃ p z, _get_probs_for_zero_vec size = Ok (p, z) ∧
    length p = Z.to_nat size ∧ length z = Z.to_nat size ∧
    Forall (λ x, x = (1 / inject_Z size)%Q) p ∧
    Forall (λ x, (0 < x)%Q) p ∧
    (Qsum p == 1)%Q ∧
    Forall (λ x, x = 0%Q) z.
Proof.
  intros Hpos. unfold _get_probs_for_zero_vec, np_full.
  destruct (size <? 0)%Z eqn:Hneg; [lia |].
  eexists _, _. split; [reflexivity |].
  assert (Hsz : (0 < inject_Z size)%Q).
  { rewrite <- (Z2Nat.id size) by lia. unfold Qlt, inject_Z. simpl. lia. }
  rewrite fmap_replicate.
  split; [by rewrite length_replicate |].
  split; [by rewrite length_replicate |].
  split; [apply Forall_replicate; reflexivity |].
  split.
  - apply Forall_replicate. apply Qlt_shift_div_l; [exact Hsz |].
    rewrite Qmult_0_l. reflexivity.
  - split; [| apply Forall_replicate; reflexivity].
    rewrite Qsum_replicate, Z2Nat.id by lia. field.
    intros H0. rewrite H0 in Hsz. by apply Qlt_irrefl in Hsz.
Qed.

(** The theorem of X3 for a vector of four. *)
Lemma get_probs_for_zero_vec_uniform_witness :
  ∃ p z, _get_probs_for_zero_vec 4 = Ok (p, z) ∧
    length p = Z.to_nat 4 ∧ length z = Z.to_nat 4 ∧
    Forall (λ x, x = (1 / inject_Z 4)%Q) p ∧
    Forall (λ x, (0 < x)%Q) p ∧
    (Qsum p == 1)%Q ∧
    Forall (λ x, x = 0%Q) z.
Proof. exact (get_probs_for_zero_vec_uniform 4 ltac:(lia)). Defined.

(** X4.  [_filter_kwargs] keeps exactly the items whose key is a parameter
    of the function, in the order they were given and with their values;
    what it returns passes the filter unchanged, and where every key is a
    parameter nothing is dropped. *)
Theorem filter_kwargs_keeps_accepted {V} (sig : list string) (kwargs : list (string * V)) :
  (∀ k v, (k, v) ∈ _filter_kwargs sig kwargs ↔ (k, v) ∈ kwargs ∧ k ∈ sig) ∧
  sublist (_filter_kwargs sig kwargs) kwargs ∧
  (NoDup kwargs.*1 → NoDup (_filter_kwargs sig kwargs).*1) ∧
  _filter_kwargs sig (_filter_kwargs sig kwargs) = _filter_kwargs sig kwargs ∧
  (Forall (λ kv, kv.1 ∈ sig) kwargs → _filter_kwargs sig kwargs = kwargs).
Proof.
  unfold _filter_kwargs. split; [| split; [| split; [| split]]].
  - intros k v. rewrite list_elem_of_filter. simpl. tauto.
  - apply sublist_filter.
  - intros Hnd. eapply sublist_NoDup; [exact Hnd | apply fmap_sublist, sublist_filter].
  - induction kwargs as [| kv l IH]; [done |].
    rewrite filter_cons. destruct (decide (kv.1 ∈ sig)) as [Hin | Hout].
    + rewrite filter_cons. rewrite decide_True by done. by rewrite IH.
    + exact IH.
  - intros Hall. induction Hall as [| kv l Hkv Hall IH]; [done |].
    rewrite filter_cons, decide_True by done. by rewrite IH.
Qed.

(** The theorem of X4 on a call with one keyword the function takes and
    one it does not. *)
Lemma filter_kwargs_keeps_accepted_witness :
  _filter_kwargs ["x"; "y"] (_filter_kwargs ["x"; "y"] [("x", 1%Z); ("z", 2%Z)])
    = _filter_kwargs ["x"; "y"] [("x", 1%Z); ("z", 2%Z)].
Proof.
  exact (proj1 (proj2 (proj2 (proj2
    (filter_kwargs_keeps_accepted ["x"; "y"] [("x", 1%Z); ("z", 2%Z)]))))).
Defined.

(** ** Sparse matrices and [_reconstruct] *)

Lemma fancy_index_fmap {A B} (f : A → B) (l : list A) (p : list nat) :
  fancy_index (f <$> l) p = (λ l' : list A, f <$> l') <$> fancy_index l p.
Proof.
  unfold fancy_index. induction p as [| i p IH]; [done |].
  cbn. rewrite list_lookup_fmap. destruct (l !! i) as [x |]; [| done].
  cbn. cbn in IH. rewrite IH. by destruct (mapM (λ i, l !! i) p).
Qed.

Lemma fancy_index_compose {A} (l l1 : list A) (p a q : list nat) :
  fancy_index l p = Some l1 → fancy_index p a = Some q →
  fancy_index l1 a = fancy_index l q.
Proof.
  intros Hl. revert q. induction a as [| i a IH]; intros q Hq.
  - injection Hq as <-. done.
  - unfold fancy_index in Hq. cbn in Hq.
    destruct (p !! i) as [r |] eqn:Hr; [| done]. cbn in Hq.
    destruct (mapM (λ i, p !! i) a) as [q' |] eqn:Hq'; [| done].
    cbn in Hq. injection Hq as <-.
    specialize (IH q' Hq').
    unfold fancy_index in *. cbn.
    rewrite (fancy_index_lookup l l1 p i r Hl Hr).
    destruct (l !! r) as [x |]; [| done]. cbn. by rewrite IH.
Qed.

Lemma fancy_index_all {A} (l : list A) : fancy_index l (seq 0 (length l)) = Some l.
Proof. exact (fancy_index_seq_from [] l). Qed.

Lemma fancy_index_length {A} (l l' : list A) (p : list nat) :
  fancy_index l p = Some l' → length l' = length p.
Proof. intros H. unfold fancy_index in H. by apply length_mapM in H. Qed.

(** *** The running sums and the rows they cut *)

Lemma csr_rows_cons {A} s e rest (xs : list A) :
  csr_rows (s :: e :: rest) xs = take (e - s) (drop s xs) :: csr_rows (e :: rest) xs.
Proof. reflexivity. Qed.

Lemma row_nnz_cons s e rest :
  row_nnz (s :: e :: rest) = (e - s)%nat :: row_nnz (e :: rest).
Proof. reflexivity. Qed.

Lemma row_nnz_offsets acc lens : row_nnz (acc :: offsets_from acc lens) = lens.
Proof.
  revert acc. induction lens as [| n lens IH]; intros acc; [done |].
  cbn [offsets_from]. rewrite row_nnz_cons, IH. f_equal. lia.
Qed.

Lemma offsets_row_nnz s rest :
  Sorted le (s :: rest) → offsets_from s (row_nnz (s :: rest)) = rest.
Proof.
  revert s. induction rest as [| e rest IH]; intros s Hs; [done |].
  rewrite row_nnz_cons. cbn [offsets_from].
  inversion Hs as [| ? ? Hs' Hhd]; subst. inversion Hhd; subst.
  replace (s + (e - s))%nat with e by lia. by rewrite IH.
Qed.

Lemma length_offsets acc lens : length (offsets_from acc lens) = length lens.
Proof. revert acc. induction lens as [| n lens IH]; intros acc; simpl; [done | by rewrite IH]. Qed.

Lemma last_offsets {A} acc (rows : list (list A)) :
  last (acc :: offsets_from acc (length <$> rows)) = Some (acc + length (concat rows))%nat.
Proof.
  revert acc. induction rows as [| r rows IH]; intros acc.
  - simpl. f_equal. lia.
  - cbn [fmap list_fmap offsets_from concat].
    change (last (acc :: ?x :: ?l)) with (last (x :: l)).
    rewrite IH, length_app. f_equal. lia.
Qed.

(** Rows laid out one after the other are cut out again by their running
    sums, and so is any array of the same length, into rows of the same
    lengths. *)
Lemma csr_rows_chunks {A} (lens : list nat) (pre xs : list A) :
  length xs = sum_list lens →
  concat (csr_rows (length pre :: offsets_from (length pre) lens) (pre ++ xs)) = xs ∧
  length <$> csr_rows (length pre :: offsets_from (length pre) lens) (pre ++ xs) = lens.
Proof.
  revert pre xs. induction lens as [| n lens IH]; intros pre xs Hlen.
  - simpl in Hlen. apply nil_length_inv in Hlen. subst. done.
  - simpl in Hlen. cbn [offsets_from].
    rewrite csr_rows_cons.
    replace (length pre + n - length pre)%nat with n by lia.
    rewrite drop_app_length.
    assert (Hn : length (take n xs) = n) by (rewrite length_take; lia).
    specialize (IH (pre ++ take n xs) (drop n xs)).
    rewrite length_app, Hn, <- (assoc_L (++)), take_drop in IH.
    destruct IH as [IH1 IH2]; [rewrite length_drop; lia |].
    cbn [concat fmap list_fmap].
    rewrite IH1, IH2, take_drop, Hn. done.
Qed.

Lemma csr_rows_laid_out {A} (rows : list (list A)) :
  csr_rows (0%nat :: offsets_from 0 (length <$> rows)) (concat rows) = rows.
Proof.
  change 0%nat with (length (@nil A)).
  rewrite <- (app_nil_l (concat rows)) at 1.
  generalize (@nil A) as pre.
  induction rows as [| r rows IH]; intros pre; [done |].
  cbn [fmap list_fmap offsets_from concat].
  rewrite csr_rows_cons.
  replace (length pre + length r - length pre)%nat with (length r) by lia.
  rewrite drop_app_length, take_app_length. f_equal.
  specialize (IH (pre ++ r)). rewrite length_app, <- (assoc_L (++)) in IH. exact IH.
Qed.

Lemma Sorted_le_last s rest n :
  Sorted le (s :: rest) → last (s :: rest) = Some n → (s ≤ n)%nat.
Proof.
  revert s. induction rest as [| e rest IH]; intros s Hs Hl.
  - injection Hl as ->. done.
  - inversion Hs as [| ? ? Hs' Hhd]; subst. inversion Hhd; subst.
    change (last (s :: e :: rest)) with (last (e :: rest)) in Hl.
    specialize (IH e Hs' Hl). lia.
Qed.

(** The rows of a well-formed matrix have the lengths the index pointer
    gives them and make up the whole array. *)
Lemma csr_rows_wf {A} s rest n (xs : list A) :
  Sorted le (s :: rest) → last (s :: rest) = Some n → (n ≤ length xs)%nat →
  length <$> csr_rows (s :: rest) xs = row_nnz (s :: rest) ∧
  concat (csr_rows (s :: rest) xs) = take (n - s) (drop s xs).
Proof.
  revert s. induction rest as [| e rest IH]; intros s Hs Hl Hn.
  - injection Hl as ->. rewrite Nat.sub_diag. done.
  - inversion Hs as [| ? ? Hs' Hhd]; subst. inversion Hhd; subst.
    change (last (s :: e :: rest)) with (last (e :: rest)) in Hl.
    pose proof (Sorted_le_last _ _ _ Hs' Hl) as Hen.
    destruct (IH e Hs' Hl Hn) as [IH1 IH2].
    rewrite csr_rows_cons, row_nnz_cons. cbn [fmap list_fmap concat].
    rewrite IH1, IH2. split.
    + f_equal. rewrite length_take, length_drop. lia.
    + replace (n - s)%nat with ((e - s) + (n - e))%nat by lia.
      rewrite <- take_take_drop, drop_drop. do 3 f_equal. lia.
Qed.

(** *** Sorting a permutation of the rows *)

Lemma StronglySorted_seq (start n : nat) : StronglySorted le (seq start n).
Proof.
  revert start. induction n as [| n IH]; intros start; simpl; constructor.
  - apply IH.
  - apply Forall_forall. intros x Hx. apply elem_of_seq in Hx. lia.
Qed.

Lemma inject_nat_le (i j : nat) :
  (inject_Z (Z.of_nat i) <= inject_Z (Z.of_nat j))%Q → (i ≤ j)%nat.
Proof. rewrite <- Zle_Qle. lia. Qed.

Lemma StronglySorted_reflect {A B} (f : A → B) (R1 : relation A) (R2 : relation B)
    (l : list A) :
  (∀ x y, R2 (f x) (f y) → R1 x y) →
  StronglySorted R2 (f <$> l) → StronglySorted R1 l.
Proof.
  intros Hf. induction l as [| x l IH]; intros Hs; [constructor |].
  rewrite fmap_cons in Hs. inversion Hs as [| ? ? Hs' Hall]; subst.
  constructor; [apply IH, Hs' |].
  rewrite Forall_fmap in Hall. eapply Forall_impl; [exact Hall |].
  intros y Hy. apply Hf, Hy.
Qed.

(** Indexing a permutation of [0 .. n-1] by its [np.argsort] gives
    [0 .. n-1]: the argsort is its inverse. *)
Lemma argsort_inverts_r (p : list nat) n :
  p ≡ₚ seq 0 n → fancy_index p (np_argsort_int p) = Some (seq 0 n).
Proof.
  intros Hp. unfold np_argsort_int.
  set (q := λ i : nat, inject_Z (Z.of_nat i)).
  set (keys := q <$> p).
  assert (Hperm : np_argsort keys ≡ₚ seq 0 (length p)).
  { rewrite np_argsort_perm. unfold keys. by rewrite length_fmap. }
  destruct (fancy_index_in_range p (np_argsort keys)) as (b & Hb & _).
  { eapply perm_seq_in_range, Hperm. }
  transitivity (Some b); [exact Hb |]. f_equal.
  apply (StronglySorted_unique le).
  - apply (StronglySorted_reflect q le Qle); [apply inject_nat_le |].
    assert (Hkeys : fancy_index keys (np_argsort keys) = Some (q <$> b)).
    { pose proof (fancy_index_fmap q p (np_argsort keys)) as Hf.
      rewrite Hb in Hf. exact Hf. }
    assert (Heq : q <$> b = key_at keys <$> np_argsort keys).
    { apply list_eq. intros i. rewrite (list_lookup_fmap (key_at keys)).
      destruct (np_argsort keys !! i) as [j |] eqn:Hj; simpl.
      - rewrite (fancy_index_lookup _ _ _ _ _ Hkeys Hj).
        assert (Hjlt : (j < length keys)%nat).
        { assert (Hin : j ∈ np_argsort keys) by (eapply list_elem_of_lookup_2, Hj).
          rewrite np_argsort_perm in Hin. apply elem_of_seq in Hin. lia. }
        destruct (lookup_lt_is_Some_2 keys j Hjlt) as [x Hx].
        rewrite Hx. f_equal. unfold key_at. symmetry.
        apply nth_lookup_Some with (d := 0%Q) in Hx. exact Hx.
      - apply lookup_ge_None. apply lookup_ge_None in Hj.
        apply fancy_index_length in Hkeys. lia. }
    rewrite Heq.
    apply StronglySorted_fmap with (R1 := key_le keys); [| apply np_argsort_sorted].
    intros i j Hij. exact Hij.
  - apply StronglySorted_seq.
  - rewrite <- Hp. eapply fancy_index_perm; [| exact Hb]. exact Hperm.
Qed.

Lemma argsort_inverts_l (p : list nat) n :
  p ≡ₚ seq 0 n → fancy_index (np_argsort_int p) p = Some (seq 0 n).
Proof.
  intros Hp. pose proof (argsort_inverts_r p n Hp) as Hr.
  assert (Hlen : length p = n).
  { apply Permutation_length in Hp. by rewrite length_seq in Hp. }
  assert (Ha : np_argsort_int p ≡ₚ seq 0 n).
  { unfold np_argsort_int. rewrite np_argsort_perm, length_fmap, Hlen. done. }
  apply fancy_index_spec. apply Forall2_same_length_lookup. split.
  - by rewrite length_seq.
  - intros j r x Hj Hx. apply lookup_seq in Hx as [-> Hjn]. simpl.
    assert (Hin : j ∈ np_argsort_int p).
    { rewrite Ha. apply elem_of_seq. lia. }
    apply list_elem_of_lookup in Hin as [i Hi].
    assert (Hiseq : seq 0 n !! i = Some i).
    { apply lookup_seq. split; [done |].
      apply lookup_lt_Some in Hi. apply Permutation_length in Ha.
      rewrite length_seq in Ha. lia. }
    pose proof (fancy_index_lookup _ _ _ _ _ Hr Hi) as Hpi.
    rewrite Hiseq, Hj in Hpi. injection Hpi as <-. exact Hi.
Qed.

(** *** Rows in a given order *)

Lemma concat_Permutation {A} (ls ls' : list (list A)) :
  ls ≡ₚ ls' → concat ls ≡ₚ concat ls'.
Proof.
  induction 1 as [| l ls ls' _ IH | l1 l2 ls | ls1 ls2 ls3 _ IH1 _ IH2]; simpl.
  - done.
  - by rewrite IH.
  - rewrite !(assoc_L (++)). by rewrite (comm (++) l2 l1).
  - by rewrite IH1.
Qed.

Lemma length_concat_sum {A} (ls : list (list A)) :
  length (concat ls) = sum_list (length <$> ls).
Proof. induction ls as [| l ls IH]; simpl; [done |]. rewrite length_app, IH. done. Qed.

Lemma max_list_Permutation (l l' : list nat) : l ≡ₚ l' → max_list l = max_list l'.
Proof.
  induction 1 as [| x l l' _ IH | x y l | l1 l2 l3 _ IH1 _ IH2]; simpl; lia.
Qed.

Lemma csr_wf_laid_out (m : csr_matrix) :
  csr_wf m →
  m = laid_out (csr_rows (csr_indptr m) (csr_indices m)) (csr_data m) (csr_ncols m) ∧
  length (csr_rows (csr_indptr m) (csr_indices m)) = csr_shape0 m.
Proof.
  intros (Hhd & Hs & Hl & Hd). destruct m as [d ix ip nc]. simpl in *.
  destruct ip as [| s rest]; [done |]. injection Hhd as ->.
  destruct (csr_rows_wf 0 rest (length ix) ix Hs Hl ltac:(lia)) as [H1 H2].
  rewrite Nat.sub_0_r, drop_0, firstn_all in H2.
  unfold laid_out. rewrite H1, H2, (offsets_row_nnz 0 rest Hs). split; [done |].
  unfold csr_rows, csr_shape0. rewrite length_zip_with.
  cbn [length tail csr_indptr]. lia.
Qed.

Lemma getrows_laid_out (ri : list (list nat)) (d : list Q) (ncols : nat) (a : list nat) :
  length d = length (concat ri) →
  Forall (λ i, i < length ri)%nat a →
  let chunks := csr_rows (0%nat :: offsets_from 0 (length <$> ri)) d in
  ∃ ri2 rd2,
    fancy_index ri a = Some ri2 ∧ fancy_index chunks a = Some rd2 ∧
    concat chunks = d ∧ length <$> chunks = length <$> ri ∧
    length <$> rd2 = length <$> ri2 ∧
    csr_getrows (laid_out ri d ncols) a = Some (laid_out ri2 (concat rd2) ncols).
Proof.
  intros Hd Ha chunks.
  destruct (csr_rows_chunks (length <$> ri) [] d) as [Hc1 Hc2].
  { rewrite Hd. apply length_concat_sum. }
  simpl in Hc1, Hc2. fold chunks in Hc1, Hc2.
  assert (Hlen_chunks : length chunks = length ri).
  { apply (f_equal length) in Hc2. by rewrite !length_fmap in Hc2. }
  destruct (fancy_index_in_range ri a Ha) as (ri2 & Hri2 & _).
  destruct (fancy_index_in_range chunks a) as (rd2 & Hrd2 & _).
  { by rewrite Hlen_chunks. }
  assert (Hlens : length <$> rd2 = length <$> ri2).
  { assert (H1 : fancy_index (length <$> chunks) a = Some (length <$> rd2)).
    { by rewrite fancy_index_fmap, Hrd2. }
    assert (H2 : fancy_index (length <$> ri) a = Some (length <$> ri2)).
    { by rewrite fancy_index_fmap, Hri2. }
    rewrite Hc2, H2 in H1. by injection H1. }
  exists ri2, rd2. repeat split; try done.
  unfold csr_getrows, laid_out. simpl.
  rewrite row_nnz_offsets, fancy_index_fmap, Hri2. simpl.
  rewrite csr_rows_laid_out, Hri2. simpl.
  fold chunks. rewrite Hrd2. simpl. done.
Qed.

Lemma new_csr_laid_out (ri : list (list nat)) (d : list Q) :
  concat ri ≠ [] → length d = length (concat ri) →
  new_csr d (concat ri) (0%nat :: offsets_from 0 (length <$> ri))
    = Ok (laid_out ri d (S (max_list (concat ri)))).
Proof.
  intros Hne Hd. unfold new_csr.
  destruct (concat ri) as [| i l] eqn:Hc; [done |].
  rewrite <- Hc in *. rewrite last_offsets. simpl.
  rewrite (bool_decide_true (length (concat ri) = length d)) by done.
  rewrite (bool_decide_true (length (concat ri) ≤ length (concat ri))%nat) by done.
  simpl. rewrite firstn_all. rewrite <- Hd, firstn_all. done.
Qed.

Section ReconstructTheorems.
Variable getitem_None : csr_matrix → outcome csr_matrix.

(** What [_reconstruct] makes of one array of values over the rows of a
    well-formed matrix sorted by a permutation [p]. *)
Lemma reconstruct_one (d : list Q) (mat : csr_matrix) (p : list nat) :
  csr_wf mat → csr_indices mat ≠ [] → length d = csr_nnz mat →
  p ≡ₚ seq 0 (csr_shape0 mat) →
  ∃ sorted m0 m,
    csr_getrows mat p = Some sorted ∧
    new_csr d (csr_indices sorted) (csr_indptr sorted) = Ok m0 ∧
    csr_shape0 m0 = length p ∧
    csr_getrows m0 (np_argsort_int p) = Some m ∧
    csr_indptr m = csr_indptr mat ∧ csr_indices m = csr_indices mat ∧
    csr_ncols m = S (max_list (csr_indices mat)) ∧
    ∃ rd, fancy_index (csr_rows (csr_indptr m) (csr_data m)) p = Some rd ∧ concat rd = d.
Proof.
  intros Hwf Hne Hd Hp.
  destruct (csr_wf_laid_out mat Hwf) as [Hmat Hrows].
  set (Ri := csr_rows (csr_indptr mat) (csr_indices mat)) in *.
  assert (Hnnz : csr_nnz mat = length (csr_indices mat)).
  { destruct Hwf as (_ & _ & Hl & _). unfold csr_nnz. by rewrite Hl. }
  assert (Hidx : csr_indices mat = concat Ri).
  { rewrite Hmat at 1. done. }
  assert (Hlenp : length p = length Ri).
  { apply Permutation_length in Hp. rewrite length_seq in Hp. lia. }
  assert (Hp' : p ≡ₚ seq 0 (length Ri)) by (by rewrite Hrows).
  (* the rows in the order [p] *)
  destruct (getrows_laid_out Ri (csr_data mat) (csr_ncols mat) p)
    as (ri1 & rd1 & Hri1 & _ & _ & _ & _ & Hsorted).
  { destruct Hwf as (_ & _ & _ & Hdl). by rewrite Hdl, Hidx. }
  { eapply perm_seq_in_range, Hp'. }
  rewrite <- Hmat in Hsorted.
  assert (Hperm1 : ri1 ≡ₚ Ri) by (eapply fancy_index_perm; eassumption).
  assert (Hc1 : concat ri1 ≡ₚ concat Ri) by (by apply concat_Permutation).
  assert (Hlen1 : length ri1 = length p) by (eapply fancy_index_length, Hri1).
  (* the matrix over the values [d] *)
  assert (Hd1 : length d = length (concat ri1)).
  { rewrite Hd, Hnnz, Hidx. by rewrite Hc1. }
  assert (Hne1 : concat ri1 ≠ []).
  { intros Hnil. rewrite Hnil in Hc1. symmetry in Hc1.
    apply Permutation_nil_r in Hc1. rewrite <- Hidx in Hc1. done. }
  pose proof (new_csr_laid_out ri1 d Hne1 Hd1) as Hnew.
  (* back into the order of the matrix *)
  set (a := np_argsort_int p).
  assert (Ha : a ≡ₚ seq 0 (length ri1)).
  { unfold a, np_argsort_int. rewrite np_argsort_perm, length_fmap, Hlen1. done. }
  destruct (getrows_laid_out ri1 d (S (max_list (concat ri1))) a Hd1)
    as (ri2 & rd2 & Hri2 & Hrd2 & Hchunks & Hclens & Hlens2 & Hback).
  { eapply perm_seq_in_range, Ha. }
  set (chunks := csr_rows (0%nat :: offsets_from 0 (length <$> ri1)) d) in *.
  assert (Hpa : fancy_index p a = Some (seq 0 (length Ri))) by (by apply argsort_inverts_r).
  assert (Hap : fancy_index a p = Some (seq 0 (length Ri))) by (by apply argsort_inverts_l).
  assert (Hri2_eq : ri2 = Ri).
  { pose proof (fancy_index_compose Ri ri1 p a _ Hri1 Hpa) as Hc.
    rewrite Hri2, fancy_index_all in Hc. by injection Hc. }
  exists (laid_out ri1 (concat rd1) (csr_ncols mat)),
         (laid_out ri1 d (S (max_list (concat ri1)))),
         (laid_out ri2 (concat rd2) (S (max_list (concat ri1)))).
  split; [exact Hsorted |]. split; [exact Hnew |].
  split.
  { unfold csr_shape0, laid_out. simpl. rewrite length_offsets, length_fmap. lia. }
  split; [exact Hback |].
  subst ri2.
  split.
  { transitivity (csr_indptr (laid_out Ri (csr_data mat) (csr_ncols mat)));
      [done | by rewrite <- Hmat]. }
  split.
  { transitivity (csr_indices (laid_out Ri (csr_data mat) (csr_ncols mat)));
      [done | by rewrite <- Hmat]. }
  split.
  { simpl. f_equal. rewrite Hidx. by apply max_list_Permutation. }
  exists chunks. split; [| exact Hchunks].
  simpl. rewrite <- Hlens2, csr_rows_laid_out.
  rewrite (fancy_index_compose chunks rd2 a p _ Hrd2 Hap).
  assert (Hlc : length chunks = length Ri).
  { apply (f_equal length) in Hclens. rewrite !length_fmap in Hclens. lia. }
  rewrite <- Hlc. apply fancy_index_all.
Qed.

(** X5.  Over a well-formed matrix with a stored entry, whose rows were
    sorted by a permutation [ixs] when the values were computed,
    [_reconstruct_matrices] returns two matrices with the index pointer
    and the columns of the matrix itself: the order of the rows is
    restored.  Read in the order [ixs], the rows of the first hold the
    values [data[0]] and those of the second the values [data[1]], as they
    were given.  The number of columns is one more than the largest column
    stored, whatever that of the matrix is. *)
Theorem reconstruct_restores_row_order (d0 d1 : list Q) (mat : csr_matrix) (p : list nat) :
  csr_wf mat → csr_indices mat ≠ [] →
  length d0 = csr_nnz mat → length d1 = csr_nnz mat →
  p ≡ₚ seq 0 (csr_shape0 mat) →
  ∃ probs cors,
    _reconstruct_matrices getitem_None (Data2 [d0; d1]) mat (Some p)
      = Returns (Pair probs cors) ∧
    csr_indptr probs = csr_indptr mat ∧ csr_indices probs = csr_indices mat ∧
    csr_indptr cors = csr_indptr mat ∧ csr_indices cors = csr_indices mat ∧
    (∃ rd, fancy_index (csr_rows (csr_indptr probs) (csr_data probs)) p = Some rd ∧
           concat rd = d0) ∧
    (∃ rd, fancy_index (csr_rows (csr_indptr cors) (csr_data cors)) p = Some rd ∧
           concat rd = d1) ∧
    csr_ncols probs = S (max_list (csr_indices mat)) ∧
    csr_ncols cors = S (max_list (csr_indices mat)).
Proof.
  intros Hwf Hne Hd0 Hd1 Hp.
  destruct (reconstruct_one d0 mat p Hwf Hne Hd0 Hp)
    as (sorted & m0 & probs & Hsorted & Hnew0 & Hshape0 & Hback0 & Hip0 & Hix0 & Hnc0 & Hrd0).
  destruct (reconstruct_one d1 mat p Hwf Hne Hd1 Hp)
    as (sorted' & m1 & cors & Hsorted' & Hnew1 & Hshape1 & Hback1 & Hip1 & Hix1 & Hnc1 & Hrd1).
  rewrite Hsorted in Hsorted'. injection Hsorted' as <-.
  exists probs, cors. repeat split; try assumption.
  unfold _reconstruct_matrices, _reconstruct, data_shape_ok, getitem. simpl.
  rewrite !bool_decide_true by done. simpl.
  assert (Hlenp : length p = csr_shape0 mat).
  { apply Permutation_length in Hp. by rewrite length_seq in Hp. }
  rewrite (bool_decide_true (length p = csr_shape0 mat)) by done. simpl.
  rewrite Hsorted, Hnew0, Hnew1.
  rewrite (bool_decide_true (length p = csr_shape0 m0)) by done. simpl.
  rewrite Hback0, Hback1. done.
Qed.

(** X6.  A matrix without a stored entry is not reconstructed: the arrays
    of values are empty and pass the assertion on their shape, and the
    constructor of the sparse matrix, given no shape, fails with a
    ValueError. *)
Theorem reconstruct_fails_without_entries (mat : csr_matrix) (ixs : option (list nat)) :
  csr_wf mat → csr_indices mat = [] →
  (∀ p, ixs = Some p → p ≡ₚ seq 0 (csr_shape0 mat)) →
  _reconstruct_matrices getitem_None (Data2 [[]; []]) mat ixs
    = Fails (Builtin (ValueError "unable to infer matrix dimensions")).
Proof.
  intros Hwf Hnil Hixs.
  assert (Hnnz : csr_nnz mat = 0%nat).
  { destruct Hwf as (_ & _ & Hl & _). unfold csr_nnz. by rewrite Hl, Hnil. }
  unfold _reconstruct_matrices, _reconstruct, data_shape_ok, getitem. simpl.
  rewrite Hnnz. simpl.
  destruct ixs as [p |]; simpl.
  - specialize (Hixs p eq_refl).
    assert (Hlenp : length p = csr_shape0 mat).
    { apply Permutation_length in Hixs. by rewrite length_seq in Hixs. }
    rewrite (bool_decide_true (length p = csr_shape0 mat)) by done. simpl.
    destruct (csr_wf_laid_out mat Hwf) as [Hmat Hrows].
    set (Ri := csr_rows (csr_indptr mat) (csr_indices mat)) in *.
    destruct (getrows_laid_out Ri (csr_data mat) (csr_ncols mat) p)
      as (ri1 & rd1 & Hri1 & _ & _ & _ & _ & Hsorted).
    { destruct Hwf as (_ & _ & _ & Hdl). rewrite Hdl.
      transitivity (length (csr_indices (laid_out Ri (csr_data mat) (csr_ncols mat))));
        [by rewrite <- Hmat | done]. }
    { eapply perm_seq_in_range. by rewrite Hrows. }
    rewrite <- Hmat in Hsorted. rewrite Hsorted. simpl.
    assert (Hc : concat ri1 = []).
    { assert (Hperm1 : ri1 ≡ₚ Ri).
      { eapply fancy_index_perm; [| exact Hri1]. by rewrite Hrows. }
      apply concat_Permutation in Hperm1.
      assert (Hidx : concat Ri = []).
      { transitivity (csr_indices (laid_out Ri (csr_data mat) (csr_ncols mat)));
          [done | by rewrite <- Hmat]. }
      rewrite Hidx in Hperm1. by apply Permutation_nil_r in Hperm1. }
    rewrite Hc. done.
  - rewrite Hnil. done.
Qed.
End ReconstructTheorems.

Lemma cumsum_from_offsets (acc : nat) (lens : list nat) :
  cumsum_from (Z.of_nat acc) (Z.of_nat <$> lens) = Z.of_nat <$> offsets_from acc lens.
Proof.
  revert acc. induction lens as [| n lens IH]; intros acc; [done |].
  simpl. rewrite <- Nat2Z.inj_add, IH. done.
Qed.

Lemma Sorted_le_lookup_nat (l : list nat) i a b :
  Sorted le l → l !! i = Some a → l !! S i = Some b → (a ≤ b)%nat.
Proof.
  intros Hs. revert i. induction Hs as [| x l Hs IH Hhd]; intros i Ha Hb; [done |].
  destruct i as [| i]; simpl in *.
  - injection Ha as ->. destruct l as [| y l]; [done |].
    simpl in Hb. injection Hb as ->. by inversion Hhd.
  - eapply IH; eassumption.
Qed.

(** X7.  The positions [_calculate_starts] computes from the index pointer
    of a sparse matrix for the rows [ixs] are the index pointer of
    [mat[ixs]], the matrix of these rows that [_reconstruct] lays the
    values over. *)
Theorem calculate_starts_is_index_pointer (mat sorted : csr_matrix) (ixs : list nat) :
  Sorted le (csr_indptr mat) →
  csr_getrows mat ixs = Some sorted →
  _calculate_starts (Z.of_nat <$> csr_indptr mat) ixs
    = Returns (Z.of_nat <$> csr_indptr sorted).
Proof.
  intros Hs Hget. unfold csr_getrows in Hget.
  destruct (fancy_index (row_nnz (csr_indptr mat)) ixs) as [lens |] eqn:Hlens; [| done].
  simpl in Hget.
  destruct (fancy_index (csr_rows _ (csr_indices mat)) ixs) as [ri |]; [| done].
  simpl in Hget.
  destruct (fancy_index (csr_rows _ (csr_data mat)) ixs) as [rd |]; [| done].
  simpl in Hget. injection Hget as <-. simpl.
  set (ip := csr_indptr mat) in *.
  assert (Hrow : ∀ j r, ixs !! j = Some r →
            ∃ s e, ip !! r = Some s ∧ ip !! S r = Some e ∧ (s ≤ e)%nat ∧
                   lens !! j = Some (e - s)%nat).
  { intros j r Hj.
    apply fancy_index_spec in Hlens.
    destruct (Forall2_lookup_l _ _ _ _ _ Hlens Hj) as (n & Hn & Hrn).
    unfold row_nnz in Hrn. apply lookup_zip_with_Some in Hrn as (s & e & -> & Hs' & He).
    rewrite lookup_tail in He.
    exists s, e. repeat split; try done.
    eapply Sorted_le_lookup_nat; eassumption. }
  assert (Hlen : length lens = length ixs) by (eapply fancy_index_length, Hlens).
  unfold _calculate_starts.
  assert (Hhi : fancy_index (Z.of_nat <$> ip) (S <$> ixs)
                = Some ((λ j, Z.of_nat (default 0%nat (ip !! S j))) <$> ixs)).
  { apply fancy_index_spec. apply Forall2_fmap. apply Forall2_same_length_lookup.
    split; [done |]. intros j r r' Hj Hj'. rewrite Hj in Hj'. injection Hj' as <-.
    destruct (Hrow j r Hj) as (s & e & Hs' & He & _ & _).
    rewrite list_lookup_fmap, He. done. }
  assert (Hlo : fancy_index (Z.of_nat <$> ip) ixs
                = Some ((λ j, Z.of_nat (default 0%nat (ip !! j))) <$> ixs)).
  { apply fancy_index_spec. apply Forall2_fmap_r. apply Forall2_same_length_lookup.
    split; [done |]. intros j r r' Hj Hj'. rewrite Hj in Hj'. injection Hj' as <-.
    destruct (Hrow j r Hj) as (s & e & Hs' & He & _ & _).
    simpl. rewrite list_lookup_fmap, Hs'. done. }
  rewrite Hhi, Hlo. f_equal. f_equal.
  assert (Hdiff : zip_with Z.sub ((λ j, Z.of_nat (default 0%nat (ip !! S j))) <$> ixs)
                    ((λ j, Z.of_nat (default 0%nat (ip !! j))) <$> ixs)
                  = Z.of_nat <$> lens).
  { apply list_eq. intros j. rewrite lookup_zip_with, !list_lookup_fmap.
    destruct (ixs !! j) as [r |] eqn:Hj; simpl.
    - destruct (Hrow j r Hj) as (s & e & Hs' & He & Hle & Hl).
      rewrite Hs', He, Hl. simpl. f_equal. lia.
    - assert (Hnone : lens !! j = None).
      { apply lookup_ge_None. apply lookup_ge_None in Hj. lia. }
      by rewrite Hnone. }
  unfold np_cumsum. rewrite Hdiff.
  apply (cumsum_from_offsets 0).
Qed.

Lemma csr_example_wf : csr_wf csr_example.
Proof. repeat split; repeat constructor. Qed.

Lemma csr_no_entries_wf : csr_wf csr_no_entries.
Proof. repeat split; repeat constructor. Qed.

(** The theorem of X5 on the matrix of the examples, its rows sorted as
    2, 0, 1. *)
Lemma reconstruct_restores_row_order_witness :
  ∃ probs cors,
    _reconstruct_matrices getitem_None_fails
        (Data2 [[1; 2; 3; 4; 5]; [6; 7; 8; 9; 10]]%Q) csr_example (Some [2; 0; 1]%nat)
      = Returns (Pair probs cors) ∧
    csr_indptr probs = csr_indptr csr_example ∧
    csr_indices probs = csr_indices csr_example ∧
    csr_indptr cors = csr_indptr csr_example ∧
    csr_indices cors = csr_indices csr_example ∧
    (∃ rd, fancy_index (csr_rows (csr_indptr probs) (csr_data probs)) [2; 0; 1]%nat = Some rd ∧
           concat rd = [1; 2; 3; 4; 5]%Q) ∧
    (∃ rd, fancy_index (csr_rows (csr_indptr cors) (csr_data cors)) [2; 0; 1]%nat = Some rd ∧
           concat rd = [6; 7; 8; 9; 10]%Q) ∧
    csr_ncols probs = S (max_list (csr_indices csr_example)) ∧
    csr_ncols cors = S (max_list (csr_indices csr_example)).
Proof.
  exact (reconstruct_restores_row_order getitem_None_fails
           [1; 2; 3; 4; 5]%Q [6; 7; 8; 9; 10]%Q csr_example [2; 0; 1]%nat
           csr_example_wf ltac:(discriminate) ltac:(reflexivity) ltac:(reflexivity)
           ltac:(simpl; solve_Permutation)).
Defined.

(** The theorem of X6 on the matrix with no stored entry. *)
Lemma reconstruct_fails_without_entries_witness :
  _reconstruct_matrices getitem_None_fails (Data2 [[]; []]) csr_no_entries (Some [2; 0; 1]%nat)
    = Fails (Builtin (ValueError "unable to infer matrix dimensions")).
Proof.
  apply (reconstruct_fails_without_entries getitem_None_fails csr_no_entries
           (Some [2; 0; 1]%nat) csr_no_entries_wf eq_refl).
  intros p [= <-]. simpl. solve_Permutation.
Defined.

(** The theorem of X7 on the matrix of the examples and the rows 2 and 0. *)
Lemma calculate_starts_is_index_pointer_witness :
  _calculate_starts (Z.of_nat <$> csr_indptr csr_example) [2; 0]%nat
    = Returns (Z.of_nat <$> [0; 2; 4]%nat).
Proof.
  exact (calculate_starts_is_index_pointer csr_example
           {| csr_data := [1#4; 3#4; 1#2; 1#2]%Q; csr_indices := [0; 1; 0; 2]%nat;
              csr_indptr := [0; 2; 4]%nat; csr_ncols := 4 |}
           [2; 0]%nat ltac:(repeat constructor) ltac:(reflexivity)).
Defined.

(** ** The plotting methods *)

Lemma qmin_le_l x y : (qmin x y <= x)%Q.
Proof. unfold qmin. destruct (decide (x <= y)%Q); lra. Qed.
Lemma qmin_le_r x y : (qmin x y <= y)%Q.
Proof. unfold qmin. destruct (decide (x <= y)%Q); lra. Qed.
Lemma qmax_le_l x y : (x <= qmax x y)%Q.
Proof. unfold qmax. destruct (decide (x <= y)%Q); lra. Qed.
Lemma qmax_le_r x y : (y <= qmax x y)%Q.
Proof. unfold qmax. destruct (decide (x <= y)%Q); lra. Qed.

Lemma foldr_qmin_spec x xs :
  foldr qmin x xs ∈ x :: xs ∧ Forall (λ y, (foldr qmin x xs <= y)%Q) (x :: xs).
Proof.
  induction xs as [| y xs [IHin IHall]]; simpl.
  - split; [left | repeat constructor; lra].
  - inversion IHall as [| ? ? Hx Hxs]; subst. split.
    + unfold qmin at 1. destruct (decide (y <= foldr qmin x xs)%Q).
      * right. left.
      * apply elem_of_cons in IHin as [-> | Hin]; [left | right; right; exact Hin].
    + pose proof (qmin_le_l y (foldr qmin x xs)). pose proof (qmin_le_r y (foldr qmin x xs)).
      constructor; [lra |]. constructor; [lra |].
      eapply Forall_impl; [exact Hxs |]. intros z Hz. simpl in Hz. lra.
Qed.

Lemma foldr_qmax_spec x xs :
  foldr qmax x xs ∈ x :: xs ∧ Forall (λ y, (y <= foldr qmax x xs)%Q) (x :: xs).
Proof.
  induction xs as [| y xs [IHin IHall]]; simpl.
  - split; [left | repeat constructor; lra].
  - inversion IHall as [| ? ? Hx Hxs]; subst. split.
    + unfold qmax at 1. destruct (decide (y <= foldr qmax x xs)%Q).
      * apply elem_of_cons in IHin as [-> | Hin]; [left | right; right; exact Hin].
      * right. left.
    + pose proof (qmax_le_l y (foldr qmax x xs)). pose proof (qmax_le_r y (foldr qmax x xs)).
      constructor; [lra |]. constructor; [lra |].
      eapply Forall_impl; [exact Hxs |]. intros z Hz. simpl in Hz. lra.
Qed.

Lemma np_min_spec xs :
  xs ≠ [] → ∃ m, np_min xs = Ok m ∧ m ∈ xs ∧ Forall (λ y, (m <= y)%Q) xs.
Proof.
  destruct xs as [| x xs]; [done |]. intros _.
  exists (foldr qmin x xs). split; [done |]. apply foldr_qmin_spec.
Qed.

Lemma np_max_spec xs :
  xs ≠ [] → ∃ m, np_max xs = Ok m ∧ m ∈ xs ∧ Forall (λ y, (y <= m)%Q) xs.
Proof.
  destruct xs as [| x xs]; [done |]. intros _.
  exists (foldr qmax x xs). split; [done |]. apply foldr_qmax_spec.
Qed.

(** X8.  The limits [_plot_complex_spectrum] sets for a spectrum that is
    not empty make the picture a square: both axes span the same length,
    the larger of the two extents of the eigenvalues and a margin, each
    axis is centred on the middle of its extent, and every eigenvalue lies
    strictly inside both. *)
Theorem complex_spectrum_limits_square (eig : eig_dict) (title : option string) :
  eig_D eig ≠ [] →
  ∃ fig x_min x_max y_min y_max,
    _plot_complex_spectrum eig title = Ok fig ∧
    np_min (re <$> eig_D eig) = Ok x_min ∧ np_max (re <$> eig_D eig) = Ok x_max ∧
    np_min (im <$> eig_D eig) = Ok y_min ∧ np_max (im <$> eig_D eig) = Ok y_max ∧
    ((cs_xlim fig).2 - (cs_xlim fig).1 == (cs_ylim fig).2 - (cs_ylim fig).1)%Q ∧
    ((cs_xlim fig).2 - (cs_xlim fig).1 == qmax (x_max - x_min) (y_max - y_min) + (1 # 20))%Q ∧
    ((cs_xlim fig).1 + (cs_xlim fig).2 == x_min + x_max)%Q ∧
    ((cs_ylim fig).1 + (cs_ylim fig).2 == y_min + y_max)%Q ∧
    ∀ z, z ∈ eig_D eig →
      ((cs_xlim fig).1 < re z < (cs_xlim fig).2)%Q ∧
      ((cs_ylim fig).1 < im z < (cs_ylim fig).2)%Q.
Proof.
  intros Hne.
  assert (Hre : re <$> eig_D eig ≠ []) by (by destruct (eig_D eig)).
  assert (Him : im <$> eig_D eig ≠ []) by (by destruct (eig_D eig)).
  destruct (np_min_spec _ Hre) as (x_min & Hxmin & _ & Hxmin_le).
  destruct (np_max_spec _ Hre) as (x_max & Hxmax & _ & Hxmax_le).
  destruct (np_min_spec _ Him) as (y_min & Hymin & _ & Hymin_le).
  destruct (np_max_spec _ Him) as (y_max & Hymax & _ & Hymax_le).
  unfold _plot_complex_spectrum. rewrite Hxmin, Hxmax, Hymin, Hymax.
  eexists _, x_min, x_max, y_min, y_max. split; [reflexivity |].
  do 4 (split; [reflexivity |]).
  pose proof (qmax_le_l (x_max - x_min) (y_max - y_min)) as Hl.
  pose proof (qmax_le_r (x_max - x_min) (y_max - y_min)) as Hr.
  set (F := qmax (x_max - x_min) (y_max - y_min)) in *.
  cbn [cs_xlim cs_ylim adapt_range fst snd].
  unfold Qdiv. change (/ 2)%Q with (1 # 2)%Q.
  split; [lra |]. split; [lra |]. split; [lra |]. split; [lra |].
  intros z Hz.
  rewrite Forall_fmap, Forall_forall in Hxmin_le, Hxmax_le, Hymin_le, Hymax_le.
  specialize (Hxmin_le z Hz). specialize (Hxmax_le z Hz).
  specialize (Hymin_le z Hz). specialize (Hymax_le z Hz).
  simpl in *. repeat split; lra.
Qed.

(** The theorem of X8 on the spectrum of the cycle on four states. *)
Lemma complex_spectrum_limits_square_witness :
  let eig := evals_dict [of_real 1; ci; cmi; of_real (-1)] 0 (mk_params LM 4 1) in
  ∃ fig x_min x_max y_min y_max,
    _plot_complex_spectrum eig None = Ok fig ∧
    np_min (re <$> eig_D eig) = Ok x_min ∧ np_max (re <$> eig_D eig) = Ok x_max ∧
    np_min (im <$> eig_D eig) = Ok y_min ∧ np_max (im <$> eig_D eig) = Ok y_max ∧
    ((cs_xlim fig).2 - (cs_xlim fig).1 == (cs_ylim fig).2 - (cs_ylim fig).1)%Q ∧
    ((cs_xlim fig).2 - (cs_xlim fig).1 == qmax (x_max - x_min) (y_max - y_min) + (1 # 20))%Q ∧
    ((cs_xlim fig).1 + (cs_xlim fig).2 == x_min + x_max)%Q ∧
    ((cs_ylim fig).1 + (cs_ylim fig).2 == y_min + y_max)%Q ∧
    ∀ z, z ∈ eig_D eig →
      ((cs_xlim fig).1 < re z < (cs_xlim fig).2)%Q ∧
      ((cs_ylim fig).1 < im z < (cs_ylim fig).2)%Q.
Proof.
  exact (complex_spectrum_limits_square
           (evals_dict [of_real 1; ci; cmi; of_real (-1)] 0 (mk_params LM 4 1)) None
           ltac:(discriminate)).
Defined.

(** *** [_plot_continuous] *)

Lemma cap_ones_all_ones (col : list Q) :
  Forall (λ x, Qeq_bool x 1 = true) col → cap_ones col = col.
Proof.
  intros Hall. unfold cap_ones.
  assert (Hnil : filter (λ x, Qeq_bool x 1 = false) col = []).
  { induction Hall as [| x l Hx Hall IH]; [done |].
    rewrite filter_cons, decide_False by (rewrite Hx; done). exact IH. }
  by rewrite Hnil.
Qed.

Lemma cap_ones_some (col : list Q) (x : Q) :
  x ∈ col → Qeq_bool x 1 = false →
  ∃ m, m ∈ col ∧ Qeq_bool m 1 = false ∧
       (∀ y, y ∈ col → Qeq_bool y 1 = false → (y <= m)%Q) ∧
       cap_ones col = (λ y, if Qeq_bool y 1 then m else y) <$> col.
Proof.
  intros Hin Hx. unfold cap_ones.
  assert (Hne : filter (λ x, Qeq_bool x 1 = false) col ≠ []).
  { intros Hnil. assert (Hf : x ∈ filter (λ x, Qeq_bool x 1 = false) col).
    { apply list_elem_of_filter. done. }
    rewrite Hnil in Hf. by apply elem_of_nil in Hf. }
  destruct (np_max_spec _ Hne) as (m & Hm & Hmin & Hmle).
  rewrite Hm. apply list_elem_of_filter in Hmin as [Hm1 Hmin].
  exists m. repeat split; try done.
  intros y Hy Hy1. rewrite Forall_forall in Hmle. apply Hmle.
  apply list_elem_of_filter. done.
Qed.

(** X9.  The loop of [_plot_continuous] over a column of probabilities
    keeps its length and every entry other than 1.  Where the column has
    such an entry, each 1 is replaced by the largest of them, so that no 1
    is left and that value is the largest of the column; a column of ones
    only is left as it is.  Running the loop once more changes nothing. *)
Theorem cap_ones_replaces_ones (col : list Q) :
  length (cap_ones col) = length col ∧
  (∀ i x, col !! i = Some x → Qeq_bool x 1 = false → cap_ones col !! i = Some x) ∧
  (Forall (λ x, Qeq_bool x 1 = true) col → cap_ones col = col) ∧
  (∀ x, x ∈ col → Qeq_bool x 1 = false →
     ∃ m, m ∈ col ∧ Qeq_bool m 1 = false ∧
       (∀ i y, col !! i = Some y → Qeq_bool y 1 = true → cap_ones col !! i = Some m) ∧
       Forall (λ y, Qeq_bool y 1 = false ∧ (y <= m)%Q) (cap_ones col)) ∧
  cap_ones (cap_ones col) = cap_ones col.
Proof.
  destruct (decide (Forall (λ x, Qeq_bool x 1 = true) col)) as [Hall | Hsome].
  - pose proof (cap_ones_all_ones col Hall) as Heq. rewrite !Heq.
    repeat split; try done.
    intros x Hin Hx. rewrite Forall_forall in Hall. rewrite (Hall x Hin) in Hx. done.
  - apply not_Forall_Exists in Hsome; [| intros x; apply _].
    apply Exists_exists in Hsome as (x & Hin & Hx).
    apply not_true_is_false in Hx.
    destruct (cap_ones_some col x Hin Hx) as (m & Hmin & Hm1 & Hmax & Heq).
    assert (Hcapped : Forall (λ y, Qeq_bool y 1 = false ∧ (y <= m)%Q) (cap_ones col)).
    { rewrite Heq, Forall_fmap. apply Forall_forall. intros y Hy. simpl.
      destruct (Qeq_bool y 1) eqn:Hy1.
      - split; [exact Hm1 | lra].
      - split; [exact Hy1 | by apply Hmax]. }
    split; [by rewrite Heq, length_fmap |].
    split.
    { intros i y Hi Hy1. by rewrite Heq, list_lookup_fmap, Hi; simpl; rewrite Hy1. }
    split.
    { intros Hall. rewrite Forall_forall in Hall. rewrite (Hall x Hin) in Hx. done. }
    split.
    { intros x' _ _. exists m. repeat split; try done.
      intros i y Hi Hy1. by rewrite Heq, list_lookup_fmap, Hi; simpl; rewrite Hy1. }
    destruct (cap_ones col) as [| c l] eqn:Hc; [done |].
    assert (Hc1 : Qeq_bool c 1 = false) by (inversion Hcapped; tauto).
    destruct (cap_ones_some (c :: l) c ltac:(left) Hc1) as (m' & _ & _ & _ & Heq').
    rewrite Heq'. rewrite <- (list_fmap_id (c :: l)) at 2.
    apply list_fmap_ext. intros i y Hy.
    assert (Hyin : y ∈ c :: l) by (eapply list_elem_of_lookup_2, Hy).
    rewrite Forall_forall in Hcapped. destruct (Hcapped y Hyin) as [-> _]. done.
Qed.

(** The theorem of X9 on a column with two ones. *)
Lemma cap_ones_replaces_ones_witness :
  cap_ones (cap_ones [1; 1#4; 1; 3#4]%Q) = cap_ones [1; 1#4; 1; 3#4]%Q.
Proof.
  exact (proj2 (proj2 (proj2 (proj2 (cap_ones_replaces_ones [1; 1#4; 1; 3#4]%Q))))).
Defined.

(** *** [plot_schur_matrix] *)

Lemma concat_elem_of {A} (ls : list (list A)) (x : A) :
  x ∈ concat ls ↔ ∃ l, l ∈ ls ∧ x ∈ l.
Proof.
  induction ls as [| l ls IH]; simpl.
  - split; [intros H; by apply elem_of_nil in H | intros (l & H & _); by apply elem_of_nil in H].
  - rewrite elem_of_app, IH. split.
    + intros [H | (l' & H1 & H2)]; [exists l; split; [left | done] |].
      exists l'. split; [by right | done].
    + intros (l' & H1 & H2). apply elem_of_cons in H1 as [-> | H1]; [by left |].
      right. by exists l'.
Qed.

Lemma schur_mask_lookup (R : matrix Q) i j r x :
  R !! i = Some r → r !! j = Some x →
  schur_mask R !! i ≫= (.!! j) = Some (bool_decide (j < i)%nat && isclose_zero x).
Proof.
  intros Hr Hx. unfold schur_mask, matrix in *.
  rewrite list_lookup_imap, Hr. cbn -[imap]. rewrite list_lookup_imap, Hx. done.
Qed.

Lemma unmasked_elem_of (R : matrix Q) (x : Q) :
  x ∈ unmasked R (schur_mask R) ↔
  ∃ i j r, R !! i = Some r ∧ r !! j = Some x ∧
           bool_decide (j < i)%nat && isclose_zero x = false.
Proof.
  unfold unmasked. rewrite concat_elem_of. split.
  - intros (l & Hl & Hx).
    apply list_elem_of_lookup in Hl as [i Hl].
    apply lookup_zip_with_Some in Hl as (r & m & -> & Hr & Hm).
    unfold schur_mask, matrix in *. rewrite list_lookup_imap, Hr in Hm.
    simpl in Hm. injection Hm as <-.
    apply list_elem_of_fmap in Hx as ([x' b] & -> & Hxb).
    apply list_elem_of_filter in Hxb as [Hb Hxb]. simpl in Hb. subst b.
    apply list_elem_of_lookup in Hxb as [j Hj].
    apply lookup_zip_with_Some in Hj as (x'' & b & [= <- <-] & Hx' & Hb).
    rewrite list_lookup_imap, Hx' in Hb. simpl in Hb. injection Hb as Hb.
    exists i, j, r. done.
  - intros (i & j & r & Hr & Hx & Hb).
    exists (fst <$> filter (λ xb : Q * bool, xb.2 = false)
              (zip r (imap (λ j x, bool_decide (j < i)%nat && isclose_zero x) r))).
    split.
    + apply list_elem_of_lookup. exists i.
      apply lookup_zip_with_Some. eexists r, _. split; [reflexivity |].
      split; [exact Hr |]. unfold schur_mask, matrix in *. by rewrite list_lookup_imap, Hr.
    + apply list_elem_of_fmap. exists (x, false). split; [done |].
      apply list_elem_of_filter. split; [done |].
      apply list_elem_of_lookup. exists j.
      apply lookup_zip_with_Some. exists x, false. split; [done |].
      split; [exact Hx |]. by rewrite list_lookup_imap, Hx; simpl; rewrite Hb.
Qed.

Lemma plot_schur_matrix_run (s : Estimator) (x0 : Q) (r0 : list Q) (R' : matrix Q) :
  _schur_mat s = Some ((x0 :: r0) :: R') →
  let R := (x0 :: r0) :: R' in
  ∃ vmin vmax,
    plot_schur_matrix s = Returns {| sh_matrix := R; sh_mask := schur_mask R;
                                     sh_vmin := vmin; sh_vmax := vmax |} ∧
    vmin ∈ unmasked R (schur_mask R) ∧ Forall (λ y, (vmin <= y)%Q) (unmasked R (schur_mask R)) ∧
    vmax ∈ unmasked R (schur_mask R) ∧ Forall (λ y, (y <= vmax)%Q) (unmasked R (schur_mask R)).
Proof.
  intros Hmat R.
  assert (Hne : unmasked R (schur_mask R) ≠ []).
  { intros Hnil. assert (Hin : x0 ∈ unmasked R (schur_mask R)).
    { apply unmasked_elem_of. exists 0%nat, 0%nat, (x0 :: r0). done. }
    rewrite Hnil in Hin. by apply elem_of_nil in Hin. }
  destruct (np_min_spec _ Hne) as (vmin & Hvmin & Hmin_in & Hmin_le).
  destruct (np_max_spec _ Hne) as (vmax & Hvmax & Hmax_in & Hmax_le).
  unfold plot_schur_matrix. rewrite Hmat. fold R. rewrite Hvmin, Hvmax.
  exists vmin, vmax. done.
Qed.

(** X10.  For a Schur matrix with at least one entry, [plot_schur_matrix]
    masks exactly the entries below the diagonal that are close to zero,
    and takes the limits of the colours from the entries that are left:
    every entry on or above the diagonal, and every entry below it whose
    magnitude exceeds [1e-8], lies between [vmin] and [vmax], and both
    limits are entries that are shown. *)
Theorem plot_schur_matrix_limits (s : Estimator) (x0 : Q) (r0 : list Q) (R' : matrix Q) :
  _schur_mat s = Some ((x0 :: r0) :: R') →
  let R := (x0 :: r0) :: R' in
  ∃ h, plot_schur_matrix s = Returns h ∧
    sh_matrix h = R ∧
    (∀ i j r x, R !! i = Some r → r !! j = Some x →
       ∃ b, sh_mask h !! i ≫= (.!! j) = Some b ∧
         (b = true ↔ (j < i)%nat ∧ (Qabs x <= 1 # 100000000)%Q) ∧
         (b = false → (sh_vmin h <= x <= sh_vmax h)%Q)) ∧
    (∃ i j r, R !! i = Some r ∧ r !! j = Some (sh_vmin h) ∧
              sh_mask h !! i ≫= (.!! j) = Some false) ∧
    (∃ i j r, R !! i = Some r ∧ r !! j = Some (sh_vmax h) ∧
              sh_mask h !! i ≫= (.!! j) = Some false).
Proof.
  intros Hmat R.
  destruct (plot_schur_matrix_run s x0 r0 R' Hmat)
    as (vmin & vmax & Hrun & Hmin_in & Hmin_le & Hmax_in & Hmax_le).
  fold R in Hrun, Hmin_in, Hmin_le, Hmax_in, Hmax_le.
  eexists. split; [exact Hrun |]. cbn [sh_matrix sh_mask sh_vmin sh_vmax].
  split; [done |]. split; [| split].
  - intros i j r x Hr Hx.
    exists (bool_decide (j < i)%nat && isclose_zero x).
    split; [by apply (schur_mask_lookup R i j r x) |]. split.
    + rewrite andb_true_iff, bool_decide_eq_true. unfold isclose_zero.
      by rewrite bool_decide_eq_true.
    + intros Hb.
      assert (Hin : x ∈ unmasked R (schur_mask R)).
      { apply unmasked_elem_of. by exists i, j, r. }
      rewrite Forall_forall in Hmin_le, Hmax_le.
      split; [by apply Hmin_le | by apply Hmax_le].
  - apply unmasked_elem_of in Hmin_in as (i & j & r & Hr & Hx & Hb).
    exists i, j, r. repeat split; try done.
    by rewrite (schur_mask_lookup R i j r vmin Hr Hx), Hb.
  - apply unmasked_elem_of in Hmax_in as (i & j & r & Hr & Hx & Hb).
    exists i, j, r. repeat split; try done.
    by rewrite (schur_mask_lookup R i j r vmax Hr Hx), Hb.
Qed.

(** The theorem of X10 on the Schur matrix of the cycle, cut after three
    components. *)
Lemma plot_schur_matrix_limits_witness :
  let R := [[1; 0; 0]; [0; 0; -1]; [0; 1; 0]]%Q in
  ∃ h, plot_schur_matrix (set_schur None (Some R) (new_estimator "Schur" (kernel_of true T_cycle)))
         = Returns h ∧
    sh_matrix h = R ∧
    (∀ i j r x, R !! i = Some r → r !! j = Some x →
       ∃ b, sh_mask h !! i ≫= (.!! j) = Some b ∧
         (b = true ↔ (j < i)%nat ∧ (Qabs x <= 1 # 100000000)%Q) ∧
         (b = false → (sh_vmin h <= x <= sh_vmax h)%Q)) ∧
    (∃ i j r, R !! i = Some r ∧ r !! j = Some (sh_vmin h) ∧
              sh_mask h !! i ≫= (.!! j) = Some false) ∧
    (∃ i j r, R !! i = Some r ∧ r !! j = Some (sh_vmax h) ∧
              sh_mask h !! i ≫= (.!! j) = Some false).
Proof.
  exact (plot_schur_matrix_limits
           (set_schur None (Some [[1; 0; 0]; [0; 0; -1]; [0; 1; 0]]%Q)
              (new_estimator "Schur" (kernel_of true T_cycle)))
           1%Q [0; 0]%Q [[0; 0; -1]; [0; 1; 0]]%Q eq_refl).
Defined.

(** ** What the computations leave alone *)

Ltac log_extends :=
  cbn [logged log_to]; rewrite <- ?(assoc_L (++)); by eexists.

Section EigenFrame.
Variable _eigengap : ndarray → Q → nat.
Variable eigs : matrix Q → Z → Which → option Z → res eigensystem.
Variable np_linalg_eig : matrix Q → res eigensystem.

Lemma sort_and_write_cases D V_l V_r which k alpha w :
  (∃ e, sort_and_write _eigengap D V_l V_r which k alpha w
          = (Ok (), after_write e (log_to DEBUG msg_sorting w)) ∧
        is_Some (eig_V_l e) ∧ is_Some (eig_V_r e)) ∨
  sort_and_write _eigengap D V_l V_r which k alpha w
    = (Raise IndexError, log_to DEBUG msg_sorting w).
Proof.
  unfold sort_and_write.
  rewrite bind_run. cbn [logg].
  rewrite bind_run, lift_index_run.
  destruct (fancy_index D _) as [D' |]; [| by right].
  rewrite bind_run, lift_index_run.
  destruct (take_columns V_l _) as [Vl' |]; [| by right].
  rewrite bind_run, lift_index_run.
  destruct (take_columns V_r _) as [Vr' |]; [| by right].
  rewrite bind_run, lift_index_run.
  destruct (column 0 Vl') as [v |]; [| by right].
  rewrite write_eig_run. left. eexists. split; [reflexivity |]. by split.
Qed.

(** The two ways [Eigen._compute] ends: it writes one dictionary, or it
    raises and has written nothing.  What it raises is the exception of the
    solver, or an IndexError of the selection of the columns. *)
Lemma Eigen_compute_cases k which alpha only_evals ncv w :
  ∃ w1, self w1 = self w ∧ adata w1 = adata w ∧
    (∃ l, logged w1 = logged w ++ l) ∧
    ((∃ e, Eigen._compute _eigengap eigs np_linalg_eig k which alpha only_evals ncv w
             = (Ok (), after_write e w1) ∧
           if only_evals then eig_V_l e = None ∧ eig_V_r e = None
           else is_Some (eig_V_l e) ∧ is_Some (eig_V_r e)) ∨
     (∃ x, Eigen._compute _eigengap eigs np_linalg_eig k which alpha only_evals ncv w
             = (Raise x, w1) ∧
           (x = IndexError ∨
            solve eigs np_linalg_eig (self w) (transpose (the_matrix w)) k which ncv = Raise x ∨
            (only_evals = false ∧
             solve eigs np_linalg_eig (self w) (the_matrix w) k which ncv = Raise x)))).
Proof.
  unfold Eigen._compute, solve, the_matrix.
  rewrite bind_run. cbn [logg]. rewrite bind_run. cbn [get_self log_to self].
  destruct (issparse (self w)) eqn:Hsp.
  - rewrite bind_run. cbn [logg]. rewrite bind_run. unfold lift_res.
    cbn [log_to self].
    set (w0 := log_to DEBUG (msg_top k) (log_to INFO msg_computing w)).
    destruct (eigs _ k which ncv) as [[D V_l] | x] eqn:Hl.
    + cbn beta iota. destruct only_evals.
      * rewrite bind_run. destruct (get_top_k_evals_run D k w0) as (D' & _ & Hrun).
        rewrite Hrun, bind_run, Hrun, write_eig_run.
        exists w0. repeat split; [subst w0; log_extends | left; eexists; by split].
      * rewrite bind_run.
        destruct (eigs (entries (transition_matrix (kernel (self w)))) k which ncv)
          as [[D_r V_r] | x] eqn:Hr.
        -- cbn beta iota.
           exists (log_to DEBUG msg_sorting w0). repeat split.
           { subst w0. log_extends. }
           destruct (sort_and_write_cases D V_l V_r which k alpha w0)
             as [(e & He & HV) | He].
           ++ left. by exists e.
           ++ right. exists IndexError. split; [exact He | by left].
        -- exists w0. repeat split; [subst w0; log_extends |].
           right. exists x. split; [done |]. right. right. done.
    + exists w0. repeat split; [subst w0; log_extends |].
      right. exists x. split; [done |]. right. left. done.
  - rewrite bind_run. cbn [logg]. rewrite bind_run. unfold lift_res.
    cbn [log_to self].
    set (w0 := log_to WARNING msg_not_sparse (log_to INFO msg_computing w)).
    destruct (np_linalg_eig (transpose _)) as [[D V_l] | x] eqn:Hl.
    + cbn beta iota. destruct only_evals.
      * rewrite bind_run. destruct (get_top_k_evals_run D k w0) as (D' & _ & Hrun).
        rewrite Hrun, write_eig_run.
        exists w0. repeat split; [subst w0; log_extends | left; eexists; by split].
      * rewrite bind_run.
        destruct (np_linalg_eig (entries (transition_matrix (kernel (self w)))))
          as [[D_r V_r] | x] eqn:Hr.
        -- cbn beta iota.
           exists (log_to DEBUG msg_sorting w0). repeat split.
           { subst w0. log_extends. }
           destruct (sort_and_write_cases D V_l V_r which k alpha w0)
             as [(e & He & HV) | He].
           ++ left. by exists e.
           ++ right. exists IndexError. split; [exact He | by left].
        -- exists w0. repeat split; [subst w0; log_extends |].
           right. exists x. split; [done |]. right. right. done.
    + exists w0. repeat split; [subst w0; log_extends |].
      right. exists x. split; [done |]. right. left. done.
Qed.

(** X11.  Whatever way [Eigen._compute] ends, it leaves the estimator as
    it was but for the attribute of the eigendecomposition, and the
    annotated data but for the entry under its key; it only adds to the
    log. *)
Theorem eigen_compute_frame k which alpha only_evals ncv w r w' :
  Eigen._compute _eigengap eigs np_linalg_eig k which alpha only_evals ncv w = (r, w') →
  class_name (self w') = class_name (self w) ∧
  kernel (self w') = kernel (self w) ∧
  _gpcca (self w') = _gpcca (self w) ∧
  _schur (self w') = _schur (self w) ∧
  _schur_mat (self w') = _schur_mat (self w) ∧
  _is_irreducible (self w') = _is_irreducible (self w) ∧
  _rec_classes (self w') = _rec_classes (self w) ∧
  _trans_classes (self w') = _trans_classes (self w) ∧
  obs_names (adata w') = obs_names (adata w) ∧
  (∀ key, key ≠ eig_key (self w) → uns (adata w') !! key = uns (adata w) !! key) ∧
  (∃ l, logged w' = logged w ++ l).
Proof.
  intros H.
  destruct (Eigen_compute_cases k which alpha only_evals ncv w)
    as (w1 & Hs & Ha & [l Hl] & [(e & He & _) | (x & He & _)]);
    rewrite He in H; injection H as <- <-.
  - cbn. rewrite Hs, Ha. repeat split; try done.
    + intros key Hkey. by rewrite lookup_insert_ne.
    + rewrite Hl, <- (assoc_L (++)). by eexists.
  - rewrite Hs, Ha. repeat split; try done. by exists l.
Qed.

(** X12.  When [Eigen._compute] raises, nothing was written: the
    estimator and the annotated data are as they were.  What it raises is
    the exception of the solver on the transposed matrix, or on the matrix
    where the eigenvectors were asked for, or an IndexError. *)
Theorem eigen_compute_failure k which alpha only_evals ncv w x w' :
  Eigen._compute _eigengap eigs np_linalg_eig k which alpha only_evals ncv w = (Raise x, w') →
  self w' = self w ∧ adata w' = adata w ∧
  (x = IndexError ∨
   solve eigs np_linalg_eig (self w) (transpose (the_matrix w)) k which ncv = Raise x ∨
   (only_evals = false ∧
    solve eigs np_linalg_eig (self w) (the_matrix w) k which ncv = Raise x)).
Proof.
  intros H.
  destruct (Eigen_compute_cases k which alpha only_evals ncv w)
    as (w1 & Hs & Ha & _ & [(e & He & _) | (x' & He & Hx)]);
    rewrite He in H; [discriminate |].
  injection H as <- <-. done.
Qed.
End EigenFrame.

Section SchurFrame.
Variable _eigengap : ndarray → Q → nat.
Variable sorted_schur :
  matrix Q → option (list Q) → Which → Method → string + schur_form.

Lemma do_schur_helper_cases (g : GPCCA) (m : Z) :
  (∃ msg, sorted_schur (entries (gp_P g)) (gp_eta g) (gp_z g) (gp_method g) = inl msg ∧
          do_schur_helper sorted_schur g m = Raise (NumericalError msg)) ∨
  (∃ sf, sorted_schur (entries (gp_P g)) (gp_eta g) (gp_z g) (gp_method g) = inr sf ∧
         splits (sf_R sf) (Z.to_nat m) = true ∧
         do_schur_helper sorted_schur g m = Raise (ValueError msg_split)) ∨
  (∃ sf g', sorted_schur (entries (gp_P g)) (gp_eta g) (gp_z g) (gp_method g) = inr sf ∧
         splits (sf_R sf) (Z.to_nat m) = false ∧
         do_schur_helper sorted_schur g m = Ok g' ∧
         gp_X g' = Some (firstn (Z.to_nat m) <$> sf_X sf) ∧
         gp_R g' = Some (leading (Z.to_nat m) (sf_R sf)) ∧
         gp_eigenvalues g' = Some (firstn (Z.to_nat m) (sf_eigenvalues sf))).
Proof.
  unfold do_schur_helper.
  destruct (sorted_schur _ _ _ _) as [msg | sf]; [left; by exists msg |].
  right. destruct (splits (sf_R sf) (Z.to_nat m)) eqn:Hs.
  - left. by exists sf.
  - right. eexists sf, _. repeat split; done.
Qed.

(** X13.  Whatever way [Schur._compute] ends, it leaves the kernel of the
    estimator and the attributes of the partition as they were, and the
    annotated data but for the entry under the key of the
    eigendecomposition; it only adds to the log. *)
Theorem schur_compute_frame n eta method which alpha w r w' :
  Schur._compute _eigengap sorted_schur n eta method which alpha w = (r, w') →
  class_name (self w') = class_name (self w) ∧
  kernel (self w') = kernel (self w) ∧
  _is_irreducible (self w') = _is_irreducible (self w) ∧
  _rec_classes (self w') = _rec_classes (self w) ∧
  _trans_classes (self w') = _trans_classes (self w) ∧
  obs_names (adata w') = obs_names (adata w) ∧
  (∀ key, key ≠ eig_key (self w) → uns (adata w') !! key = uns (adata w) !! key) ∧
  (∃ l, logged w' = logged w ++ l).
Proof.
  intros H. destruct (Z.lt_ge_cases n 2) as [Hn | Hn].
  { rewrite Schur_compute_reject in H by exact Hn. injection H as <- <-.
    repeat split; try done. exists []. by rewrite app_nil_r. }
  rewrite Schur_compute_unfold in H by exact Hn. cbn zeta in H.
  assert (Hkey : ∀ s g X R, eig_key (set_schur X R (set_gpcca g s)) = eig_key s).
  { intros. by apply eig_key_congr. }
  destruct (do_schur_helper sorted_schur _ n) as [g | e].
  - destruct (gp_eigenvalues g) as [evals |]; injection H as <- <-.
    + cbn. repeat split; try done.
      * intros key Hk. rewrite lookup_insert_ne; [done |].
        intros Heq. apply Hk. rewrite <- Heq. symmetry. by apply eig_key_congr.
      * by eexists.
    + cbn. repeat split; try done. exists []. by rewrite app_nil_r.
  - destruct e as [msg | | | msg];
      try (injection H as <- <-; cbn; repeat split; try done;
           exists []; by rewrite app_nil_r).
    destruct (do_schur_helper sorted_schur _ (n + 1)) as [g | e].
    + destruct (gp_eigenvalues g) as [evals |]; injection H as <- <-.
      * cbn. repeat split; try done.
        -- intros key Hk. rewrite lookup_insert_ne; [done |].
           intros Heq. apply Hk. rewrite <- Heq. symmetry. by apply eig_key_congr.
        -- rewrite <- (assoc_L (++)). by eexists.
      * cbn. repeat split; try done. by eexists.
    + injection H as <- <-. cbn. repeat split; try done. by eexists.
Qed.

(** X14.  When [Schur._compute] raises, no Schur vectors, Schur matrix or
    eigenvalues were written, in the estimator or in the annotated data.
    With fewer than two components nothing changed at all.  Otherwise the
    GPCCA object was replaced by a new one that holds no result, and the
    exception is that of the solver, raised at the first attempt with
    nothing logged, or the refusal to split a block, raised at the second
    attempt after the warning.  The helper of the vendored GPCCA is
    modelled after the specification. *)
Theorem schur_compute_failure n eta method which alpha w x w' :
  Schur._compute _eigengap sorted_schur n eta method which alpha w = (Raise x, w') →
  adata w' = adata w ∧
  _eig (self w') = _eig (self w) ∧
  _schur (self w') = _schur (self w) ∧
  _schur_mat (self w') = _schur_mat (self w) ∧
  (((n < 2)%Z ∧ x = ValueError (msg_n_components n) ∧ w' = w) ∨
   ((2 <= n)%Z ∧
    _gpcca (self w') = Some (made_gpcca w eta which method) ∧
    gp_X (made_gpcca w eta which method) = None ∧
    ((∃ msg, x = NumericalError msg ∧
             sorted_schur (the_matrix w) eta which method = inl msg ∧
             logged w' = logged w) ∨
     (∃ sf, x = ValueError msg_split ∧
            sorted_schur (the_matrix w) eta which method = inr sf ∧
            splits (sf_R sf) (Z.to_nat n) = true ∧
            splits (sf_R sf) (Z.to_nat (n + 1)) = true ∧
            logged w' = logged w ++ [(WARNING, msg_increase n)])))).
Proof.
  intros H. destruct (Z.lt_ge_cases n 2) as [Hn | Hn].
  { rewrite Schur_compute_reject in H by exact Hn. injection H as <- <-.
    repeat split; try done. left. done. }
  rewrite Schur_compute_unfold in H by exact Hn. cbn zeta in H.
  set (g0 := made_gpcca w eta which method) in *.
  destruct (do_schur_helper_cases g0 n)
    as [(msg & Hsf & Hh) | [(sf & Hsf & Hs & Hh) | (sf & g & Hsf & Hs & Hh & _ & _ & He)]];
    rewrite Hh in H.
  - injection H as <- <-. cbn. repeat split; try done.
    right. repeat split; try done. left. by exists msg.
  - destruct (do_schur_helper_cases g0 (n + 1))
      as [(msg & Hsf' & Hh') | [(sf' & Hsf' & Hs' & Hh') | (sf' & g & Hsf' & Hs' & Hh' & _ & _ & He)]];
      rewrite Hh' in H.
    + rewrite Hsf in Hsf'. discriminate.
    + injection H as <- <-. cbn. repeat split; try done.
      right. repeat split; try done. right.
      rewrite Hsf in Hsf'. injection Hsf' as <-. by exists sf.
    + rewrite He in H. discriminate.
  - rewrite He in H. discriminate.
Qed.
End SchurFrame.

Lemma plot_vectors_not_computed {A} (a : AnnData) (use : use_arg) :
  _plot_vectors a (@None (matrix A)) KindEig use = Fails RuntimeError ∧
  _plot_vectors a (@None (matrix A)) KindSchur use = Fails RuntimeError.
Proof. done. Qed.

Lemma plot_vectors_computed {A} (a : AnnData) (V : matrix A) prop use :
  _plot_vectors a (Some V) prop use ≠ Fails RuntimeError.
Proof.
  unfold _plot_vectors.
  destruct prop; [| | discriminate];
    (destruct (negb _); [discriminate |]);
    (match goal with
     | |- context [match ?r with Some _ => _ | None => _ end] =>
         destruct r as [[| u sel] |]; try discriminate
     end);
    (destruct (bool_decide _); [discriminate |]);
    (destruct (index_columns _ _); discriminate).
Qed.

Section Runs.
Variable _eigengap : ndarray → Q → nat.
Variable sorted_schur :
  matrix Q → option (list Q) → Which → Method → string + schur_form.
Variable eigs : matrix Q → Z → Which → option Z → res eigensystem.
Variable np_linalg_eig : matrix Q → res eigensystem.

Lemma decomposed_writes w w' :
  decomposed _eigengap sorted_schur eigs np_linalg_eig w w' →
  ∃ e, _eig (self w') = Some e ∧
       uns (adata w') = <[eig_key (self w) := e]> (uns (adata w)) ∧
       eig_key (self w') = eig_key (self w).
Proof.
  intros [(k & which & alpha & only_evals & ncv & H) | (n & eta & method & which & alpha & H)].
  - apply Eigen_compute_inv in H as (e & w1 & -> & Hs & Ha & _).
    exists e. cbn. rewrite Hs, Ha. repeat split.
  - apply Schur_compute_inv in H as (g & evals & w1 & -> & Ha & Hc & Hk & _).
    eexists. cbn. rewrite Ha, (eig_key_congr (self w1) (self w) Hc Hk).
    repeat split. apply eig_key_congr; [done |]. cbn. exact Hk.
Qed.

(** X15.  The two decompositions share the attribute and the key of the
    eigendecomposition: after two runs, of [Eigen._compute] or of
    [Schur._compute] in any order, the estimator and the annotated data
    hold the dictionary of the later run, and the entry of the earlier one
    is replaced. *)
Theorem later_decomposition_replaces_earlier w w1 w2 :
  decomposed _eigengap sorted_schur eigs np_linalg_eig w w1 →
  decomposed _eigengap sorted_schur eigs np_linalg_eig w1 w2 →
  ∃ e1 e2,
    _eig (self w1) = Some e1 ∧ uns (adata w1) !! eig_key (self w) = Some e1 ∧
    _eig (self w2) = Some e2 ∧ uns (adata w2) !! eig_key (self w) = Some e2 ∧
    uns (adata w2) = <[eig_key (self w) := e2]> (uns (adata w)).
Proof.
  intros H1 H2.
  apply decomposed_writes in H1 as (e1 & He1 & Hu1 & Hk1).
  apply decomposed_writes in H2 as (e2 & He2 & Hu2 & Hk2).
  exists e1, e2. rewrite Hk1 in Hu2. rewrite Hu2, Hu1.
  repeat split; try done.
  - by rewrite lookup_insert_eq.
  - by rewrite lookup_insert_eq.
  - by rewrite insert_insert_eq.
Qed.

(** X16.  [plot_eigendecomposition] needs the eigenvectors of the side it
    is asked for.  After [Eigen._compute] with [only_evals], and after
    [Schur._compute], which writes its eigenvalues to the same attribute, it
    raises a RuntimeError whatever its arguments are; after [Eigen._compute]
    without [only_evals] it never does. *)
Theorem plot_eigendecomposition_needs_vectors k which_e alpha only_evals ncv
    n eta method which_s w wE wS :
  (Eigen._compute _eigengap eigs np_linalg_eig k which_e alpha only_evals ncv w = (Ok (), wE) →
   ∀ a left use,
     if only_evals
     then plot_eigendecomposition (self wE) a left use = Fails RuntimeError
     else plot_eigendecomposition (self wE) a left use ≠ Fails RuntimeError) ∧
  (Schur._compute _eigengap sorted_schur n eta method which_s alpha w = (Ok (), wS) →
   ∀ a left use, plot_eigendecomposition (self wS) a left use = Fails RuntimeError).
Proof.
  split; intros H a left use.
  - destruct (Eigen_compute_cases _eigengap eigs np_linalg_eig k which_e alpha only_evals ncv w)
      as (w1 & _ & _ & _ & [(e & He & HV) | (x & He & _)]); rewrite He in H; [| discriminate].
    injection H as <-. unfold plot_eigendecomposition. cbn [self after_write set_eig _eig].
    destruct only_evals.
    + destruct HV as [-> ->]. by destruct left.
    + destruct HV as [[Vl ->] [Vr ->]].
      destruct left; cbn [negb andb].
      * destruct use; apply plot_vectors_computed.
      * destruct (bool_decide _); cbn [andb].
        -- destruct (set_first_column Vr); [| discriminate].
           destruct use; apply plot_vectors_computed.
        -- destruct use; apply plot_vectors_computed.
  - apply Schur_compute_inv in H as (g & evals & w1 & -> & _).
    unfold plot_eigendecomposition. cbn. by destruct left.
Qed.

Lemma Schur_compute_inv_count n eta method which alpha w w' sf :
  sorted_schur (the_matrix w) eta which method = inr sf →
  Schur._compute _eigengap sorted_schur n eta method which alpha w = (Ok (), w') →
  (2 <= n)%Z ∧
  ∃ m, (m = Z.to_nat n ∨ m = Z.to_nat (n + 1)) ∧
       splits (sf_R sf) m = false ∧
       _schur (self w') = Some (firstn m <$> sf_X sf) ∧
       _schur_mat (self w') = Some (leading m (sf_R sf)).
Proof.
  intros Hsf H. destruct (Z.lt_ge_cases n 2) as [Hn | Hn].
  { rewrite Schur_compute_reject in H by exact Hn. discriminate. }
  split; [exact Hn |].
  rewrite Schur_compute_unfold in H by exact Hn. cbn zeta in H.
  assert (Hhelper : ∀ m, do_schur_helper sorted_schur (made_gpcca w eta which method) m = _)
    by (intros m; apply (do_schur_helper_eq sorted_schur _ m sf); exact Hsf).
  rewrite (Hhelper n) in H.
  destruct (splits (sf_R sf) (Z.to_nat n)) eqn:Hs1.
  - rewrite (Hhelper (n + 1)%Z) in H.
    destruct (splits (sf_R sf) (Z.to_nat (n + 1))) eqn:Hs2; [discriminate |].
    cbn [gp_eigenvalues gp_X gp_R] in H. injection H as <-.
    exists (Z.to_nat (n + 1)). repeat split; [by right | exact Hs2].
  - cbn [gp_eigenvalues gp_X gp_R] in H. injection H as <-.
    exists (Z.to_nat n). repeat split; [by left | exact Hs1].
Qed.

(** X17.  After [Schur._compute] returned, over a solver whose Schur
    matrix has an entry, [plot_schur_matrix] does not fail: it shows the
    leading block of the Schur matrix of the solver, of as many rows as
    components were asked for or of one more, cut where no block of
    complex conjugate eigenvalues is split.  The helper of the vendored
    GPCCA is modelled after the specification. *)
Theorem plot_schur_matrix_after_compute n eta method which alpha w w' sf x0 r0 R' :
  sorted_schur (the_matrix w) eta which method = inr sf →
  sf_R sf = (x0 :: r0) :: R' →
  Schur._compute _eigengap sorted_schur n eta method which alpha w = (Ok (), w') →
  ∃ h m, plot_schur_matrix (self w') = Returns h ∧
    (m = Z.to_nat n ∨ m = Z.to_nat (n + 1)) ∧
    splits (sf_R sf) m = false ∧
    sh_matrix h = leading m (sf_R sf) ∧
    sh_mask h = schur_mask (leading m (sf_R sf)).
Proof.
  intros Hsf HR H.
  destruct (Schur_compute_inv_count n eta method which alpha w w' sf Hsf H)
    as (Hn & m & Hm & Hs & _ & Hmat).
  assert (Hm1 : ∃ m', m = S m') by (exists (Nat.pred m); lia).
  destruct Hm1 as [m' ->].
  assert (Hlead : leading (S m') (sf_R sf)
                  = (x0 :: firstn m' r0) :: firstn m' (firstn (S m') <$> R')).
  { rewrite HR. reflexivity. }
  rewrite Hlead in Hmat.
  destruct (plot_schur_matrix_run (self w') _ _ _ Hmat) as (vmin & vmax & Hrun & _).
  eexists _, (S m'). split; [exact Hrun |]. rewrite Hlead. done.
Qed.
End Runs.

Section PartitionFrame.
Variable partition : TransitionMatrix → list (list nat) * list (list nat).
Variable _make_cat : list (list nat) → nat → list string → Series.

(** X18.  [compute_partition] always returns.  It leaves the annotated
    data, the kernel and what the decompositions stored as they were, and
    computing the partition once more changes nothing of the estimator. *)
Theorem compute_partition_idempotent w r w1 :
  compute_partition partition _make_cat w = (r, w1) →
  r = Ok () ∧ adata w1 = adata w ∧
  class_name (self w1) = class_name (self w) ∧ kernel (self w1) = kernel (self w) ∧
  _eig (self w1) = _eig (self w) ∧ _gpcca (self w1) = _gpcca (self w) ∧
  _schur (self w1) = _schur (self w) ∧ _schur_mat (self w1) = _schur_mat (self w) ∧
  ∃ w2, compute_partition partition _make_cat w1 = (Ok (), w2) ∧
        self w2 = self w1 ∧ adata w2 = adata w1.
Proof.
  intros H.
  destruct (partition (transition_matrix (kernel (self w)))) as [rec trans] eqn:Hp.
  rewrite (compute_partition_run partition _make_cat w rec trans Hp) in H.
  injection H as <- <-. cbn zeta.
  destruct (bool_decide (length rec = 1%nat) && bool_decide (length trans = 0%nat)) eqn:Hirr.
  - repeat split; try done. eexists. split.
    + erewrite compute_partition_run by (cbn; exact Hp). rewrite Hirr. reflexivity.
    + split; [| done]. cbn. by destruct (self w).
  - repeat split; try done. eexists. split.
    + erewrite compute_partition_run by (cbn; exact Hp). rewrite Hirr. reflexivity.
    + split; [| done]. cbn. by destruct (self w).
Qed.
End PartitionFrame.

(** *** The theorems on the chains of the examples *)

(** The theorem of X11 on the dense chain [T_swap]. *)
Lemma eigen_compute_frame_witness :
  let w := new_world "Eigen" (kernel_of false T_swap) in
  let w' := (Eigen._compute eigengap_spec table_eigs table_eig 2 LR 1 true None w).2 in
  class_name (self w') = class_name (self w) ∧
  kernel (self w') = kernel (self w) ∧
  _gpcca (self w') = _gpcca (self w) ∧
  _schur (self w') = _schur (self w) ∧
  _schur_mat (self w') = _schur_mat (self w) ∧
  _is_irreducible (self w') = _is_irreducible (self w) ∧
  _rec_classes (self w') = _rec_classes (self w) ∧
  _trans_classes (self w') = _trans_classes (self w) ∧
  obs_names (adata w') = obs_names (adata w) ∧
  (∀ key, key ≠ eig_key (self w) → uns (adata w') !! key = uns (adata w) !! key) ∧
  (∃ l, logged w' = logged w ++ l).
Proof.
  exact (eigen_compute_frame eigengap_spec table_eigs table_eig 2 LR 1 true None
           (new_world "Eigen" (kernel_of false T_swap)) (Ok ())
           (Eigen._compute eigengap_spec table_eigs table_eig 2 LR 1 true None
              (new_world "Eigen" (kernel_of false T_swap))).2
           ltac:(vm_compute; reflexivity)).
Defined.

(** The theorem of X12 on a chain the dense solver does not converge
    on. *)
Lemma eigen_compute_failure_witness :
  let w := new_world "Eigen" (kernel_of false T_full) in
  let w' := (Eigen._compute eigengap_spec table_eigs table_eig 2 LR 1 true None w).2 in
  let x := NumericalError "Eigenvalues did not converge" in
  self w' = self w ∧ adata w' = adata w ∧
  (x = IndexError ∨
   solve table_eigs table_eig (self w) (transpose (the_matrix w)) 2 LR None = Raise x ∨
   (true = false ∧
    solve table_eigs table_eig (self w) (the_matrix w) 2 LR None = Raise x)).
Proof.
  exact (eigen_compute_failure eigengap_spec table_eigs table_eig 2 LR 1 true None
           (new_world "Eigen" (kernel_of false T_full))
           (NumericalError "Eigenvalues did not converge")
           (Eigen._compute eigengap_spec table_eigs table_eig 2 LR 1 true None
              (new_world "Eigen" (kernel_of false T_full))).2
           ltac:(vm_compute; reflexivity)).
Defined.

(** The theorem of X13 on the cycle. *)
Lemma schur_compute_frame_witness :
  let w := new_world "Schur" (kernel_of true T_cycle) in
  let w' := (Schur._compute eigengap_spec table_schur 2 None krylov LM 1 w).2 in
  class_name (self w') = class_name (self w) ∧
  kernel (self w') = kernel (self w) ∧
  _is_irreducible (self w') = _is_irreducible (self w) ∧
  _rec_classes (self w') = _rec_classes (self w) ∧
  _trans_classes (self w') = _trans_classes (self w) ∧
  obs_names (adata w') = obs_names (adata w) ∧
  (∀ key, key ≠ eig_key (self w) → uns (adata w') !! key = uns (adata w) !! key) ∧
  (∃ l, logged w' = logged w ++ l).
Proof.
  exact (schur_compute_frame eigengap_spec table_schur 2 None krylov LM 1
           (new_world "Schur" (kernel_of true T_cycle)) (Ok ())
           (Schur._compute eigengap_spec table_schur 2 None krylov LM 1
              (new_world "Schur" (kernel_of true T_cycle))).2
           ltac:(vm_compute; reflexivity)).
Defined.

(** The theorem of X14 on a chain the Schur solver does not converge on. *)
Lemma schur_compute_failure_witness :
  let w := new_world "Schur" (kernel_of false T_full) in
  let w' := (Schur._compute eigengap_spec table_schur 2 None krylov LM 1 w).2 in
  let x := NumericalError "The Schur solver did not converge" in
  adata w' = adata w ∧
  _eig (self w') = _eig (self w) ∧
  _schur (self w') = _schur (self w) ∧
  _schur_mat (self w') = _schur_mat (self w) ∧
  (((2 < 2)%Z ∧ x = ValueError (msg_n_components 2) ∧ w' = w) ∨
   ((2 <= 2)%Z ∧
    _gpcca (self w') = Some (made_gpcca w None LM krylov) ∧
    gp_X (made_gpcca w None LM krylov) = None ∧
    ((∃ msg, x = NumericalError msg ∧
             table_schur (the_matrix w) None LM krylov = inl msg ∧
             logged w' = logged w) ∨
     (∃ sf, x = ValueError msg_split ∧
            table_schur (the_matrix w) None LM krylov = inr sf ∧
            splits (sf_R sf) (Z.to_nat 2) = true ∧
            splits (sf_R sf) (Z.to_nat (2 + 1)) = true ∧
            logged w' = logged w ++ [(WARNING, msg_increase 2)])))).
Proof.
  exact (schur_compute_failure eigengap_spec table_schur 2 None krylov LM 1
           (new_world "Schur" (kernel_of false T_full))
           (NumericalError "The Schur solver did not converge")
           (Schur._compute eigengap_spec table_schur 2 None krylov LM 1
              (new_world "Schur" (kernel_of false T_full))).2
           ltac:(vm_compute; reflexivity)).
Defined.

(** The theorem of X15 on the cycle: the Schur decomposition, then the
    eigenvalues. *)
Lemma later_decomposition_replaces_earlier_witness :
  let w := new_world "Schur" (kernel_of true T_cycle) in
  let w1 := (Schur._compute eigengap_spec table_schur 2 None krylov LM 1 w).2 in
  let w2 := (Eigen._compute eigengap_spec table_eigs table_eig 2 LM 1 true None w1).2 in
  ∃ e1 e2,
    _eig (self w1) = Some e1 ∧ uns (adata w1) !! eig_key (self w) = Some e1 ∧
    _eig (self w2) = Some e2 ∧ uns (adata w2) !! eig_key (self w) = Some e2 ∧
    uns (adata w2) = <[eig_key (self w) := e2]> (uns (adata w)).
Proof.
  apply (later_decomposition_replaces_earlier eigengap_spec table_schur table_eigs table_eig).
  - right. exists 2%Z, None, krylov, LM, 1%Q. vm_compute. reflexivity.
  - left. exists 2%Z, LM, 1%Q, true, None. vm_compute. reflexivity.
Defined.

(** The theorem of X16 on the chain [T_swap], asked for its eigenvalues
    only. *)
Lemma plot_eigendecomposition_needs_vectors_witness :
  let wE := (Eigen._compute eigengap_spec table_eigs table_eig 2 LR 1 true None
               (new_world "Eigen" (kernel_of false T_swap))).2 in
  plot_eigendecomposition (self wE) {| obs_names := ["c0"; "c1"; "c2"]; uns := ∅ |}
    false UseNone = Fails RuntimeError.
Proof.
  exact (proj1 (plot_eigendecomposition_needs_vectors eigengap_spec table_schur
                  table_eigs table_eig 2 LR 1 true None 2 None krylov LM
                  (new_world "Eigen" (kernel_of false T_swap))
                  (Eigen._compute eigengap_spec table_eigs table_eig 2 LR 1 true None
                     (new_world "Eigen" (kernel_of false T_swap))).2
                  (new_world "Eigen" (kernel_of false T_swap)))
           ltac:(vm_compute; reflexivity)
           {| obs_names := ["c0"; "c1"; "c2"]; uns := ∅ |} false UseNone).
Defined.

(** The theorem of X17 on the cycle, where three components are
    retained. *)
Lemma plot_schur_matrix_after_compute_witness :
  let w := new_world "Schur" (kernel_of true T_cycle) in
  let w' := (Schur._compute eigengap_spec table_schur 2 None krylov LM 1 w).2 in
  ∃ h m, plot_schur_matrix (self w') = Returns h ∧
    (m = Z.to_nat 2 ∨ m = Z.to_nat (2 + 1)) ∧
    splits (sf_R cycle_schur_form) m = false ∧
    sh_matrix h = leading m (sf_R cycle_schur_form) ∧
    sh_mask h = schur_mask (leading m (sf_R cycle_schur_form)).
Proof.
  exact (plot_schur_matrix_after_compute eigengap_spec table_schur 2 None krylov LM 1
           (new_world "Schur" (kernel_of true T_cycle))
           (Schur._compute eigengap_spec table_schur 2 None krylov LM 1
              (new_world "Schur" (kernel_of true T_cycle))).2
           cycle_schur_form
           1%Q [0; 0; 0]%Q [[0; 0; -1; 0]; [0; 1; 0; 0]; [0; 0; 0; -1]]%Q
           ltac:(vm_compute; reflexivity) ltac:(reflexivity)
           ltac:(vm_compute; reflexivity)).
Defined.

(** The theorem of X18 on the chain [T_swap], whose third state is
    transient. *)
Lemma compute_partition_idempotent_witness :
  let w := new_world "Partitioner" (kernel_of false T_swap) in
  let w1 := (compute_partition partition_spec make_cat_model w).2 in
  Ok () = Ok () ∧ adata w1 = adata w ∧
  class_name (self w1) = class_name (self w) ∧ kernel (self w1) = kernel (self w) ∧
  _eig (self w1) = _eig (self w) ∧ _gpcca (self w1) = _gpcca (self w) ∧
  _schur (self w1) = _schur (self w) ∧ _schur_mat (self w1) = _schur_mat (self w) ∧
  ∃ w2, compute_partition partition_spec make_cat_model w1 = (Ok (), w2) ∧
        self w2 = self w1 ∧ adata w2 = adata w1.
Proof.
  exact (compute_partition_idempotent partition_spec make_cat_model
           (new_world "Partitioner" (kernel_of false T_swap)) (Ok ())
           (compute_partition partition_spec make_cat_model
              (new_world "Partitioner" (kernel_of false T_swap))).2
           ltac:(vm_compute; reflexivity)).
Defined.

(** ** [_plot_vectors] and [plot_eigendecomposition] *)

Lemma foldr_Zmax_spec (u : Z) (l : list Z) :
  foldr Z.max u l ∈ u :: l ∧ Forall (λ i, i ≤ foldr Z.max u l)%Z (u :: l).
Proof.
  induction l as [| y l [IHin IHall]]; simpl.
  - split; [left | repeat constructor; lia].
  - inversion IHall as [| ? ? Hu Hl]; subst. split.
    + destruct (Z.max_spec y (foldr Z.max u l)) as [[_ ->] | [_ ->]].
      * apply elem_of_cons in IHin as [-> | Hin]; [left | right; right; exact Hin].
      * right. left.
    + constructor; [lia |]. constructor; [lia |].
      eapply Forall_impl; [exact Hl |]. intros z Hz. simpl in Hz. lia.
Qed.

Lemma py_range_elem_of (a b i : Z) : i ∈ py_range a b ↔ (a ≤ i < b)%Z.
Proof.
  unfold py_range. rewrite list_elem_of_fmap. split.
  - intros (k & -> & Hk). apply elem_of_seq in Hk. lia.
  - intros Hi. exists (Z.to_nat (i - a)). split; [lia |]. apply elem_of_seq. lia.
Qed.

Lemma py_range_nil (a b : Z) : (b ≤ a)%Z → py_range a b = [].
Proof. intros H. unfold py_range. by replace (Z.to_nat (b - a)) with 0%nat by lia. Qed.

Lemma py_range_length (a b : Z) : length (py_range a b) = Z.to_nat (b - a).
Proof. unfold py_range. by rewrite length_fmap, length_seq. Qed.

Lemma np_index_Some (n : nat) (i : Z) (c : nat) :
  np_index n i = Some c → (- Z.of_nat n ≤ i < Z.of_nat n)%Z ∧ (c < n)%nat.
Proof.
  unfold np_index. intros H.
  destruct (decide (0 ≤ i < Z.of_nat n)%Z); [injection H as <-; lia |].
  destruct (decide (- Z.of_nat n ≤ i < 0)%Z); [injection H as <-; lia | done].
Qed.

Lemma fancy_index_seq_mid {A} (pre a post : list A) :
  fancy_index (pre ++ a ++ post) (seq (length pre) (length a)) = Some a.
Proof.
  revert pre. induction a as [| x a IH]; intros pre; [done |].
  unfold fancy_index in *. simpl.
  rewrite lookup_app_r by lia. rewrite Nat.sub_diag. simpl.
  specialize (IH (pre ++ [x])).
  rewrite length_app in IH. simpl in IH. rewrite Nat.add_1_r in IH.
  rewrite <- (assoc_L (++)) in IH. simpl in IH. by rewrite IH.
Qed.

Lemma fancy_index_seq {A} (r : list A) (s n : nat) :
  (s + n ≤ length r)%nat → fancy_index r (seq s n) = Some (take n (drop s r)).
Proof.
  intros Hlen.
  assert (H1 : length (take s r) = s) by (rewrite length_take; lia).
  assert (H2 : length (take n (drop s r)) = n) by (rewrite length_take, length_drop; lia).
  pose proof (fancy_index_seq_mid (take s r) (take n (drop s r)) (drop n (drop s r))) as H.
  rewrite H1, H2 in H. rewrite (take_drop n (drop s r)), (take_drop s r) in H. exact H.
Qed.

Lemma index_columns_range {A} (V : matrix A) (s n : nat) :
  Forall (λ r, length r = shape1 V) V → (s + n ≤ shape1 V)%nat →
  index_columns V (py_range (Z.of_nat s) (Z.of_nat n + Z.of_nat s))
    = Some ((λ r, take n (drop s r)) <$> V).
Proof.
  intros Hrect Hlen. unfold index_columns.
  assert (Hcols : mapM (np_index (shape1 V)) (py_range (Z.of_nat s) (Z.of_nat n + Z.of_nat s))
                  = Some (seq s n)).
  { apply mapM_Some. unfold py_range.
    replace (Z.to_nat (Z.of_nat n + Z.of_nat s - Z.of_nat s)) with n by lia.
    apply Forall2_fmap_l. apply Forall2_same_length_lookup. split; [by rewrite !length_seq |].
    intros i k c Hk Hc. apply lookup_seq in Hk as [-> Hi]. apply lookup_seq in Hc as [-> _].
    simpl. unfold np_index. rewrite decide_True by lia. f_equal. lia. }
  rewrite Hcols. simpl. unfold take_columns. apply mapM_Some.
  apply Forall2_fmap_r. apply Forall_Forall2_diag.
  eapply Forall_impl; [exact Hrect |]. intros r Hr. cbv beta in Hr |- *.
  apply fancy_index_seq. lia.
Qed.

(** What [_plot_vectors] does with an integer [use] over a matrix of
    vectors that matches the cells: [s] is 1 for Schur vectors, whose first
    is skipped, and 0 for eigenvectors. *)
Lemma plot_vectors_int_run {A} (a : AnnData) (V : matrix A) (prop : vector_kind) (n : Z) :
  prop = KindEig ∨ prop = KindSchur →
  length (obs_names a) = shape0 V →
  Forall (λ r, length r = shape1 V) V →
  let s := match prop with KindSchur => 1%nat | _ => 0%nat end in
  ((n ≤ 0)%Z →
   _plot_vectors a (Some V) prop (UseInt n) = Fails (Builtin (ValueError msg_nothing))) ∧
  ((0 < n)%Z → (Z.of_nat (shape1 V) < n + Z.of_nat s)%Z →
   ∃ msg, _plot_vectors a (Some V) prop (UseInt n) = Fails (Builtin (ValueError msg))) ∧
  ((0 < n)%Z → (n + Z.of_nat s ≤ Z.of_nat (shape1 V))%Z →
   _plot_vectors a (Some V) prop (UseInt n)
     = Returns (py_range (Z.of_nat s) (n + Z.of_nat s),
                (λ r, take (Z.to_nat n) (drop s r)) <$> V)).
Proof.
  intros Hprop Hobs Hrect s.
  assert (Hrun : _plot_vectors a (Some V) prop (UseInt n) =
            match py_range (Z.of_nat s) (n + Z.of_nat s) with
            | [] => Fails (Builtin (ValueError msg_nothing))
            | u :: use' =>
                if bool_decide (Z.of_nat (shape1 V) ≤ foldr Z.max u use')%Z then
                  Fails (Builtin (ValueError
                    (msg_maximum (match prop with KindSchur => "Schur " | _ => "eigen" end)
                       (foldr Z.max u use') (shape1 V))))
                else
                  match index_columns V (u :: use') with
                  | Some V_ => Returns (u :: use', V_)
                  | None => Fails (Builtin IndexError)
                  end
            end).
  { unfold _plot_vectors. destruct Hprop as [-> | ->]; subst s;
      rewrite (bool_decide_true _ Hobs); reflexivity. }
  rewrite Hrun. clear Hrun.
  split; [| split].
  - intros Hn. by rewrite py_range_nil by lia.
  - intros Hn Hbig.
    destruct (py_range (Z.of_nat s) (n + Z.of_nat s)) as [| u use'] eqn:Hr.
    { apply (f_equal length) in Hr. rewrite py_range_length in Hr. simpl in Hr. lia. }
    destruct (foldr_Zmax_spec u use') as [_ Hmax]. rewrite <- Hr in Hmax.
    rewrite Forall_forall in Hmax.
    assert (Hlast : (n + Z.of_nat s - 1 ≤ foldr Z.max u use')%Z).
    { apply Hmax. apply py_range_elem_of. lia. }
    rewrite bool_decide_true by lia. by eexists.
  - intros Hn Hfit.
    pose proof (index_columns_range V s (Z.to_nat n) Hrect ltac:(lia)) as Hcols.
    rewrite Z2Nat.id in Hcols by lia.
    destruct (py_range (Z.of_nat s) (n + Z.of_nat s)) as [| u use'] eqn:Hr.
    { apply (f_equal length) in Hr. rewrite py_range_length in Hr. simpl in Hr. lia. }
    destruct (foldr_Zmax_spec u use') as [Hin _]. rewrite <- Hr in Hin.
    apply py_range_elem_of in Hin.
    rewrite bool_decide_false by lia. by rewrite Hcols.
Qed.

(** X19.  With an integer [use], [_plot_vectors] selects that many
    vectors in a row, from the first eigenvector or from the second Schur
    vector on, the first Schur vector being skipped: it refuses a [use]
    that is not positive, and one that reaches beyond the last vector, so
    that of [n] Schur vectors at most [n - 1] can be asked for.  Without
    [use] it selects all the vectors but one. *)
Theorem plot_vectors_selects_first {A} (a : AnnData) (V : matrix A) (prop : vector_kind)
    (n : Z) :
  prop = KindEig ∨ prop = KindSchur →
  length (obs_names a) = shape0 V →
  Forall (λ r, length r = shape1 V) V →
  let s := match prop with KindSchur => 1%nat | _ => 0%nat end in
  ((n ≤ 0)%Z →
   _plot_vectors a (Some V) prop (UseInt n) = Fails (Builtin (ValueError msg_nothing))) ∧
  ((0 < n)%Z → (Z.of_nat (shape1 V) < n + Z.of_nat s)%Z →
   ∃ msg, _plot_vectors a (Some V) prop (UseInt n) = Fails (Builtin (ValueError msg))) ∧
  ((0 < n)%Z → (n + Z.of_nat s ≤ Z.of_nat (shape1 V))%Z →
   _plot_vectors a (Some V) prop (UseInt n)
     = Returns (py_range (Z.of_nat s) (n + Z.of_nat s),
                (λ r, take (Z.to_nat n) (drop s r)) <$> V)) ∧
  _plot_vectors a (Some V) prop UseNone
    = _plot_vectors a (Some V) prop (UseInt (Z.of_nat (shape1 V) - 1)).
Proof.
  intros Hprop Hobs Hrect s.
  destruct (plot_vectors_int_run a V prop n Hprop Hobs Hrect) as (H1 & H2 & H3).
  repeat split; try assumption.
  unfold _plot_vectors. destruct Hprop as [-> | ->];
    rewrite (bool_decide_true _ Hobs); cbn [negb];
    match goal with
    | |- context [py_range ?a ?b] =>
        match goal with
        | |- context [py_range a ?b'] =>
            lazymatch b' with
            | b => fail
            | _ => replace b' with b by lia
            end
        end
    end; reflexivity.
Qed.

(** The theorem of X19 on the three Schur vectors of the cycle over four
    cells. *)
Lemma plot_vectors_selects_first_witness :
  let a := {| obs_names := ["c0"; "c1"; "c2"; "c3"]; uns := ∅ |} in
  let V := firstn 3 <$> sf_X cycle_schur_form in
  ((3 ≤ 0)%Z →
   _plot_vectors a (Some V) KindSchur (UseInt 3) = Fails (Builtin (ValueError msg_nothing))) ∧
  ((0 < 3)%Z → (Z.of_nat (shape1 V) < 3 + Z.of_nat 1)%Z →
   ∃ msg, _plot_vectors a (Some V) KindSchur (UseInt 3) = Fails (Builtin (ValueError msg))) ∧
  ((0 < 3)%Z → (3 + Z.of_nat 1 ≤ Z.of_nat (shape1 V))%Z →
   _plot_vectors a (Some V) KindSchur (UseInt 3)
     = Returns (py_range (Z.of_nat 1) (3 + Z.of_nat 1),
                (λ r, take (Z.to_nat 3) (drop 1 r)) <$> V)) ∧
  _plot_vectors a (Some V) KindSchur UseNone
    = _plot_vectors a (Some V) KindSchur (UseInt (Z.of_nat (shape1 V) - 1)).
Proof.
  exact (plot_vectors_selects_first
           {| obs_names := ["c0"; "c1"; "c2"; "c3"]; uns := ∅ |}
           (firstn 3 <$> sf_X cycle_schur_form) KindSchur 3
           ltac:(right; reflexivity) ltac:(reflexivity) ltac:(repeat constructor)).
Defined.

Lemma index_columns_shape {A} (V V_ : matrix A) (sel : list Z) :
  index_columns V sel = Some V_ →
  Forall (λ i, - Z.of_nat (shape1 V) ≤ i < Z.of_nat (shape1 V))%Z sel ∧
  shape0 V_ = shape0 V ∧ Forall (λ r, length r = length sel) V_.
Proof.
  unfold index_columns. intros H.
  destruct (mapM (np_index (shape1 V)) sel) as [cols |] eqn:Hcols; [| done].
  simpl in H. apply mapM_Some in Hcols. split; [| split].
  - apply Forall_forall. intros i Hi.
    apply list_elem_of_lookup in Hi as [j Hj].
    destruct (Forall2_lookup_l _ _ _ _ _ Hcols Hj) as (c & _ & Hc).
    by apply np_index_Some in Hc as [Hc _].
  - apply take_columns_spec in H. apply Forall2_length in H. unfold shape0. lia.
  - apply take_columns_spec in H. apply Forall2_length in Hcols.
    apply Forall_forall. intros r Hr. apply list_elem_of_lookup in Hr as [j Hj].
    destruct (Forall2_lookup_r _ _ _ _ _ H Hj) as (r0 & _ & Hr0).
    apply fancy_index_length in Hr0. lia.
Qed.

(** X20.  Where [_plot_vectors] gets as far as selecting vectors, its
    arguments were checked: the kind is one of the two it knows, the
    vectors were computed and have one row for each cell, and the
    selection is not empty and names positions of vectors that exist, a
    negative position counting from the last.  The vectors selected have
    one row for each cell and one column for each position, and a
    selection made from an integer or from nothing never has the first
    Schur vector. *)
Theorem plot_vectors_selection_checked {A} (a : AnnData) (vectors : option (matrix A))
    (prop : vector_kind) (use : use_arg) (sel : list Z) (V_ : matrix A) :
  _plot_vectors a vectors prop use = Returns (sel, V_) →
  (prop = KindEig ∨ prop = KindSchur) ∧
  ∃ V, vectors = Some V ∧
    length (obs_names a) = shape0 V ∧
    sel ≠ [] ∧
    Forall (λ i, - Z.of_nat (shape1 V) ≤ i < Z.of_nat (shape1 V))%Z sel ∧
    shape0 V_ = shape0 V ∧
    Forall (λ r, length r = length sel) V_ ∧
    (prop = KindSchur → use = UseNone ∨ (∃ n, use = UseInt n) →
     Forall (λ i, 1 ≤ i)%Z sel).
Proof.
  unfold _plot_vectors. intros H.
  destruct prop as [| | p]; [| | done];
    (destruct vectors as [V |]; [| done]);
    (destruct (bool_decide (length (obs_names a) = shape0 V)) eqn:Hobs;
       [apply bool_decide_eq_true in Hobs | done]);
    cbn [negb] in H;
    match type of H with
    | context [match ?r with Some _ => _ | None => _ end] =>
        destruct r as [[| u sel'] |] eqn:Hres; try done
    end;
    (destruct (bool_decide _); [done |]);
    (destruct (index_columns V (u :: sel')) as [V' |] eqn:Hcols; [| done]);
    injection H as <- <-;
    destruct (index_columns_shape V V' (u :: sel') Hcols) as (Hb & Hs0 & Hrows).
  - split; [by left |]. exists V. repeat split; try done.
  - split; [by right |]. exists V. repeat split; try done.
    intros _ [-> | [n ->]]; injection Hres as Hres; rewrite <- Hres;
      apply Forall_forall; intros i Hi; apply py_range_elem_of in Hi; lia.
Qed.

(** The theorem of X20 on a selection of the last Schur vector of the
    cycle by a negative position. *)
Lemma plot_vectors_selection_checked_witness :
  let a := {| obs_names := ["c0"; "c1"; "c2"; "c3"]; uns := ∅ |} in
  let vectors := Some (firstn 3 <$> sf_X cycle_schur_form) in
  let sel := [(-1)%Z] in
  let V_ := [[1#2]; [(-1#2)]; [(-1#2)]; [1#2]]%Q in
  (KindSchur = KindEig ∨ KindSchur = KindSchur) ∧
  ∃ V, vectors = Some V ∧
    length (obs_names a) = shape0 V ∧
    sel ≠ [] ∧
    Forall (λ i, - Z.of_nat (shape1 V) ≤ i < Z.of_nat (shape1 V))%Z sel ∧
    shape0 V_ = shape0 V ∧
    Forall (λ r, length r = length sel) V_ ∧
    (KindSchur = KindSchur →
     UseSeq [ItemInt (-1)%Z] = UseNone ∨ (∃ n, UseSeq [ItemInt (-1)%Z] = UseInt n) →
     Forall (λ i, 1 ≤ i)%Z sel).
Proof.
  apply (plot_vectors_selection_checked
           {| obs_names := ["c0"; "c1"; "c2"; "c3"]; uns := ∅ |}
           (Some (firstn 3 <$> sf_X cycle_schur_form)) KindSchur
           (UseSeq [ItemInt (-1)%Z]) [(-1)%Z] [[1#2]; [(-1#2)]; [(-1#2)]; [1#2]]%Q).
  vm_compute. reflexivity.
Defined.

Lemma set_first_column_shape (V : matrix complex) :
  Forall (λ r, length r = shape1 V) V → (0 < shape1 V)%nat →
  ∃ V', set_first_column V = Some V' ∧
        shape0 V' = shape0 V ∧ shape1 V' = shape1 V ∧
        Forall (λ r, length r = shape1 V') V' ∧
        Forall2 (λ r r', ∃ x, r = x :: tail r' ∧ r' = of_real 1 :: tail r) V V'.
Proof.
  intros Hrect Hpos.
  set (n := shape1 V) in *.
  assert (Hex : ∃ V', set_first_column V = Some V' ∧
                      Forall2 (λ r r', ∃ x, r = x :: tail r' ∧ r' = of_real 1 :: tail r) V V').
  { clearbody n. induction Hrect as [| r V' Hr _ IH].
    - exists []. split; [done | constructor].
    - destruct IH as (W & HW & HF). destruct r as [| x r]; [simpl in Hr; lia |].
      exists ((of_real 1 :: r) :: W). split.
      + unfold set_first_column in *. cbn. rewrite HW. done.
      + constructor; [by exists x | exact HF]. }
  destruct Hex as (V' & HV' & HF). exists V'. split; [exact HV' |].
  assert (Hlen : Forall (λ r, length r = n) V').
  { apply Forall_forall. intros r' Hr'. apply list_elem_of_lookup in Hr' as [i Hi].
    destruct (Forall2_lookup_r _ _ _ _ _ HF Hi) as (r & Hr & x & Hrx & Hr'x).
    rewrite Forall_forall in Hrect.
    assert (Hrn : length r = n) by (apply Hrect; eapply list_elem_of_lookup_2, Hr).
    rewrite Hr'x. rewrite Hrx in Hrn. simpl in *. rewrite Hr'x in Hrn. simpl in Hrn. lia. }
  assert (Hs1 : shape1 V' = n).
  { destruct HF as [| r r' V0 V0' (x & Hrx & Hr'x) _].
    - subst n. done.
    - inversion Hlen; subst. simpl. done. }
  repeat split; try done.
  - apply Forall2_length in HF. unfold shape0. lia.
  - by rewrite Hs1.
Qed.

(** X21.  Without [use], [plot_eigendecomposition] selects the
    eigenvectors up to the eigengap, one more than its position: over
    stored eigenvectors that match the cells and have a column at the
    eigengap, it hands over their first [eigengap + 1] columns, the first
    column of the right eigenvectors replaced by ones where exactly one
    eigenvalue is close to one. *)
Theorem plot_eigendecomposition_default_use (s : Estimator) (a : AnnData) (left : bool)
    (e : eig_dict) (V : matrix complex) :
  _eig s = Some e →
  (if left then eig_V_l e else eig_V_r e) = Some V →
  length (obs_names a) = shape0 V →
  Forall (λ r, length r = shape1 V) V →
  (eig_eigengap e < shape1 V)%nat →
  ∃ V',
    (if negb left
        && bool_decide (length (filter (λ z, isclose_one z = true) (eig_D e)) = 1%nat)
     then set_first_column V = Some V' else V' = V) ∧
    plot_eigendecomposition s a left UseNone
      = Returns (Z.of_nat <$> seq 0 (S (eig_eigengap e)),
                 take (S (eig_eigengap e)) <$> V').
Proof.
  intros He HV Hobs Hrect Hgap.
  unfold plot_eigendecomposition. rewrite He, HV.
  set (irr := negb left && bool_decide _).
  assert (HV' : ∃ V', (if irr then set_first_column V = Some V' else V' = V) ∧
                      shape0 V' = shape0 V ∧ shape1 V' = shape1 V ∧
                      Forall (λ r, length r = shape1 V') V').
  { destruct irr.
    - destruct (set_first_column_shape V Hrect ltac:(lia)) as (V' & H1 & H2 & H3 & H4 & _).
      by exists V'.
    - by exists V. }
  destruct HV' as (V' & Hsel & Hs0 & Hs1 & Hrect').
  exists V'. split; [exact Hsel |].
  assert (Hstep : (if irr then set_first_column V else Some V) = Some V').
  { destruct irr; [exact Hsel | by rewrite Hsel]. }
  rewrite Hstep.
  destruct (plot_vectors_int_run a V' KindEig (Z.of_nat (eig_eigengap e) + 1)
              ltac:(by left) ltac:(by rewrite Hs0) Hrect') as (_ & _ & Hrun).
  rewrite Hrun by lia. f_equal. f_equal.
  - unfold py_range. simpl Z.of_nat. rewrite Z.add_0_r, Z.sub_0_r.
    replace (Z.to_nat (Z.of_nat (eig_eigengap e) + 1)) with (S (eig_eigengap e)) by lia.
    apply list_fmap_ext. intros i k _. lia.
  - apply list_fmap_ext. intros i r _. rewrite drop_0. f_equal. lia.
Qed.

(** The theorem of X21 on the right eigenvectors of the chain
    [T_swap]. *)
Lemma plot_eigendecomposition_default_use_witness :
  let w := (Eigen._compute eigengap_spec table_eigs table_eig 3 LR 1 false None
              (new_world "Eigen" (kernel_of false T_swap))).2 in
  let a := {| obs_names := ["c0"; "c1"; "c2"]; uns := ∅ |} in
  let e := default (evals_dict [] 0 (mk_params LR 0 0)) (_eig (self w)) in
  let V := default [] (eig_V_r e) in
  ∃ V',
    (if negb false
        && bool_decide (length (filter (λ z, isclose_one z = true) (eig_D e)) = 1%nat)
     then set_first_column V = Some V' else V' = V) ∧
    plot_eigendecomposition (self w) a false UseNone
      = Returns (Z.of_nat <$> seq 0 (S (eig_eigengap e)),
                 take (S (eig_eigengap e)) <$> V').
Proof.
  apply (plot_eigendecomposition_default_use _ _ false).
  - vm_compute. reflexivity.
  - vm_compute. reflexivity.
  - vm_compute. reflexivity.
  - vm_compute. repeat constructor.
  - vm_compute. lia.
Defined.

(** ** [plot_spectrum] and the eigenvalues it is given *)

Lemma imap_pairs_fst {A} (l : list A) : (imap (λ i x, (i, x)) l).*1 = seq 0 (length l).
Proof.
  apply list_eq. intros i. rewrite list_lookup_fmap, list_lookup_imap.
  destruct (l !! i) as [x |] eqn:Hx; simpl.
  - symmetry. apply lookup_seq. split; [done |]. by apply lookup_lt_Some in Hx.
  - symmetry. apply lookup_ge_None. rewrite length_seq. by apply lookup_ge_None in Hx.
Qed.

Lemma imap_pairs_elem_of {A} (l : list A) i x :
  (i, x) ∈ imap (λ i x, (i, x)) l ↔ l !! i = Some x.
Proof.
  rewrite list_elem_of_lookup. split.
  - intros [j Hj]. rewrite list_lookup_imap in Hj.
    destruct (l !! j) as [y |] eqn:Hy; [| done]. simpl in Hj. by injection Hj as <- <-.
  - intros Hx. exists i. by rewrite list_lookup_imap, Hx.
Qed.

(** X22.  [_plot_real_spectrum] draws every eigenvalue once, at its
    position and at the height of its real part: the positions of the
    points of the two colours together are the ticks [0 .. len(D) - 1], and
    a point is drawn as a real eigenvalue exactly when the imaginary part
    of the eigenvalue is zero. *)
Theorem real_spectrum_draws_each_once (eig : eig_dict) (title : option string) :
  let fig := _plot_real_spectrum eig title in
  (rs_real fig ++ rs_complex fig).*1 ≡ₚ rs_xticks fig ∧
  rs_xticks fig = seq 0 (length (eig_D eig)) ∧
  (∀ i x, (i, x) ∈ rs_real fig ↔
     ∃ z, eig_D eig !! i = Some z ∧ x = re z ∧ Qeq_bool (im z) 0 = true) ∧
  (∀ i x, (i, x) ∈ rs_complex fig ↔
     ∃ z, eig_D eig !! i = Some z ∧ x = re z ∧ Qeq_bool (im z) 0 = false).
Proof.
  cbn zeta. unfold _plot_real_spectrum. cbn [rs_real rs_complex rs_xticks].
  set (points := imap (λ i z, (i, z)) (eig_D eig)).
  set (real_at := λ iz : nat * complex, (iz.1, re iz.2)).
  split; [| split; [done | split]].
  - rewrite <- fmap_app.
    rewrite (filter_bool_split (λ iz : nat * complex, Qeq_bool (im iz.2) 0) points).
    rewrite <- list_fmap_compose.
    replace (fst ∘ real_at) with (@fst nat complex) by done.
    subst points. by rewrite imap_pairs_fst.
  - intros i x. rewrite list_elem_of_fmap. split.
    + intros ([j z] & [= -> ->] & Hin). apply list_elem_of_filter in Hin as [Him Hin].
      apply imap_pairs_elem_of in Hin. by exists z.
    + intros (z & Hz & -> & Him). exists (i, z). split; [done |].
      apply list_elem_of_filter. split; [done |]. by apply imap_pairs_elem_of.
  - intros i x. rewrite list_elem_of_fmap. split.
    + intros ([j z] & [= -> ->] & Hin). apply list_elem_of_filter in Hin as [Him Hin].
      apply imap_pairs_elem_of in Hin. by exists z.
    + intros (z & Hz & -> & Him). exists (i, z). split; [done |].
      apply list_elem_of_filter. split; [done |]. by apply imap_pairs_elem_of.
Qed.

Section SpectrumAfterRuns.
Variable _eigengap : ndarray → Q → nat.
Variable sorted_schur :
  matrix Q → option (list Q) → Which → Method → string + schur_form.
Variable eigs : matrix Q → Z → Which → option Z → res eigensystem.
Variable np_linalg_eig : matrix Q → res eigensystem.

(** X23.  After a decomposition returned, [plot_spectrum] finds the
    eigenvalues and does not ask for them to be computed.  The real
    spectrum is always drawn; the complex spectrum is drawn where an
    eigenvalue is stored, and fails with the ValueError of the minimum of
    an empty array where none is. *)
Theorem plot_spectrum_after_decomposition w w' title :
  decomposed _eigengap sorted_schur eigs np_linalg_eig w w' →
  ∃ e, _eig (self w') = Some e ∧
    plot_spectrum (self w') true title = Returns (RealSpectrum (_plot_real_spectrum e title)) ∧
    (eig_D e ≠ [] →
     ∃ fig, plot_spectrum (self w') false title = Returns (ComplexSpectrum fig)) ∧
    (eig_D e = [] →
     plot_spectrum (self w') false title
       = Fails (Builtin (ValueError (msg_zero_size "minimum")))).
Proof.
  intros H. apply decomposed_writes in H as (e & He & _).
  exists e. split; [exact He |]. unfold plot_spectrum. rewrite He.
  split; [done |]. split.
  - intros Hne. unfold _plot_complex_spectrum.
    destruct (eig_D e) as [| z D]; [done |]. cbn. by eexists.
  - intros Hnil. unfold _plot_complex_spectrum. rewrite Hnil. done.
Qed.

(** X24.  With [only_evals], [Eigen._compute] stores the eigenvalues of
    the largest real parts: what is stored are the first entries of the
    spectrum of the solver in descending order of the real part, so that no
    eigenvalue left out has a larger real part than one stored, and no
    eigenvectors or stationary distribution are stored.  For [k >= 0] the
    first [k] are stored, or all where there are fewer; a negative [k] is
    not refused, and leaves out the last [-k]. *)
Theorem eigen_only_evals_keeps_largest k which alpha ncv w D V_l :
  solve eigs np_linalg_eig (self w) (transpose (the_matrix w)) k which ncv = Ok (D, V_l) →
  ∃ w' e D',
    Eigen._compute _eigengap eigs np_linalg_eig k which alpha true ncv w = (Ok (), w') ∧
    _eig (self w') = Some e ∧
    D' ≡ₚ D ∧ sorted_under LR D' ∧
    eig_D e = take (length (eig_D e)) D' ∧
    length (eig_D e)
      = (if (0 <=? k)%Z then Z.to_nat k `min` length D
         else length D - Z.to_nat (- k))%nat ∧
    (∀ z z', z ∈ eig_D e → z' ∈ drop (length (eig_D e)) D' → (re z' <= re z)%Q) ∧
    eig_V_l e = None ∧ eig_V_r e = None ∧ eig_stationary_dist e = None.
Proof.
  intros Hsolve.
  destruct (Eigen_compute_evals_run _eigengap eigs np_linalg_eig k which alpha ncv w D V_l Hsolve)
    as (D' & HD' & Hrun).
  assert (Hperm : D' ≡ₚ D).
  { eapply fancy_index_perm; [| exact HD'].
    rewrite <- (length_fmap re D). apply flip_argsort_perm. }
  assert (Hsorted : sorted_under LR D') by (eapply sorted_indexing_descending, HD').
  assert (Hlen : length D' = length D) by (by apply Permutation_length).
  eexists _, _, D'. split; [exact Hrun |].
  split; [reflexivity |]. split; [exact Hperm |]. split; [exact Hsorted |].
  assert (HeD : ∀ a b c, eig_D (evals_dict a b c) = a) by reflexivity.
  rewrite !HeD.
  set (m0 := if (0 <=? k)%Z then Z.to_nat k else (length D' - Z.to_nat (- k))%nat).
  assert (Hslice : slice_to D' k = take m0 D').
  { unfold slice_to, m0. by destruct (0 <=? k)%Z. }
  rewrite Hslice.
  assert (Hlen_take : length (take m0 D') = m0 `min` length D').
  { apply length_take. }
  split.
  { rewrite Hlen_take. by rewrite <- take_take, firstn_all. }
  split.
  { rewrite Hlen_take, Hlen. unfold m0. rewrite Hlen. destruct (0 <=? k)%Z; lia. }
  split; [| done].
  intros z z' Hz Hz'.
  unfold sorted_under, descending in Hsorted.
  rewrite <- (take_drop (length (take m0 D')) D'), fmap_app in Hsorted.
  assert (Htake : take (length (take m0 D')) D' = take m0 D').
  { rewrite Hlen_take. by rewrite <- take_take, firstn_all. }
  rewrite Htake in Hsorted.
  apply (StronglySorted_app_1_elem_of _ _ _ (re z) (re z') Hsorted).
  - apply list_elem_of_fmap. by exists z.
  - apply list_elem_of_fmap. by exists z'.
Qed.

End SpectrumAfterRuns.

(** The theorem of X24 on the dense chain [T_swap] with [k = 2]. *)
Lemma eigen_only_evals_keeps_largest_witness :
  let w := new_world "Eigen" (kernel_of false T_swap) in
  ∃ w' e D',
    Eigen._compute eigengap_spec table_eigs table_eig 2 LR 1 true None w = (Ok (), w') ∧
    _eig (self w') = Some e ∧
    D' ≡ₚ T_swap_left.1 ∧ sorted_under LR D' ∧
    eig_D e = take (length (eig_D e)) D' ∧
    length (eig_D e)
      = (if (0 <=? 2)%Z then Z.to_nat 2 `min` length T_swap_left.1
         else length T_swap_left.1 - Z.to_nat (- 2))%nat ∧
    (∀ z z', z ∈ eig_D e → z' ∈ drop (length (eig_D e)) D' → (re z' <= re z)%Q) ∧
    eig_V_l e = None ∧ eig_V_r e = None ∧ eig_stationary_dist e = None.
Proof.
  exact (eigen_only_evals_keeps_largest eigengap_spec table_eigs table_eig 2 LR 1 None
           (new_world "Eigen" (kernel_of false T_swap)) T_swap_left.1 T_swap_left.2
           ltac:(vm_compute; reflexivity)).
Defined.

(** The theorem of X23 on the dense chain [T_swap] asked for no
    eigenvalue: the spectrum stored is empty. *)
Lemma plot_spectrum_after_decomposition_witness :
  let w := new_world "Eigen" (kernel_of false T_swap) in
  let w' := (Eigen._compute eigengap_spec table_eigs table_eig 0 LR 1 true None w).2 in
  ∃ e, _eig (self w') = Some e ∧
    plot_spectrum (self w') true None = Returns (RealSpectrum (_plot_real_spectrum e None)) ∧
    (eig_D e ≠ [] →
     ∃ fig, plot_spectrum (self w') false None = Returns (ComplexSpectrum fig)) ∧
    (eig_D e = [] →
     plot_spectrum (self w') false None
       = Fails (Builtin (ValueError (msg_zero_size "minimum")))).
Proof.
  apply (plot_spectrum_after_decomposition eigengap_spec table_schur table_eigs table_eig
           (new_world "Eigen" (kernel_of false T_swap))).
  left. exists 0%Z, LR, 1%Q, true, None. vm_compute. reflexivity.
Defined.

(** ** [find_nearest] *)

Lemma filter_none {A} (P : A → Prop) `{∀ x, Decision (P x)} (l : list A) :
  Forall (λ x, ¬ P x) l → filter P l = [].
Proof.
  induction 1 as [| x l Hx _ IH]; [done |].
  by rewrite filter_cons, decide_False.
Qed.

Lemma searchsorted_split (a : list Q) (v : Q) :
  Sorted Qle a →
  ∃ pre suf, a = pre ++ suf ∧ np_searchsorted_left a v = length pre ∧
    Forall (λ x, (x < v)%Q) pre ∧ Forall (λ x, (v <= x)%Q) suf ∧
    StronglySorted Qle (pre ++ suf).
Proof.
  intros Hs.
  apply Sorted_StronglySorted in Hs; [| intros x y z; apply Qle_trans].
  unfold np_searchsorted_left.
  induction Hs as [| x a Hs (pre & suf & Ha & Hix & Hpre & Hsuf & Hss) Hall].
  - exists [], []. repeat split; constructor.
  - rewrite filter_cons. destruct (decide (x < v)%Q) as [Hlt | Hge].
    + exists (x :: pre), suf. simpl. rewrite Hix. repeat split; try done.
      * by rewrite Ha at 1.
      * by constructor.
      * rewrite <- Ha. by constructor.
    + assert (Hnone : filter (λ y, (y < v)%Q) a = []).
      { apply filter_none. eapply Forall_impl; [exact Hall |].
        intros y Hy. simpl in Hy. lra. }
      rewrite Hnone. exists [], (x :: a). repeat split; try done.
      * constructor; [lra |]. eapply Forall_impl; [exact Hall |].
        intros y Hy. simpl in Hy. lra.
      * by constructor.
Qed.

Lemma snoc_cases {A} (l : list A) : l = [] ∨ ∃ l' x, l = l' ++ [x].
Proof.
  induction l as [| y l IH] using rev_ind; [by left | right; by eexists _, _].
Qed.

Lemma round_to_integer_rounding : rounding round_to_integer.
Proof.
  assert (Hpos : ∀ x, (0 <= x)%Q → (0 <= inject_Z (Qfloor (x + (1#2))))%Q).
  { intros x Hx. change 0%Q with (inject_Z 0). rewrite <- Zle_Qle.
    change 0%Z with (Qfloor 0). apply Qfloor_resp_le. lra. }
  assert (Hfloor : ∀ x y, (x <= y)%Q →
            (inject_Z (Qfloor (x + (1#2))) <= inject_Z (Qfloor (y + (1#2))))%Q).
  { intros x y Hxy. rewrite <- Zle_Qle. apply Qfloor_resp_le. lra. }
  assert (Hcomp : ∀ x y, (x == y)%Q →
            (inject_Z (Qfloor (x + (1#2))) == inject_Z (Qfloor (y + (1#2))))%Q).
  { intros x y Hxy. apply Qle_antisym; apply Hfloor; lra. }
  split.
  - intros x y Hxy. unfold round_to_integer.
    destruct (Qle_bool 0 x) eqn:Hx, (Qle_bool 0 y) eqn:Hy.
    + by apply Hfloor.
    + apply Qle_bool_iff in Hx. apply not_true_iff_false in Hy.
      rewrite Qle_bool_iff in Hy. lra.
    + apply Qle_bool_iff in Hy. apply not_true_iff_false in Hx.
      rewrite Qle_bool_iff in Hx.
      pose proof (Hpos y Hy). pose proof (Hpos (- x)%Q ltac:(lra)). lra.
    + pose proof (Hfloor (- y)%Q (- x)%Q ltac:(lra)). lra.
  - intros x. unfold round_to_integer.
    destruct (Qle_bool 0 x) eqn:Hx, (Qle_bool 0 (- x)) eqn:Hx'.
    + apply Qle_bool_iff in Hx, Hx'.
      pose proof (Hcomp x 0%Q ltac:(lra)). pose proof (Hcomp (- x)%Q 0%Q ltac:(lra)).
      change (inject_Z (Qfloor (0 + (1 # 2)))) with 0%Q in *. lra.
    + pose proof (Hcomp (- - x)%Q x ltac:(lra)). lra.
    + lra.
    + apply not_true_iff_false in Hx, Hx'. rewrite Qle_bool_iff in Hx, Hx'. lra.
Qed.

Section FindNearestTheorems.
Variable fl : Q → Q.
Hypothesis fl_rounding : rounding fl.

Lemma fl_proper x y : (x == y)%Q → (fl x == fl y)%Q.
Proof.
  intros Hxy. destruct fl_rounding as [Hmono _].
  apply Qle_antisym; apply Hmono; lra.
Qed.

Lemma fl_zero : (fl 0 == 0)%Q.
Proof. destruct fl_rounding as [_ Hodd]. pose proof (Hodd 0%Q) as H.
  change (- 0)%Q with 0%Q in H. lra.
Qed.

(** The computed distance [fabs(value - x)] is the rounded exact
    distance. *)
Lemma float_distance v x : (Qabs (float_sub fl v x) == fl (Qabs (v - x)))%Q.
Proof.
  destruct fl_rounding as [Hmono Hodd]. unfold float_sub.
  pose proof fl_zero as H0.
  destruct (Qlt_le_dec (v - x) 0) as [Hneg | Hpos].
  - pose proof (Hmono (v - x)%Q 0%Q ltac:(lra)).
    pose proof (Qabs_neg (v - x) ltac:(lra)) as Ha.
    rewrite (fl_proper _ _ Ha), Hodd. apply Qabs_neg. lra.
  - pose proof (Hmono 0%Q (v - x)%Q Hpos).
    pose proof (Qabs_pos (v - x) Hpos) as Ha.
    rewrite (fl_proper _ _ Ha). apply Qabs_pos. lra.
Qed.

(** The computed distance never orders two entries against their exact
    distances. *)
Lemma float_distance_monotone v x y :
  (Qabs (v - x) <= Qabs (v - y))%Q →
  (Qabs (float_sub fl v x) <= Qabs (float_sub fl v y))%Q.
Proof.
  intros Hd. rewrite !float_distance. by apply fl_rounding.
Qed.

(** X25.  The two subtractions of [find_nearest] are rounded by a rounding
    that is monotone and odd.  On an array in ascending order that is not
    empty, [find_nearest] returns the position of an entry whose computed
    distance to the value is the least: no entry of the array has a
    smaller computed distance.  An entry that is nearer to the value than
    the returned one has the same computed distance, so that the returned
    entry is a nearest one up to the rounding of the two differences, and
    a nearest one where the rounding is exact. *)
Theorem find_nearest_least_computed_distance (a : list Q) (v : Q) :
  Sorted Qle a → a ≠ [] →
  ∃ x, a !! find_nearest fl a v = Some x ∧
       (∀ y, y ∈ a → (Qabs (float_sub fl v x) <= Qabs (float_sub fl v y))%Q) ∧
       (∀ y, y ∈ a → (Qabs (v - y) < Qabs (v - x))%Q →
             (Qabs (float_sub fl v y) == Qabs (float_sub fl v x))%Q) ∧
       ((∀ z, fl z == z)%Q → ∀ y, y ∈ a → (Qabs (v - x) <= Qabs (v - y))%Q).
Proof.
  intros Hs Hne.
  assert (Hmain : ∃ x, a !! find_nearest fl a v = Some x ∧
            ∀ y, y ∈ a → (Qabs (float_sub fl v x) <= Qabs (float_sub fl v y))%Q).
  { destruct (searchsorted_split a v Hs) as (pre & suf & -> & Hix & Hpre & Hsuf & Hss).
    unfold find_nearest. rewrite Hix. clear Hix Hs.
    assert (Hbelow : ∀ x y, (y <= x)%Q → (x <= v)%Q →
              (Qabs (float_sub fl v x) <= Qabs (float_sub fl v y))%Q).
    { intros x y Hyx Hxv. apply float_distance_monotone.
      rewrite !Qabs_pos by lra. lra. }
    assert (Habove : ∀ x y, (v <= x)%Q → (x <= y)%Q →
              (Qabs (float_sub fl v x) <= Qabs (float_sub fl v y))%Q).
    { intros x y Hvx Hxy. apply float_distance_monotone.
      rewrite !Qabs_neg by lra. lra. }
    rewrite Forall_forall in Hpre, Hsuf.
    destruct (snoc_cases pre) as [-> | (pre' & L & ->)].
    - (* nothing is below the value *)
      simpl. destruct suf as [| R suf']; [done |].
      exists R. split; [done |]. intros y Hy.
      inversion Hss as [| ? ? _ Hall]; subst. rewrite Forall_forall in Hall.
      assert (HR : (v <= R)%Q) by (apply Hsuf; left).
      apply Habove; [exact HR |].
      apply elem_of_cons in Hy as [-> | Hy]; [lra | by apply Hall].
    - assert (HL : (L < v)%Q) by (apply Hpre; apply elem_of_app; right; left).
      assert (HpreL : ∀ y, y ∈ pre' ++ [L] → (y <= L)%Q).
      { intros y Hy. apply elem_of_app in Hy as [Hy | Hy].
        - rewrite <- (assoc_L (++)) in Hss.
          apply (StronglySorted_app_1_elem_of _ _ _ y L Hss Hy). left.
        - apply list_elem_of_singleton in Hy. subst. lra. }
      rewrite length_app. simpl length.
      replace (length pre' + 1 - 1)%nat with (length pre') by lia.
      rewrite (bool_decide_true (0 < length pre' + 1)%nat) by lia. cbn [andb].
      assert (HnthL : nth (length pre') ((pre' ++ [L]) ++ suf) 0%Q = L).
      { rewrite <- (assoc_L (++)). simpl. apply nth_middle. }
      assert (HlookL : ((pre' ++ [L]) ++ suf) !! length pre' = Some L).
      { rewrite <- (assoc_L (++)). simpl. apply list_lookup_middle. done. }
      rewrite HnthL.
      destruct suf as [| R suf'].
      + (* everything is below the value *)
        rewrite app_nil_r.
        rewrite (bool_decide_true (_ = _)) by (rewrite length_app; simpl; lia).
        cbn [orb]. exists L. split; [by rewrite app_nil_r in HlookL |].
        intros y Hy. pose proof (HpreL y Hy). apply Hbelow; lra.
      + assert (HR : (v <= R)%Q) by (apply Hsuf; left).
        assert (HsufR : ∀ y, y ∈ R :: suf' → (R <= y)%Q).
        { intros y Hy. apply StronglySorted_app_1_r in Hss.
          inversion Hss as [| ? ? _ Hall]; subst. rewrite Forall_forall in Hall.
          apply elem_of_cons in Hy as [-> | Hy]; [lra | by apply Hall]. }
        assert (HnthR : nth (length pre' + 1) ((pre' ++ [L]) ++ R :: suf') 0%Q = R).
        { replace (length pre' + 1)%nat with (length (pre' ++ [L]))
            by (rewrite length_app; simpl; lia). apply nth_middle. }
        assert (HlookR : ((pre' ++ [L]) ++ R :: suf') !! (length pre' + 1)%nat = Some R).
        { apply list_lookup_middle. rewrite length_app. simpl. lia. }
        rewrite HnthR.
        rewrite (bool_decide_false (_ = _))
          by (rewrite !length_app; simpl; lia).
        cbn [orb].
        destruct (bool_decide (Qabs (float_sub fl v L) < Qabs (float_sub fl v R))%Q)
          eqn:Hcmp.
        * apply bool_decide_eq_true in Hcmp.
          exists L. split; [exact HlookL |].
          intros y Hy. apply elem_of_app in Hy as [Hy | Hy].
          -- pose proof (HpreL y Hy). apply Hbelow; lra.
          -- pose proof (Habove R y HR (HsufR y Hy)). lra.
        * apply bool_decide_eq_false in Hcmp. apply Qnot_lt_le in Hcmp.
          exists R. split; [exact HlookR |].
          intros y Hy. apply elem_of_app in Hy as [Hy | Hy].
          -- pose proof (HpreL y Hy).
             pose proof (Hbelow L y ltac:(lra) ltac:(lra)). lra.
          -- apply Habove; [exact HR | by apply HsufR]. }
  destruct Hmain as (x & Hx & Hleast).
  exists x. split; [exact Hx |]. split; [exact Hleast |]. split.
  - intros y Hy Hlt. apply Qle_antisym; [| by apply Hleast].
    apply float_distance_monotone. lra.
  - intros Hexact y Hy. specialize (Hleast y Hy).
    rewrite !float_distance, !Hexact in Hleast. exact Hleast.
Qed.
End FindNearestTheorems.

(** The theorem of X25 on the array 1/100, 2 and the value 1, with the
    differences rounded to integers: both computed distances are 1, and
    the entry above the value is returned. *)
Lemma find_nearest_least_computed_distance_witness :
  ∃ x, [1#100; 2]%Q !! find_nearest round_to_integer [1#100; 2]%Q 1 = Some x ∧
       (∀ y, y ∈ [1#100; 2]%Q →
             (Qabs (float_sub round_to_integer 1 x)
                <= Qabs (float_sub round_to_integer 1 y))%Q) ∧
       (∀ y, y ∈ [1#100; 2]%Q → (Qabs (1 - y) < Qabs (1 - x))%Q →
             (Qabs (float_sub round_to_integer 1 y)
                == Qabs (float_sub round_to_integer 1 x))%Q) ∧
       ((∀ z, round_to_integer z == z)%Q →
        ∀ y, y ∈ [1#100; 2]%Q → (Qabs (1 - x) <= Qabs (1 - y))%Q).
Proof.
  exact (find_nearest_least_computed_distance round_to_integer round_to_integer_rounding
           [1#100; 2]%Q 1
           ltac:(repeat constructor; discriminate) ltac:(discriminate)).
Defined.

(** On that array the entry returned is not the nearest one; with exact
    differences it is. *)
Lemma find_nearest_rounded_example :
  find_nearest round_to_integer [1#100; 2]%Q 1 = 1%nat ∧
  find_nearest (λ x, x) [1#100; 2]%Q 1 = 0%nat.
Proof. vm_compute. split; reflexivity. Qed.

(** ** [PropertyMeta.update_attributes] *)

Lemma lstrip_underscore_stripped (s : string) :
  startswith_underscore (lstrip_underscore s) = false.
Proof.
  induction s as [| c s IH]; [done |].
  simpl. destruct (bool_decide (c = underscore)) eqn:Hc; [exact IH |].
  simpl. exact Hc.
Qed.

Lemma startswith_underscore_differs (s t : string) :
  startswith_underscore s = true → startswith_underscore t = false → t ≠ s.
Proof. intros Hs Ht ->. rewrite Hs in Ht. discriminate. Qed.

Section PropertyMetaTheorems.
Variables attr_value prop_value value doc_value type_value : Type.
Variable is_str_or_A : attr_value → bool.
Variable str_attr : attr_value → string.
Variable is_NO_PROPERTY is_EMPTY is_str_or_P : prop_value → bool.
Variable str_prop : prop_value → string.
Variable _create_property : string → doc_value → type_value → value.

(** X26.  Where [update_attributes] returns the name of a property, the
    name is not empty and does not start with an underscore while the name
    of the attribute does: the two are different keys, and the dictionary
    holds the default under the attribute and the property under its name,
    neither overwriting the other.  A name derived from the attribute is
    the attribute without its leading underscores, so that it is never
    refused for starting with one.  Where the property is refused, the
    attribute is in the dictionary all the same. *)
Theorem update_attributes_keys
    (md : option (Metadata attr_value prop_value value doc_value type_value))
    (d : gmap string value) (r : res (option string)) (d' : gmap string value) :
  update_attributes is_str_or_A str_attr is_NO_PROPERTY is_EMPTY is_str_or_P str_prop
    _create_property md d = (r, d') →
  match r with
  | Ok (Some name) =>
      ∃ m, md = Some m ∧
        startswith_underscore (str_attr (md_attr m)) = true ∧
        String.length name ≠ 0%nat ∧
        startswith_underscore name = false ∧
        name ≠ str_attr (md_attr m) ∧
        d' !! str_attr (md_attr m) = Some (md_default m) ∧
        d' !! name = Some (_create_property (str_attr (md_attr m))
                             (md_doc m) (md_dtype m)) ∧
        (∀ key, key ≠ name → key ≠ str_attr (md_attr m) → d' !! key = d !! key) ∧
        (is_EMPTY (md_prop m) = true →
         name = lstrip_underscore (str_attr (md_attr m)))
  | Ok None =>
      ∃ m, md = Some m ∧ is_NO_PROPERTY (md_prop m) = true ∧
        d' = <[str_attr (md_attr m) := md_default m]> d
  | Raise x =>
      d' = d ∨
      ∃ m, md = Some m ∧ is_NO_PROPERTY (md_prop m) = false ∧
        d' = <[str_attr (md_attr m) := md_default m]> d ∧
        (x = ValueError msg_prop_underscore → is_EMPTY (md_prop m) = false)
  end.
Proof.
  unfold update_attributes. intros H.
  destruct md as [m |]; [| injection H as <- <-; by left].
  destruct (is_str_or_A _); cbn [negb] in H; [| injection H as <- <-; by left].
  destruct (startswith_underscore (str_attr _)) eqn:Hattr; cbn [negb] in H;
    [| injection H as <- <-; by left].
  destruct (is_NO_PROPERTY _) eqn:Hno.
  { injection H as <- <-. by exists m. }
  destruct (is_str_or_P _); cbn [negb] in H.
  2: { injection H as <- <-. right. exists m. repeat split; try done. }
  set (name := if is_EMPTY _ then _ else _) in H.
  destruct (bool_decide (String.length name = 0%nat)) eqn:Hlen.
  { injection H as <- <-. right. exists m. repeat split; try done. }
  apply bool_decide_eq_false in Hlen.
  destruct (startswith_underscore name) eqn:Hname.
  { injection H as <- <-. right. exists m. repeat split; try done. intros _.
    destruct (is_EMPTY _); [| done].
    subst name. by rewrite lstrip_underscore_stripped in Hname. }
  injection H as <- <-.
  pose proof (startswith_underscore_differs _ _ Hattr Hname) as Hdiff.
  exists m. repeat split; try done.
  - rewrite lookup_insert_ne by done. by rewrite lookup_insert_eq.
  - by rewrite lookup_insert_eq.
  - intros key H1 H2. by rewrite !lookup_insert_ne.
  - intros He. subst name. by rewrite He.
Qed.
End PropertyMetaTheorems.

(** The theorem of X26 on the attribute [_eig] with a property named after
    it. *)
Lemma update_attributes_keys_witness :
  let md := {| md_attr := "_eig"; md_prop := @None string; md_default := 0%nat;
               md_doc := (); md_dtype := () |} in
  ∃ m, Some md = Some m ∧
    startswith_underscore (md_attr m) = true ∧
    String.length "eig" ≠ 0%nat ∧
    startswith_underscore "eig" = false ∧
    "eig" ≠ md_attr m ∧
    (<["eig" := 1%nat]> (<["_eig" := 0%nat]> (∅ : gmap string nat)))
      !! md_attr m = Some (md_default m) ∧
    (<["eig" := 1%nat]> (<["_eig" := 0%nat]> (∅ : gmap string nat))) !! "eig" = Some 1%nat ∧
    (∀ key, key ≠ "eig" → key ≠ md_attr m →
       (<["eig" := 1%nat]> (<["_eig" := 0%nat]> (∅ : gmap string nat))) !! key
         = (∅ : gmap string nat) !! key) ∧
    (bool_decide (md_prop m = None) = true →
     "eig" = lstrip_underscore (md_attr m)).
Proof.
  exact (update_attributes_keys string (option string) nat unit unit
           (λ _, true) id (λ _, false) (λ p, bool_decide (p = None)) (λ _, true)
           (default "eig") (λ _ _ _, 1%nat)
           (Some {| md_attr := "_eig"; md_prop := None; md_default := 0%nat;
                    md_doc := (); md_dtype := () |})
           ∅ (Ok (Some "eig"))
           (<["eig" := 1%nat]> (<["_eig" := 0%nat]> ∅))
           eq_refl).
Defined.
